(** * client-dag: level assignment, graph utilities and the level executor

    A shallow embedding of [src/dag/traversal.ts], [src/dag/builder.ts] and
    [src/dag/executor.ts], with the properties of the specification proved
    (or refuted) against it.  The modules from [LevelFacts] on prove further
    properties of the same code: the shape of the leveled graph, the exact
    closures computed by the graph utilities, and the schedules of the
    executor.

    Conventions.
    - A JavaScript [Map<string, V>] is an association list in insertion order
      ([JsMap]); a [Map] has pairwise distinct keys, which the theorems about a
      map take as the hypothesis [NoDup (keys nodes)].  A [Set<string>] is a
      duplicate-free list in insertion order ([JsSet]).
    - Every node object is held by value, one object per map key.  The in-place
      assignment [node.level = currentLevel] is an update of the map entry.
    - [while] loops and the recursive closures [visit] run on fuel that is fixed
      by the size of the input; the theorems prove that it never runs out.
    - The opaque payloads [data] and [output] are type parameters.
    - A JavaScript number is a rational, an infinity or [NaN]. *)

From Stdlib Require Import String List ZArith Lia Bool Permutation Relations.
From Stdlib Require Import QArith Qround.
Close Scope Q_scope.
Import ListNotations.
Open Scope list_scope.

(** ** JavaScript collections *)

Module JsMap.

Definition t (V : Type) : Type := list (string * V).

Section Ops.
Context {V : Type}.

Fixpoint get (m : t V) (k : string) : option V :=
  match m with
  | [] => None
  | (k', v) :: m' => if String.eqb k' k then Some v else get m' k
  end.

Definition has (m : t V) (k : string) : bool :=
  match get m k with Some _ => true | None => false end.

(** [m.set(k, v)]: an existing key keeps its position, a new key is
    appended. *)
Fixpoint set (m : t V) (k : string) (v : V) : t V :=
  match m with
  | [] => [(k, v)]
  | (k', v') :: m' =>
      if String.eqb k' k then (k', v) :: m' else (k', v') :: set m' k v
  end.

Definition keys (m : t V) : list string := map fst m.

Definition size (m : t V) : nat := length m.
End Ops.

End JsMap.

Module JsSet.

Definition t : Type := list string.

(** [new Set()] *)
Definition empty : t := [].

Definition has (s : t) (x : string) : bool := existsb (String.eqb x) s.

Definition add (s : t) (x : string) : t := if has s x then s else s ++ [x].

End JsSet.

(** ** types.ts *)

Module Types.

Record DAGNode {TData : Type} : Type := mkNode
  { id : string;
    dependencies : list string;
    level : option nat;
    data : option TData }.
Arguments DAGNode : clear implicits.
Arguments mkNode {TData} _ _ _ _.

Definition set_level {TData} (node : DAGNode TData) (l : nat) : DAGNode TData :=
  mkNode (id node) (dependencies node) (Some l) (data node).

Record DependencyDAG {TData : Type} : Type := mkDAG
  { nodes : JsMap.t (DAGNode TData);
    levels : list (list (DAGNode TData));
    roots : list string;
    leaves : list string }.
Arguments DependencyDAG : clear implicits.
Arguments mkDAG {TData} _ _ _ _.

(** How a call ends: with a value, or with a thrown [Error] carrying a
    message. *)
Inductive Completion (A : Type) : Type :=
| Return (a : A)
| ThrowError (message : string).
Arguments Return {A} _.
Arguments ThrowError {A} _.

End Types.

Import Types.

(** ** traversal.ts *)

Module Traversal.

Section Kahn.
Context {TData : Type}.
Local Abbreviation Node := (DAGNode TData).

(** [node.dependencies.filter((dep) => nodes.has(dep))] *)
Definition depsInDag (nodes : JsMap.t Node) (node : Node) : list string :=
  filter (fun dep => JsMap.has nodes dep) (dependencies node).

(** First loop: in-degree of every name, and an empty dependent set. *)
Definition initTables (nodes : JsMap.t Node)
  : JsMap.t Z * JsMap.t JsSet.t :=
  fold_left
    (fun tabs entry =>
       let '(inDegree, dependents) := tabs in
       let '(name, node) := entry in
       (JsMap.set inDegree name (Z.of_nat (length (depsInDag nodes node))),
        JsMap.set dependents name []))
    nodes ([], []).

(** Second loop: reverse edges. *)
Definition addDependent (name : string) (dependents : JsMap.t JsSet.t)
  (dep : string) : JsMap.t JsSet.t :=
  match JsMap.get dependents dep with
  | Some s => JsMap.set dependents dep (JsSet.add s name)
  | None => dependents
  end.

Definition addDependents (nodes : JsMap.t Node)
  (dependents : JsMap.t JsSet.t) : JsMap.t JsSet.t :=
  fold_left
    (fun dependents entry =>
       let '(name, node) := entry in
       fold_left (addDependent name) (dependencies node) dependents)
    nodes dependents.

(** Third loop: the names whose in-degree is zero, in map order. *)
Definition initialQueue (inDegree : JsMap.t Z) : list string :=
  map fst (filter (fun entry => (snd entry =? 0)%Z) inDegree).

(** The mutable variables of the [while] loop.  [None] below stands for a
    run that the model cannot continue: a non-null assertion [!] on an
    absent key, or exhausted fuel. *)
Record LoopState : Type := mkLoop
  { l_nodes : JsMap.t Node;
    l_inDegree : JsMap.t Z;
    l_levels : list (list Node);
    l_nodeLevel : JsMap.t nat;
    l_processedCount : nat }.

(** The variables of one pass over [queue]. *)
Record PassState : Type := mkPass
  { p_nodes : JsMap.t Node;
    p_inDegree : JsMap.t Z;
    p_nodeLevel : JsMap.t nat;
    p_processedCount : nat;
    p_levelNodes : list Node;
    p_nextQueue : list string }.

(** Body of [for (const dependent of dependents.get(name) ?? [])].  A
    dependent without an in-degree entry ([inDegree.get(dependent)!] on an
    absent key) ends the model's run; it does not occur. *)
Definition relax (acc : option (JsMap.t Z * list string))
  (dependent : string) : option (JsMap.t Z * list string) :=
  match acc with
  | None => None
  | Some (inDegree, nextQueue) =>
      match JsMap.get inDegree dependent with
      | None => None
      | Some degree =>
          let newDegree := (degree - 1)%Z in
          let inDegree := JsMap.set inDegree dependent newDegree in
          Some (inDegree,
                if (newDegree =? 0)%Z then nextQueue ++ [dependent]
                else nextQueue)
      end
  end.

(** Body of [for (const name of queue)].  [nodes.get(name)!] on an absent key
    ends the model's run; it does not occur. *)
Definition visit (dependents : JsMap.t JsSet.t) (currentLevel : nat)
  (acc : option PassState) (name : string) : option PassState :=
  match acc with
  | None => None
  | Some p =>
      match JsMap.get (p_nodes p) name with
      | None => None
      | Some node =>
          let node := set_level node currentLevel in
          let nodes := JsMap.set (p_nodes p) name node in
          let nodeLevel := JsMap.set (p_nodeLevel p) name currentLevel in
          let levelNodes := p_levelNodes p ++ [node] in
          let processedCount := S (p_processedCount p) in
          let ds := match JsMap.get dependents name with
                    | Some s => s
                    | None => []
                    end in
          match fold_left relax ds (Some (p_inDegree p, p_nextQueue p)) with
          | None => None
          | Some (inDegree, nextQueue) =>
              Some (mkPass nodes inDegree nodeLevel processedCount
                           levelNodes nextQueue)
          end
      end
  end.

(** One iteration of [while (queue.length > 0)]. *)
Definition processLevel (dependents : JsMap.t JsSet.t) (st : LoopState)
  (queue : list string) : option (LoopState * list string) :=
  let currentLevel := length (l_levels st) in
  match fold_left (visit dependents currentLevel) queue
          (Some (mkPass (l_nodes st) (l_inDegree st) (l_nodeLevel st)
                        (l_processedCount st) [] []))
  with
  | None => None
  | Some p =>
      Some (mkLoop (p_nodes p) (p_inDegree p)
                   (l_levels st ++ [p_levelNodes p])
                   (p_nodeLevel p) (p_processedCount p),
            p_nextQueue p)
  end.

Fixpoint whileQueue (fuel : nat) (dependents : JsMap.t JsSet.t)
  (st : LoopState) (queue : list string) : option LoopState :=
  match queue with
  | [] => Some st
  | _ :: _ =>
      match fuel with
      | O => None
      | S fuel' =>
          match processLevel dependents st queue with
          | None => None
          | Some (st', nextQueue) =>
              whileQueue fuel' dependents st' nextQueue
          end
      end
  end.

Definition cycleMessage (cycleNodes : list string) : string :=
  String.append "Circular dependency detected involving: "
                (String.concat ", " cycleNodes).

(** The statements after the [while] loop. *)
Definition finishDAG (dependents : JsMap.t JsSet.t)
  (st : LoopState) : Completion (DependencyDAG TData) :=
  let nodes := l_nodes st in
  if negb (l_processedCount st =? JsMap.size nodes)%nat then
    let cycleNodes :=
      filter (fun n => negb (JsMap.has (l_nodeLevel st) n))
             (JsMap.keys nodes) in
    ThrowError (cycleMessage cycleNodes)
  else
    let roots :=
      filter (fun name =>
                match JsMap.get dependents name with
                | None => true
                | Some deps => (length deps =? 0)%nat
                end)
             (JsMap.keys nodes) in
    let leaves :=
      filter (fun name =>
                match JsMap.get nodes name with
                | None => false
                | Some node => (length (depsInDag nodes node) =? 0)%nat
                end)
             (JsMap.keys nodes) in
    Return (mkDAG nodes (l_levels st) roots leaves).

Definition buildLeveledDAG (nodes : JsMap.t Node)
  : option (Completion (DependencyDAG TData)) :=
  let '(inDegree, dependents) := initTables nodes in
  let dependents := addDependents nodes dependents in
  let queue := initialQueue inDegree in
  match whileQueue (JsMap.size nodes) dependents
          (mkLoop nodes inDegree [] [] 0) queue
  with
  | None => None
  | Some st => Some (finishDAG dependents st)
  end.

(** [dag.levels.flat()] *)
Definition getTopologicalOrder (dag : DependencyDAG TData) : list Node :=
  concat (levels dag).

End Kahn.

End Traversal.

(** ** builder.ts *)

Module Builder.

Section Builder.
Context {TData : Type}.
Local Abbreviation Node := (DAGNode TData).

(** The closure [visit] of [filterDAGFromRoot], on the map [filtered] and
    the set [visited]. *)
Fixpoint visitFiltered (fuel : nat) (nodes : JsMap.t Node) (id : string)
  (acc : JsMap.t Node * JsSet.t) : option (JsMap.t Node * JsSet.t) :=
  match fuel with
  | O => None
  | S fuel' =>
      let '(filtered, visited) := acc in
      if JsSet.has visited id then Some acc
      else
        let visited := JsSet.add visited id in
        match JsMap.get nodes id with
        | None => Some (filtered, visited)
        | Some node =>
            fold_left
              (fun acc dep =>
                 match acc with
                 | None => None
                 | Some acc => visitFiltered fuel' nodes dep acc
                 end)
              (dependencies node)
              (Some (JsMap.set filtered id node, visited))
        end
  end.

Definition filterDAGFromRoot (nodes : JsMap.t Node) (rootId : string)
  : option (JsMap.t Node) :=
  option_map fst
    (visitFiltered (S (S (JsMap.size nodes))) nodes rootId
       ([], JsSet.empty)).

(** The closure [visit] of [getAncestors].  The pair is the two sets it
    mutates, [ancestors] and [visited]. *)
Fixpoint visitAncestors (fuel : nat) (nodes : JsMap.t Node) (n : string)
  (sets : JsSet.t * JsSet.t) : option (JsSet.t * JsSet.t) :=
  match fuel with
  | O => None
  | S fuel' =>
      let '(ancestors, visited) := sets in
      if JsSet.has visited n then Some sets
      else
        let visited := JsSet.add visited n in
        match JsMap.get nodes n with
        | None => Some (ancestors, visited)
        | Some node =>
            fold_left
              (fun acc dep =>
                 match acc with
                 | None => None
                 | Some (ancestors, visited) =>
                     if JsMap.has nodes dep then
                       visitAncestors fuel' nodes dep
                         (JsSet.add ancestors dep, visited)
                     else Some (ancestors, visited)
                 end)
              (dependencies node) (Some (ancestors, visited))
        end
  end.

Definition getAncestors (nodes : JsMap.t Node) (id : string)
  : option JsSet.t :=
  option_map fst
    (visitAncestors (S (S (JsMap.size nodes))) nodes id
       (JsSet.empty, JsSet.empty)).

(** The reverse dependency map of [getDescendants]. *)
Definition addReverseEdge (nodeId : string) (dependents : JsMap.t JsSet.t)
  (dep : string) : JsMap.t JsSet.t :=
  let dependents :=
    if negb (JsMap.has dependents dep) then JsMap.set dependents dep []
    else dependents in
  match JsMap.get dependents dep with
  | Some s => JsMap.set dependents dep (JsSet.add s nodeId)
  | None => dependents
  end.

Definition reverseEdges (nodes : JsMap.t Node) : JsMap.t JsSet.t :=
  fold_left
    (fun dependents entry =>
       let '(nodeId, node) := entry in
       fold_left (addReverseEdge nodeId) (dependencies node) dependents)
    nodes [].

(** The closure [visit] of [getDescendants], on the sets [descendants] and
    [visited]. *)
Fixpoint visitDescendants (fuel : nat) (dependents : JsMap.t JsSet.t)
  (n : string) (sets : JsSet.t * JsSet.t) : option (JsSet.t * JsSet.t) :=
  match fuel with
  | O => None
  | S fuel' =>
      let '(descendants, visited) := sets in
      if JsSet.has visited n then Some sets
      else
        let visited := JsSet.add visited n in
        match JsMap.get dependents n with
        | None => Some (descendants, visited)
        | Some deps =>
            fold_left
              (fun acc dep =>
                 match acc with
                 | None => None
                 | Some (descendants, visited) =>
                     visitDescendants fuel' dependents dep
                       (JsSet.add descendants dep, visited)
                 end)
              deps (Some (descendants, visited))
        end
  end.

Definition getDescendants (nodes : JsMap.t Node) (id : string)
  : option JsSet.t :=
  option_map fst
    (visitDescendants (S (S (JsMap.size nodes))) (reverseEdges nodes) id
       (JsSet.empty, JsSet.empty)).

(** [createNode(id, dependencies = [], data)] *)
Definition createNode (id : string) (dependencies : list string)
  (data : option TData) : Node :=
  mkNode id dependencies None data.

(** [new Map(nodes.map((n) => [n.id, n]))] *)
Definition buildNodeMap (nodes : list Node) : JsMap.t Node :=
  fold_left (fun m n => JsMap.set m (id n) n) nodes [].

End Builder.

End Builder.

(** ** executor.ts *)

(** JavaScript runs [executeDAG] on one thread.  Between two [await]s the code
    runs to completion; while it is suspended, the promises of the work
    function settle in an order that the program does not control.  The model
    is a machine whose states are the suspension points of one [executeDAG]
    call and whose events are

    - [Settle i]: the [i]-th promise of the set [executing] settles; its
      [then] callback runs ([results.push], [executing.delete]) or, when the
      promise rejects, does not run;
    - [Wake]: the pending [await] ([Promise.race] or [Promise.all]) has
      settled and the code runs on to the next suspension point.

    Any number of promises may settle between the moment an [await] settles
    and the moment the code resumes.  [Settle i] stands for the whole chain
    of one task - the promise of the work function settles, the arrow
    function calls [onNodeComplete] and returns or throws, the [then]
    callback runs - as one event; the callbacks of the tasks run in the order
    in which their arrow functions return, so the order of the
    [onNodeComplete] calls that return is the order of [levelResults].

    The callbacks [onNodeStart] and [onNodeComplete] are optional and may
    throw.  An exception of [onNodeStart] rejects the promise of the arrow
    function before the work function is called; an exception of
    [onNodeComplete] rejects it after the promise of the work function has
    fulfilled.  The observations [OnNodeStart] and [OnNodeComplete] of a
    trace mark the two points [onNodeStart?.(node)] and
    [onNodeComplete?.(result)] of the arrow function.  What a callback does
    on an argument and the eventual outcome of the work function on a node
    are functions of the argument; when a promise settles is up to the
    schedule.  The limit [concurrency] is a JavaScript number: a rational, an
    infinity or [NaN].  The wall-clock field [totalDuration] is left out. *)

Module Executor.

(** A JavaScript number, as the test [executing.size >= limit] sees it. *)
Inductive JsNumber : Type :=
| Finite (q : Q)
| PlusInfinity
| MinusInfinity
| NaN.

(** [size >= limit] for the size of a collection. *)
Definition sizeAtLeast (size : nat) (limit : JsNumber) : bool :=
  match limit with
  | Finite q => Qle_bool q (inject_Z (Z.of_nat size))
  | MinusInfinity => true
  | PlusInfinity => false
  | NaN => false
  end.

Section Executor.
Context {TData TOutput : Type}.
Local Abbreviation Node := (DAGNode TData).

Record NodeResult : Type := mkResult
  { node : Node;
    success : bool;
    error : option string;
    duration : Z;
    logs : list string;
    output : option TOutput }.

(** A callback returns ([Return tt]) or throws. *)
Record DAGExecutionOptions : Type := mkOptions
  { concurrency : option JsNumber;
    failFast : option bool;
    onNodeStart : option (Node -> Completion unit);
    onNodeComplete : option (NodeResult -> Completion unit) }.

(** [dag_success] is the field [success] of a [DAGResult]. *)
Record DAGResult : Type := mkDAGResult
  { dag_success : bool;
    results : JsMap.t NodeResult;
    failedNodes : list string }.

(** How the promise returned by the work function settles. *)
Inductive Outcome : Type :=
| Fulfilled (result : NodeResult)
| Rejected (reason : string).

(** The points of the arrow function that the outside can see, and the
    synthetic-skip branch. *)
Inductive Observation : Type :=
| OnNodeStart (n : Node)
| Invoke (n : Node)
| OnNodeComplete (result : NodeResult)
| Skip (n : Node).

(** A promise held in [executing]: the task of one node.  A fulfilled promise
    leaves the set at once; a rejected one stays in it. *)
Record Task : Type := mkTask
  { t_node : Node;
    t_skipped : bool;
    t_rejected : option string }.

(** The [await] the code is suspended on, with what is known of its
    settlement: [Promise.race] settles as its first settled member,
    [Promise.all] rejects with the first rejection. *)
Inductive Racing : Type :=
| Undecided
| Won
| Lost (reason : string).

Inductive Await : Type :=
| Race (r : Racing)
| All (rejected : option string).

Inductive Status : Type :=
| Suspended (a : Await)
| Done (c : Completion DAGResult).

Record State : Type := mkState
  { s_levels : list (list Node);
    s_items : list Node;
    s_executing : list Task;
    s_levelResults : list NodeResult;
    s_results : JsMap.t NodeResult;
    s_failedNodes : list string;
    s_shouldStop : bool;
    s_trace : list Observation;
    s_status : Status }.

Inductive Event : Type :=
| Settle (i : nat)
| Wake.

Variable processor : Node -> Outcome.
Variable options : DAGExecutionOptions.

(** [const { concurrency = 4, failFast = true } = options] *)
Definition limitOf : JsNumber :=
  match concurrency options with Some c => c | None => Finite 4 end.

Definition failFastOf : bool :=
  match failFast options with Some b => b | None => true end.

(** [onNodeStart?.(node)]: what it throws, if it throws. *)
Definition callStart (n : Node) : option string :=
  match onNodeStart options with
  | Some callback =>
      match callback n with
      | Return _ => None
      | ThrowError reason => Some reason
      end
  | None => None
  end.

(** [onNodeComplete?.(result)]: what it throws, if it throws. *)
Definition callComplete (result : NodeResult) : option string :=
  match onNodeComplete options with
  | Some callback =>
      match callback result with
      | Return _ => None
      | ThrowError reason => Some reason
      end
  | None => None
  end.

Definition skippedResult (n : Node) : NodeResult :=
  mkResult n false (Some "Skipped due to earlier failure"%string) 0
           ["Skipped due to earlier failure"%string] None.

(** [onNodeStart?.(node)] and, unless that throws, the call
    [processor(node)]. *)
Definition startCalls (n : Node) : list Observation :=
  OnNodeStart n
  :: match callStart n with
     | Some _ => []
     | None => [Invoke n]
     end.

(** The synchronous start of the arrow function given to
    [executeWithConcurrency]. *)
Definition startTask (shouldStop : bool) (n : Node)
  (trace : list Observation) : Task * list Observation :=
  if shouldStop then (mkTask n true None, trace ++ [Skip n])
  else (mkTask n false None, trace ++ startCalls n).

(** What the promise of the arrow function settles to when the skip branch
    is not taken: [onNodeStart?.(node); const result = await
    processor(node); onNodeComplete?.(result); return result]. *)
Definition arrowOutcome (n : Node) : Outcome :=
  match callStart n with
  | Some reason => Rejected reason
  | None =>
      match processor n with
      | Fulfilled result =>
          match callComplete result with
          | Some reason => Rejected reason
          | None => Fulfilled result
          end
      | Rejected reason => Rejected reason
      end
  end.

(** What the promise of a task settles to. *)
Definition taskOutcome (t : Task) : Outcome :=
  if t_skipped t then Fulfilled (skippedResult (t_node t))
  else arrowOutcome (t_node t).

(** The point [onNodeComplete?.(result)], which the arrow function of a
    task reaches when [onNodeStart] returned and the promise of the work
    function fulfils. *)
Definition completionCalls (t : Task) : list Observation :=
  if t_skipped t then []
  else
    match callStart (t_node t) with
    | Some _ => []
    | None =>
        match processor (t_node t) with
        | Fulfilled result => [OnNodeComplete result]
        | Rejected _ => []
        end
    end.

Definition firstRejection (executing : list Task) : option string :=
  match filter (fun t => match t_rejected t with Some _ => true | None => false end)
               executing with
  | t :: _ => t_rejected t
  | [] => None
  end.

Definition raceOf (executing : list Task) : Racing :=
  match firstRejection executing with
  | Some reason => Lost reason
  | None => Undecided
  end.

(** [executeWithConcurrency]: its loop [for (const item of items)], run up to
    the next [await] - [await Promise.race(executing)] inside the loop when
    [executing.size >= limit], or [await Promise.all(executing)] after the
    last item.  The result is the items left, the set [executing], the trace
    and the [await] reached. *)
Fixpoint dispatch (shouldStop : bool) (items : list Node)
  (executing : list Task) (trace : list Observation)
  : list Node * list Task * list Observation * Await :=
  match items with
  | [] => ([], executing, trace, All (firstRejection executing))
  | item :: rest =>
      let '(task, trace) := startTask shouldStop item trace in
      let executing := executing ++ [task] in
      if sizeAtLeast (length executing) limitOf then
        (rest, executing, trace, Race (raceOf executing))
      else dispatch shouldStop rest executing trace
  end.

(** Body of [for (const result of levelResults)]. *)
Definition recordResult
  (acc : JsMap.t NodeResult * list string * bool) (result : NodeResult)
  : JsMap.t NodeResult * list string * bool :=
  let '(results, failedNodes, shouldStop) := acc in
  let results := JsMap.set results (id (node result)) result in
  if negb (success result) then
    (results, failedNodes ++ [id (node result)],
     if failFastOf then true else shouldStop)
  else (results, failedNodes, shouldStop).

Definition finish (st : State) : State :=
  mkState (s_levels st) (s_items st) (s_executing st) (s_levelResults st)
          (s_results st) (s_failedNodes st) (s_shouldStop st) (s_trace st)
          (Done (Return (mkDAGResult
                           (length (s_failedNodes st) =? 0)%nat
                           (s_results st) (s_failedNodes st)))).

Definition throw (reason : string) (st : State) : State :=
  mkState (s_levels st) (s_items st) (s_executing st) (s_levelResults st)
          (s_results st) (s_failedNodes st) (s_shouldStop st) (s_trace st)
          (Done (ThrowError reason)).

(** Top of [for (const level of dag.levels)], run to the next [await] or to
    the [return]. *)
Definition nextLevel (st : State) : State :=
  match s_levels st with
  | [] => finish st
  | level :: levels =>
      if s_shouldStop st then finish st
      else
        let '(items, executing, trace, a) :=
          dispatch (s_shouldStop st) level [] (s_trace st) in
        mkState levels items executing [] (s_results st) (s_failedNodes st)
                (s_shouldStop st) trace (Suspended a)
  end.

(** [await Promise.all(executing)] is over and [executeWithConcurrency] has
    returned its [results] as [levelResults]: record them and go on with the
    level loop. *)
Definition completeLevel (st : State) : State :=
  let '(results, failedNodes, shouldStop) :=
    fold_left recordResult (s_levelResults st)
              (s_results st, s_failedNodes st, s_shouldStop st) in
  nextLevel
    (mkState (s_levels st) (s_items st) (s_executing st) []
             results failedNodes shouldStop (s_trace st) (s_status st)).

(** The code resumes after [await Promise.race(executing)]. *)
Definition resumeLoop (st : State) : State :=
  let '(items, executing, trace, a) :=
    dispatch (s_shouldStop st) (s_items st) (s_executing st) (s_trace st) in
  mkState (s_levels st) items executing (s_levelResults st) (s_results st)
          (s_failedNodes st) (s_shouldStop st) trace (Suspended a).

Fixpoint removeNth {A : Type} (i : nat) (l : list A) : list A :=
  match l, i with
  | [], _ => []
  | _ :: l', O => l'
  | a :: l', S i' => a :: removeNth i' l'
  end.

Fixpoint rejectNth (i : nat) (reason : string) (l : list Task) : list Task :=
  match l, i with
  | [], _ => []
  | t :: l', O => mkTask (t_node t) (t_skipped t) (Some reason) :: l'
  | t :: l', S i' => t :: rejectNth i' reason l'
  end.

Definition settle (i : nat) (a : Await) (st : State) : option State :=
  match nth_error (s_executing st) i with
  | None => None
  | Some task =>
      match t_rejected task with
      | Some _ => None
      | None =>
          let trace := s_trace st ++ completionCalls task in
          match taskOutcome task with
          | Fulfilled result =>
              let a := match a with Race Undecided => Race Won | _ => a end in
              Some (mkState (s_levels st) (s_items st)
                            (removeNth i (s_executing st))
                            (s_levelResults st ++ [result])
                            (s_results st) (s_failedNodes st)
                            (s_shouldStop st) trace (Suspended a))
          | Rejected reason =>
              let a := match a with
                       | Race Undecided => Race (Lost reason)
                       | All None => All (Some reason)
                       | _ => a
                       end in
              Some (mkState (s_levels st) (s_items st)
                            (rejectNth i reason (s_executing st))
                            (s_levelResults st)
                            (s_results st) (s_failedNodes st)
                            (s_shouldStop st) trace (Suspended a))
          end
      end
  end.

Definition step (st : State) (e : Event) : option State :=
  match s_status st, e with
  | Suspended a, Settle i => settle i a st
  | Suspended (Race Won), Wake => Some (resumeLoop st)
  | Suspended (Race (Lost reason)), Wake => Some (throw reason st)
  | Suspended (All (Some reason)), Wake => Some (throw reason st)
  | Suspended (All None), Wake =>
      match s_executing st with
      | [] => Some (completeLevel st)
      | _ :: _ => None
      end
  | _, _ => None
  end.

Fixpoint run (st : State) (events : list Event) : option State :=
  match events with
  | [] => Some st
  | e :: events' =>
      match step st e with
      | Some st' => run st' events'
      | None => None
      end
  end.

(** [executeDAG(dag, processor, options)] up to its first suspension. *)
Definition executeDAG (dag : DependencyDAG TData) : State :=
  nextLevel
    (mkState (levels dag) [] [] [] [] [] false [] (Suspended (All None))).

(** The number of tasks that were dispatched and whose promise is not
    fulfilled: the size of [executing]. *)
Definition inFlight (st : State) : nat := length (s_executing st).

End Executor.

(** [{ ...options, concurrency: 1 }] *)
Definition sequentialOptions {TData TOutput : Type}
  (options : @DAGExecutionOptions TData TOutput)
  : @DAGExecutionOptions TData TOutput :=
  mkOptions (Some (Finite 1)) (failFast options) (onNodeStart options)
            (onNodeComplete options).

(** [executeDAGSequential] *)
Definition executeDAGSequential {TData TOutput : Type}
  (options : @DAGExecutionOptions TData TOutput) (dag : DependencyDAG TData)
  : @State TData TOutput :=
  executeDAG (sequentialOptions options) dag.

Section CreateProcessor.
Context {TData TOutput Value : Type}.

(** A thrown value: an [Error] object with its [message], a string, or any
    other value. *)
Inductive Thrown : Type :=
| ErrorObject (message : string)
| OtherValue (v : Value).

(** What [await fn(node)] does: it returns or it throws. *)
Inductive FnOutcome : Type :=
| Returns
| Throws (e : Thrown).

(** [String(error)] for a thrown value that is not an [Error]: the string,
    or the error that the conversion throws (a [TypeError] for a symbol or
    for an object that has no usable [toString] or [valueOf]). *)
Variable String_ : Value -> Completion string.

(** [error instanceof Error ? error : new Error(String(error))], read at
    [.message]. *)
Definition messageOf (e : Thrown) : Completion string :=
  match e with
  | ErrorObject message => Return message
  | OtherValue v => String_ v
  end.

(** [createProcessor(fn)(node)].  [startTime] and [endTime] are the two
    readings of [Date.now()].  An exception inside the [catch] block is not
    caught: the promise of the processor rejects with it. *)
Definition createProcessor (fn : DAGNode TData -> FnOutcome)
  (startTime endTime : Z) (n : DAGNode TData) : @Outcome TData TOutput :=
  let logs := ["Starting " ++ id n]%string in
  match fn n with
  | Returns =>
      let logs := logs ++ ["Completed " ++ id n]%string in
      Fulfilled (mkResult n true None (endTime - startTime) logs None)
  | Throws e =>
      match messageOf e with
      | ThrowError reason => Rejected reason
      | Return message =>
          let logs := logs ++ ["Failed " ++ id n ++ ": " ++ message]%string in
          Fulfilled (mkResult n false (Some message) (endTime - startTime)
                              logs None)
      end
  end.

End CreateProcessor.

End Executor.

(** ** Vocabulary of the statements *)

Module ExecSpec.
Import Executor.

Section Traces.
Context {TData TOutput : Type}.
Local Abbreviation Obs := (@Observation TData TOutput).

(** The nodes the work function was called on, in call order. *)
Definition invoked (trace : list Obs) : list (DAGNode TData) :=
  flat_map (fun o => match o with Invoke n => [n] | _ => [] end) trace.

(** The nodes whose arrow function reached [onNodeStart?.(node)]: the nodes
    that were dispatched through the regular branch. *)
Definition started (trace : list Obs) : list (DAGNode TData) :=
  flat_map (fun o => match o with OnNodeStart n => [n] | _ => [] end) trace.

(** The results for which [onNodeComplete?.(result)] was reached, in
    completion order. *)
Definition completed (trace : list Obs) : list (@NodeResult TData TOutput) :=
  flat_map (fun o => match o with OnNodeComplete r => [r] | _ => [] end)
           trace.

(** The nodes that went through the synthetic-skip branch. *)
Definition skipped (trace : list Obs) : list (DAGNode TData) :=
  flat_map (fun o => match o with Skip n => [n] | _ => [] end) trace.

(** [results.set(result.node.id, result)] over a list of results. *)
Definition recordAll (rs : list (@NodeResult TData TOutput))
  (m : JsMap.t (@NodeResult TData TOutput)) : JsMap.t NodeResult :=
  fold_left (fun m r => JsMap.set m (id (node r)) r) rs m.

Definition failedIds (rs : list (@NodeResult TData TOutput)) : list string :=
  map (fun r => id (node r)) (filter (fun r => negb (success r)) rs).

Variable processor : DAGNode TData -> @Outcome TData TOutput.
Variable options : @DAGExecutionOptions TData TOutput.
Variable dag : DependencyDAG TData.

(** [onNodeStart] is absent or returns on the node. *)
Definition startReturns (n : DAGNode TData) : bool :=
  match callStart options n with None => true | Some _ => false end.

(** [onNodeComplete] is absent or returns on the result. *)
Definition completeReturns (r : @NodeResult TData TOutput) : bool :=
  match callComplete options r with None => true | Some _ => false end.

(** The results the arrow function returned, in completion order. *)
Definition delivered (trace : list Obs) : list (@NodeResult TData TOutput) :=
  filter completeReturns (completed trace).

(** A task whose work function has been called and whose result has not
    reached [onNodeComplete]: its promise is pending or was rejected by the
    work function. *)
Definition working (t : @Task TData) : bool :=
  startReturns (t_node t)
  && match t_rejected t, processor (t_node t) with
     | Some _, Fulfilled _ => false
     | _, _ => true
     end.

(** The work function answers for the node it was given. *)
Definition answersForNode : Prop :=
  forall n r, processor n = Fulfilled r -> node r = n.

(** The items of the levels carry pairwise distinct identifiers. *)
Definition distinctIds : Prop :=
  NoDup (map id (concat (levels dag))).

(** A state that some schedule reaches from the call. *)
Definition reachable (st : State) : Prop :=
  exists events,
    run processor options (executeDAG options dag) events = Some st.

(** The limit is at most [k]: the test [k >= limit] holds. *)
Definition atMost (k : nat) : Prop :=
  sizeAtLeast k (limitOf options) = true.

(** The sizes the set [executing] can have: one task, or a size that was
    reached from a size below the limit. *)
Definition withinLimit (size : nat) : Prop :=
  size <= 1 \/ sizeAtLeast (size - 1) (limitOf options) = false.

(** The sizes at which the loop goes on to the next item. *)
Definition room (size : nat) : Prop :=
  size = 0 \/ sizeAtLeast size (limitOf options) = false.

(** Why a call can reject: the work function rejected on a node it was
    called on, or [onNodeStart] threw on a node, or [onNodeComplete] threw
    on a result. *)
Definition cause (trace : list Obs) (reason : string) : Prop :=
  (exists n, In n (invoked trace) /\ processor n = Rejected reason) \/
  (exists n, In n (started trace) /\ callStart options n = Some reason) \/
  (exists r, In r (completed trace) /\ callComplete options r = Some reason).

(** A state between two levels: nothing pending, every result recorded. *)
Record Between (st : State) : Prop := mkBetween
  { b_items : s_items st = [];
    b_executing : s_executing st = [];
    b_levelResults : s_levelResults st = [];
    b_levels :
      exists done,
        levels dag = done ++ s_levels st /\
        started (s_trace st) = concat done;
    b_invoked :
      invoked (s_trace st) = filter startReturns (started (s_trace st));
    b_noskip : skipped (s_trace st) = [];
    b_outcomes :
      Permutation (map (arrowOutcome processor options)
                       (started (s_trace st)))
                  (map Fulfilled (delivered (s_trace st)));
    b_completed :
      forall r,
        In r (completed (s_trace st)) ->
        exists n, In n (invoked (s_trace st)) /\ processor n = Fulfilled r;
    b_results : s_results st = recordAll (delivered (s_trace st)) [];
    b_failed : s_failedNodes st = failedIds (delivered (s_trace st));
    b_failfast :
      failFastOf options = true -> s_failedNodes st <> [] ->
      s_shouldStop st = true }.

Record ExecInv (st : State) : Prop := mkExecInv
  { e_levels :
      exists done,
        levels dag = done ++ s_levels st /\
        started (s_trace st) ++ s_items st = concat done;
    e_invoked :
      invoked (s_trace st) = filter startReturns (started (s_trace st));
    e_noskip : skipped (s_trace st) = [];
    e_tasks : Forall (fun t => t_skipped t = false) (s_executing st);
    e_flight :
      Forall (fun t => In (t_node t) (started (s_trace st)))
             (s_executing st);
    e_stop :
      s_shouldStop st = true ->
      exists r, s_status st = Done (Return r);
    e_outcomes :
      Permutation
        (map (arrowOutcome processor options) (started (s_trace st)))
        (map Fulfilled (delivered (s_trace st))
         ++ map (fun t => arrowOutcome processor options (t_node t))
                (s_executing st));
    e_completed :
      forall r,
        In r (completed (s_trace st)) ->
        exists n, In n (invoked (s_trace st)) /\ processor n = Fulfilled r;
    e_recorded :
      exists recorded,
        delivered (s_trace st) = recorded ++ s_levelResults st /\
        s_results st = recordAll recorded [] /\
        s_failedNodes st = failedIds recorded;
    e_bound :
      withinLimit (length (s_executing st)) /\
      (s_status st = Suspended (Race Won) ->
       room (length (s_executing st)));
    e_failfast :
      failFastOf options = true -> s_failedNodes st <> [] ->
      exists r, s_status st = Done (Return r);
    e_all :
      forall rejected,
        s_status st = Suspended (All rejected) -> s_items st = [];
    e_done :
      forall r,
        s_status st = Done (Return r) ->
        s_items st = [] /\ s_executing st = [] /\ s_levelResults st = [] /\
        r = mkDAGResult (length (s_failedNodes st) =? 0)%nat
                        (s_results st) (s_failedNodes st) }.

End Traces.

End ExecSpec.

Module Graph.

Section Graph.
Context {TData : Type}.
Variable nodes : JsMap.t (DAGNode TData).

(** [dependsOn a b]: the item under key [a] lists [b] among its dependencies
    and [b] is a key of the map (an in-graph dependency). *)
Definition dependsOn (a b : string) : Prop :=
  exists node,
    JsMap.get nodes a = Some node /\ In b (dependencies node) /\
    JsMap.has nodes b = true.

(** [k] lies on a dependency cycle (a self-dependency included). *)
Definition onCycle (k : string) : Prop := clos_trans string dependsOn k k.

Definition acyclic : Prop := forall k, ~ onCycle k.

(** [k] is a cycle member or depends, directly or transitively, on one. *)
Definition reachesCycle (k : string) : Prop :=
  exists c, clos_refl_trans string dependsOn k c /\ onCycle c.

(** [hasDependent x d]: the item under key [d] lists [x] among its
    dependencies ([x] itself need not be a key). *)
Definition hasDependent (x d : string) : Prop :=
  exists node, In (d, node) nodes /\ In x (dependencies node).

(** A reverse-edge table records only dependents that exist. *)
Definition edgesSound (dm : JsMap.t JsSet.t) : Prop :=
  forall x s d,
    JsMap.get dm x = Some s -> In d s -> hasDependent x d.

(** No item lists the same in-graph dependency twice. *)
Definition distinctDeps : Prop :=
  forall k node,
    JsMap.get nodes k = Some node -> NoDup (Traversal.depsInDag nodes node).

End Graph.

End Graph.

Module KahnSpec.
Import Traversal.

Section WithNodes.
Context {TData : Type}.
Variable nodes : JsMap.t (DAGNode TData).

(** The reverse-edge table as the [while] loop sees it. *)
Definition dependentsTable : JsMap.t JsSet.t :=
  addDependents nodes (snd (initTables nodes)).

(** [dependents.get(name) ?? []] *)
Definition dependentsOf (name : string) : list string :=
  match JsMap.get dependentsTable name with Some s => s | None => [] end.

(** In-graph dependencies of the item under key [d], duplicates kept. *)
Definition depsOf (d : string) : list string :=
  match JsMap.get nodes d with
  | Some node => depsInDag nodes node
  | None => []
  end.

(** How many names of [xs] have [d] in their dependent set. *)
Definition hits (d : string) (xs : list string) : nat :=
  length (filter (fun x => JsSet.has (dependentsOf x) d) xs).

(** The in-degree part of one pass over a queue. *)
Definition relaxQueue (queue : list string)
  (acc : option (JsMap.t Z * list string)) : option (JsMap.t Z * list string) :=
  fold_left (fun acc x => fold_left relax (dependentsOf x) acc) queue acc.

(** A next queue is sound for an in-degree table when it has no duplicates
    and holds only names whose in-degree is used up. *)
Definition settled (inDegree : JsMap.t Z) (nextQueue : list string) : Prop :=
  NoDup nextQueue /\
  forall d v, In d nextQueue -> JsMap.get inDegree d = Some v -> (v <= 0)%Z.

(** The item stored under a key (an item without content when absent). *)
Definition nodeAt (m : JsMap.t (DAGNode TData)) (k : string) : DAGNode TData :=
  match JsMap.get m k with
  | Some node => node
  | None => mkNode EmptyString [] None None
  end.

(** The level recorded on the item under a key. *)
Definition levelOf (m : JsMap.t (DAGNode TData)) (k : string) : nat :=
  match JsMap.get m k with
  | Some node => match level node with Some l => l | None => 0 end
  | None => 0
  end.

(** 0 without in-graph dependencies, else one more than the highest level
    among them. *)
Definition expectedLevel (m : JsMap.t (DAGNode TData))
  (node : DAGNode TData) : nat :=
  match depsInDag m node with
  | [] => 0
  | deps => S (list_max (map (levelOf m) deps))
  end.

(** The item under a key once the loop has given it a level. *)
Definition leveled (nodeLevel : JsMap.t nat) (k : string)
  (node : DAGNode TData) : DAGNode TData :=
  match JsMap.get nodeLevel k with
  | Some l => set_level node l
  | None => node
  end.

(** Invariant of the [while] loop, at its head, for the state [st] and the
    queue about to be processed. *)
Record Inv (st : LoopState) (queue : list string) : Prop := mkInv
  { inv_keys_nodes : JsMap.keys (l_nodes st) = JsMap.keys nodes;
    inv_keys_degree : JsMap.keys (l_inDegree st) = JsMap.keys nodes;
    inv_nodes :
      forall k node,
        JsMap.get nodes k = Some node ->
        JsMap.get (l_nodes st) k = Some (leveled (l_nodeLevel st) k node);
    inv_nodup : NoDup (JsMap.keys (l_nodeLevel st) ++ queue);
    inv_incl : incl (JsMap.keys (l_nodeLevel st) ++ queue) (JsMap.keys nodes);
    inv_degree :
      forall d,
        In d (JsMap.keys nodes) ->
        JsMap.get (l_inDegree st) d
        = Some (Z.of_nat (length (depsOf d))
                - Z.of_nat (hits d (JsMap.keys (l_nodeLevel st))))%Z;
    inv_zero :
      forall d,
        In d (JsMap.keys nodes) ->
        (In d (JsMap.keys (l_nodeLevel st) ++ queue) <->
         JsMap.get (l_inDegree st) d = Some 0%Z);
    inv_count : l_processedCount st = length (l_nodeLevel st);
    inv_flat :
      Forall2
        (fun e n =>
           exists node,
             JsMap.get nodes (fst e) = Some node /\
             n = set_level node (snd e))
        (l_nodeLevel st) (concat (l_levels st));
    inv_tag :
      forall i n, In n (nth i (l_levels st) []) -> level n = Some i;
    inv_bound :
      forall k l,
        JsMap.get (l_nodeLevel st) k = Some l -> l < length (l_levels st);
    inv_deps :
      forall d l x,
        JsMap.get (l_nodeLevel st) d = Some l -> In x (depsOf d) ->
        exists lx, JsMap.get (l_nodeLevel st) x = Some lx /\ lx < l;
    inv_exact :
      forall d l,
        JsMap.get (l_nodeLevel st) d = Some l ->
        (depsOf d = [] /\ l = 0) \/
        (exists x lx,
            In x (depsOf d) /\ JsMap.get (l_nodeLevel st) x = Some lx /\
            l = S lx);
    inv_queue :
      forall d,
        In d queue ->
        (depsOf d = [] /\ length (l_levels st) = 0) \/
        (exists x lx,
            In x (depsOf d) /\ JsMap.get (l_nodeLevel st) x = Some lx /\
            length (l_levels st) = S lx) }.

(** The same item, map or graph with the dependency identifiers that are not
    keys of [nodes] removed. *)
Definition stripNode (node : DAGNode TData) : DAGNode TData :=
  mkNode (id node) (depsInDag nodes node) (level node) (data node).

Definition stripMap (m : JsMap.t (DAGNode TData)) : JsMap.t (DAGNode TData) :=
  map (fun e => (fst e, stripNode (snd e))) m.

Definition stripDAG (dag : DependencyDAG TData) : DependencyDAG TData :=
  mkDAG (stripMap (Types.nodes dag)) (map (map stripNode) (levels dag))
        (roots dag) (leaves dag).

Definition stripPass (p : PassState) : PassState :=
  mkPass (stripMap (p_nodes p)) (p_inDegree p) (p_nodeLevel p)
         (p_processedCount p) (map stripNode (p_levelNodes p))
         (p_nextQueue p).

Definition stripLoop (st : LoopState) : LoopState :=
  mkLoop (stripMap (l_nodes st)) (l_inDegree st)
         (map (map stripNode) (l_levels st)) (l_nodeLevel st)
         (l_processedCount st).

End WithNodes.

Definition mapCompletion {A B : Type} (f : A -> B) (c : Completion A)
  : Completion B :=
  match c with
  | Return a => Return (f a)
  | ThrowError message => ThrowError message
  end.

End KahnSpec.

(** ** Vocabulary for [filterDAGFromRoot] *)

Module FilterSpec.

Section WithNodes.
Context {TData : Type}.
Variable nodes : JsMap.t (DAGNode TData).

(** The keys that [visit] has not seen yet. *)
Definition unvisited (visited : JsSet.t) : list string :=
  filter (fun k => negb (JsSet.has visited k)) (JsMap.keys nodes).

(** Invariant of the closure [visit] of [filterDAGFromRoot]; [gray] holds
    the identifiers whose calls have not returned. *)
Record FilterInv (gray : list string) (filtered : JsMap.t (DAGNode TData))
  (visited : JsSet.t) : Prop := mkFilterInv
  { f_nodup : NoDup (JsMap.keys filtered);
    f_keys :
      forall k,
        In k (JsMap.keys filtered) <->
        In k visited /\ In k (JsMap.keys nodes);
    f_values :
      forall k n, JsMap.get filtered k = Some n -> JsMap.get nodes k = Some n;
    f_closed :
      forall v c,
        In v visited -> ~ In v gray -> Graph.dependsOn nodes v c ->
        In c visited }.

End WithNodes.

End FilterSpec.

(** ** Vocabulary for the schedules of the executor *)

Module ScheduleSpec.
Import Executor ExecSpec.

Section Schedule.
Context {TData TOutput : Type}.
Variable processor : DAGNode TData -> @Outcome TData TOutput.
Variable options : @DAGExecutionOptions TData TOutput.
Variable dag : DependencyDAG TData.

(** The variables of [executeDAG] before its level loop. *)
Definition initial : @State TData TOutput :=
  mkState (levels dag) [] [] [] [] [] false [] (Suspended (All None)).

(** The state once [for (const result of levelResults)] has run. *)
Definition recorded (st : @State TData TOutput) : State :=
  mkState (s_levels st) (s_items st) (s_executing st) []
          (recordAll (s_levelResults st) (s_results st))
          (s_failedNodes st ++ failedIds (s_levelResults st))
          (if failFastOf options
              && existsb (fun r => negb (success r)) (s_levelResults st)
           then true else s_shouldStop st)
          (s_trace st) (s_status st).

(** What one run of the dispatch loop does: it starts the items [sent] and
    stops at [Promise.all] with no item left, or at [Promise.race] after at
    least one start. *)
Definition dispatched (items : list (DAGNode TData))
  (executing : list (@Task TData)) (sent items' : list (DAGNode TData))
  (a : Await) : Prop :=
  items = sent ++ items' /\
  ((items' = [] /\
    a = All (firstRejection
               (executing ++ map (fun n => mkTask n false None) sent))) \/
   (sent <> [] /\
    a = Race (raceOf
                (executing ++ map (fun n => mkTask n false None) sent)))).

(** The moves of the machine, by what they do to the state. *)
Inductive Transition (st : @State TData TOutput) : State -> Prop :=
| T_fulfil a i task result :
    s_status st = Suspended a ->
    nth_error (s_executing st) i = Some task ->
    t_rejected task = None -> t_skipped task = false ->
    arrowOutcome processor options (t_node task) = Fulfilled result ->
    Transition st
      (mkState (s_levels st) (s_items st) (removeNth i (s_executing st))
               (s_levelResults st ++ [result]) (s_results st)
               (s_failedNodes st) (s_shouldStop st)
               (s_trace st ++ [OnNodeComplete result])
               (Suspended
                  (match a with Race Undecided => Race Won | _ => a end)))
| T_reject a i task reason :
    s_status st = Suspended a ->
    nth_error (s_executing st) i = Some task ->
    t_rejected task = None -> t_skipped task = false ->
    arrowOutcome processor options (t_node task) = Rejected reason ->
    Transition st
      (mkState (s_levels st) (s_items st)
               (rejectNth i reason (s_executing st))
               (s_levelResults st) (s_results st)
               (s_failedNodes st) (s_shouldStop st)
               (s_trace st ++ completionCalls processor options task)
               (Suspended
                  (match a with
                   | Race Undecided => Race (Lost reason)
                   | All None => All (Some reason)
                   | _ => a
                   end)))
| T_resume sent items' a :
    s_status st = Suspended (Race Won) ->
    dispatched (s_items st) (s_executing st) sent items' a ->
    Transition st
      (mkState (s_levels st) items'
               (s_executing st ++ map (fun n => mkTask n false None) sent)
               (s_levelResults st) (s_results st)
               (s_failedNodes st) (s_shouldStop st)
               (s_trace st ++ flat_map (startCalls options) sent)
               (Suspended a))
| T_throw reason :
    s_status st = Suspended (Race (Lost reason)) \/
    s_status st = Suspended (All (Some reason)) ->
    Transition st (throw reason st)
| T_return :
    s_status st = Suspended (All None) ->
    s_executing st = [] -> s_items st = [] ->
    s_levels st = [] \/ s_shouldStop (recorded st) = true ->
    Transition st (finish (recorded st))
| T_level level rest sent items' a :
    s_status st = Suspended (All None) ->
    s_executing st = [] -> s_items st = [] ->
    s_levels st = level :: rest ->
    s_shouldStop (recorded st) = false ->
    dispatched level [] sent items' a ->
    Transition st
      (mkState rest items' (map (fun n => mkTask n false None) sent) []
               (s_results (recorded st)) (s_failedNodes (recorded st))
               (s_shouldStop (recorded st))
               (s_trace st ++ flat_map (startCalls options) sent)
               (Suspended a)).

(** The levels fall into those that are complete, the one under way (if a
    level has been started) and those not started; [sent] are the items of
    the level under way that were dispatched and [stored] the results of
    the complete levels. *)
Definition underWay (st : @State TData TOutput) : Prop :=
  exists (done current : list (list (DAGNode TData)))
         (sent : list (DAGNode TData)) (stored : list NodeResult),
    levels dag = done ++ current ++ s_levels st /\
    length current <= 1 /\
    concat current = sent ++ s_items st /\
    started (s_trace st) = concat done ++ sent /\
    delivered options (s_trace st) = stored ++ s_levelResults st /\
    Permutation (map (arrowOutcome processor options) (concat done))
                (map Fulfilled stored) /\
    Permutation (map (arrowOutcome processor options) sent)
                (map Fulfilled (s_levelResults st)
                 ++ map (fun t => arrowOutcome processor options (t_node t))
                        (s_executing st)) /\
    Forall (fun t => In (t_node t) sent) (s_executing st).

(** The stop flag is set by a failure under fail-fast only, and a call that
    returns has run every level unless the flag is set. *)
Definition stopsOnFailure (st : @State TData TOutput) : Prop :=
  (s_shouldStop st = true ->
   failFastOf options = true /\ s_failedNodes st <> []) /\
  (forall r, s_status st = Done (Return r) ->
             s_levels st = [] \/ s_shouldStop st = true).

(** The rejection reason a state carries. *)
Definition blames (st : @State TData TOutput) (reason : string) : Prop :=
  s_status st = Suspended (Race (Lost reason)) \/
  s_status st = Suspended (All (Some reason)) \/
  s_status st = Done (ThrowError reason).

(** Every rejection has its cause in the trace. *)
Definition rejectionsTraced (st : @State TData TOutput) : Prop :=
  (forall t reason,
      In t (s_executing st) -> t_rejected t = Some reason ->
      cause processor options (s_trace st) reason) /\
  (forall reason,
      blames st reason -> cause processor options (s_trace st) reason).

(** An [await] that has not settled waits for a promise that can settle. *)
Definition awaitsPending (st : @State TData TOutput) : Prop :=
  match s_status st with
  | Suspended (Race Undecided) =>
      s_executing st <> [] /\
      Forall (fun t => t_rejected t = None) (s_executing st)
  | Suspended (All None) =>
      Forall (fun t => t_rejected t = None) (s_executing st)
  | _ => True
  end.

(** Results arrive in the order of the calls. *)
Definition inCallOrder (st : @State TData TOutput) : Prop :=
  map processor (invoked (s_trace st))
  = map Fulfilled (completed (s_trace st))
    ++ map (fun t => processor (t_node t))
           (filter (working processor options) (s_executing st)).

(** With one task at a time the work function has been called on every
    started node, except that the last one may be a node on which
    [onNodeStart] threw; its task is then alone in flight and the loop does
    not go on. *)
Definition callsFollowStarts (st : @State TData TOutput) : Prop :=
  started (s_trace st) = invoked (s_trace st) \/
  exists n t,
    started (s_trace st) = invoked (s_trace st) ++ [n] /\
    s_executing st = [t] /\ t_node t = n /\
    startReturns options n = false /\
    s_status st <> Suspended (Race Won).

(** The tasks in flight whose promise has not settled. *)
Definition pending (executing : list (@Task TData)) : nat :=
  length (filter (fun t => match t_rejected t with
                           | None => true
                           | Some _ => false
                           end) executing).

Definition rank (s : @Status TData TOutput) : nat :=
  match s with
  | Done _ => 0
  | Suspended (All _) => 1
  | Suspended (Race _) => 2
  end.

(** A bound on the number of moves a state has left. *)
Definition remaining (st : @State TData TOutput) : nat :=
  3 * (length (s_items st) + length (concat (s_levels st)))
  + 2 * length (s_levels st)
  + 2 * pending (s_executing st)
  + rank (s_status st).

End Schedule.

End ScheduleSpec.

(** ** Sample item maps *)

Module Examples.

Definition item (i : string) (deps : list string) : DAGNode unit :=
  Builder.createNode i deps None.

(** [buildNodeMap] of [a], [b -> a], [c -> a], [d -> b, c], where [d] also
    names an identifier outside the map. *)
Definition diamond : JsMap.t (DAGNode unit) :=
  Builder.buildNodeMap
    [item "a" []; item "b" ["a"]; item "c" ["a"];
     item "d" ["b"; "c"; "external"]]%string.

(** A two-item cycle [a <-> b] and an item [c] that depends on [a]. *)
Definition cycleWithTail : JsMap.t (DAGNode unit) :=
  Builder.buildNodeMap
    [item "a" ["b"]; item "b" ["a"]; item "c" ["a"]]%string.

(** An acyclic map in which [b] lists its dependency [a] twice. *)
Definition repeatedDependency : JsMap.t (DAGNode unit) :=
  Builder.buildNodeMap [item "a" []; item "b" ["a"; "a"]]%string.

(** A single item that depends on itself. *)
Definition selfLoop : JsMap.t (DAGNode unit) :=
  Builder.buildNodeMap [item "a" ["a"]]%string.

(** [a], [b -> a], [c -> b]. *)
Definition chain : JsMap.t (DAGNode unit) :=
  Builder.buildNodeMap [item "a" []; item "b" ["a"]; item "c" ["b"]]%string.

(** Two independent items. *)
Definition pair : JsMap.t (DAGNode unit) :=
  Builder.buildNodeMap [item "a" []; item "b" []]%string.

(** [new Map([["x", {id: "a", dependencies: []}],
              ["y", {id: "a", dependencies: ["x"]}]])]: two keys whose items
    carry the same identifier. *)
Definition twins : JsMap.t (DAGNode unit) :=
  [("x", item "a" []); ("y", item "a" ["x"])]%string.

(** The item [c] of [chain] and the two items of [twins] as
    [buildLeveledDAG] returns them, with their levels. *)
Definition chainC : DAGNode unit := set_level (item "c" ["b"%string]) 2.

Definition twinFirst : DAGNode unit := set_level (item "a" []) 0.

Definition twinSecond : DAGNode unit :=
  set_level (item "a" ["x"%string]) 1.

(** The graph [buildLeveledDAG] returns, or an empty graph when it throws. *)
Definition leveledDAG (m : JsMap.t (DAGNode unit)) : DependencyDAG unit :=
  match Traversal.buildLeveledDAG m with
  | Some (Return dag) => dag
  | _ => mkDAG m [] [] []
  end.

Definition successResult (n : DAGNode unit)
  : @Executor.NodeResult unit unit :=
  Executor.mkResult n true None 10 ["Success"%string] None.

Definition failureResult (n : DAGNode unit) (message : string)
  : @Executor.NodeResult unit unit :=
  Executor.mkResult n false (Some message) 10
                    [String.append "Failed: " message] None.

(** A work function that fails on the item [name] and succeeds elsewhere. *)
Definition failOn (name : string) (n : DAGNode unit)
  : @Executor.Outcome unit unit :=
  if String.eqb (id n) name
  then Executor.Fulfilled (failureResult n (String.append name " failed"))
  else Executor.Fulfilled (successResult n).

(** A work function that, given the item [name], resolves with a failed
    result whose [node] is [other]; it succeeds elsewhere. *)
Definition answerFor (name : string) (other : DAGNode unit)
  (n : DAGNode unit) : @Executor.Outcome unit unit :=
  if String.eqb (id n) name
  then Executor.Fulfilled (failureResult other (String.append name " failed"))
  else Executor.Fulfilled (successResult n).

(** A work function whose promise always rejects. *)
Definition rejecting (n : DAGNode unit) : @Executor.Outcome unit unit :=
  Executor.Rejected "work function rejected".

(** The options [{}]. *)
Definition defaults : @Executor.DAGExecutionOptions unit unit :=
  Executor.mkOptions None None None None.

(** [{ concurrency: limit }] for any number. *)
Definition withNumber (limit : Executor.JsNumber)
  : @Executor.DAGExecutionOptions unit unit :=
  Executor.mkOptions (Some limit) None None None.

(** [{ concurrency: limit }] for an integer. *)
Definition withLimit (limit : Z) : @Executor.DAGExecutionOptions unit unit :=
  withNumber (Executor.Finite (inject_Z limit)).

(** [failFast: false] with the default concurrency. *)
Definition continueOnError : @Executor.DAGExecutionOptions unit unit :=
  Executor.mkOptions None (Some false) None None.

(** [{ concurrency: 1, onNodeStart }] with a callback that throws on the
    item [name]. *)
Definition startThrowsOn (name : string)
  : @Executor.DAGExecutionOptions unit unit :=
  Executor.mkOptions
    (Some (Executor.Finite 1)) None
    (Some (fun n : DAGNode unit =>
             if String.eqb (id n) name
             then ThrowError "onNodeStart threw"%string
             else Return tt))
    None.

(** [{ onNodeComplete }] with a callback that throws on every result. *)
Definition completeThrows : @Executor.DAGExecutionOptions unit unit :=
  Executor.mkOptions
    None None None
    (Some (fun _ : @Executor.NodeResult unit unit =>
             @ThrowError unit "onNodeComplete threw"%string)).

(** Values to throw: a string, or the object [Object.create(null)]. *)
Inductive SampleValue : Type :=
| Text (s : string)
| NullPrototypeObject.

(** [String(v)]: the string itself; for the object without prototype the
    conversion throws a [TypeError]. *)
Definition sampleString (v : SampleValue) : Completion string :=
  match v with
  | Text s => Return s
  | NullPrototypeObject =>
      ThrowError "Cannot convert object to primitive value"%string
  end.

(** A function for [createProcessor] that throws [thrown] on the item
    [name] and returns on every other item. *)
Definition throwOn (name : string) (thrown : SampleValue) (n : DAGNode unit)
  : @Executor.FnOutcome SampleValue :=
  if String.eqb (id n) name
  then Executor.Throws (Executor.OtherValue thrown)
  else Executor.Returns.

(** [createProcessor(throwOn(name, thrown))], with clock readings 0 and
    5. *)
Definition wrappedThrowOn (name : string) (thrown : SampleValue)
  (n : DAGNode unit) : @Executor.Outcome unit unit :=
  Executor.createProcessor sampleString (throwOn name thrown) 0 5 n.

End Examples.

(** * Properties *)

(** ** Facts about the collections *)

Module JsMapFacts.
Import JsMap.

Section Facts.
Context {V : Type}.
Implicit Types (m : t V) (k : string) (v : V).

Lemma get_In_keys m k : get m k <> None <-> In k (keys m).
Proof.
  induction m as [|[k' v'] m IH]; simpl.
  - split; [congruence | tauto].
  - destruct (String.eqb_spec k' k) as [->|Hne].
    + split; [auto | intros _; discriminate].
    + rewrite IH. split; [auto | intros [?|?]; [congruence | auto]].
Qed.

Lemma get_None_keys m k : get m k = None <-> ~ In k (keys m).
Proof.
  rewrite <- get_In_keys. destruct (get m k); intuition congruence.
Qed.

Lemma has_In_keys m k : has m k = true <-> In k (keys m).
Proof.
  rewrite <- get_In_keys. unfold has.
  destruct (get m k); split; congruence.
Qed.

Lemma get_Some_In m k v : get m k = Some v -> In (k, v) m.
Proof.
  induction m as [|[k' v'] m IH]; simpl; [congruence|].
  destruct (String.eqb_spec k' k) as [->|Hne].
  - intros [= ->]. now left.
  - auto.
Qed.

Lemma In_get_Some m k v : NoDup (keys m) -> In (k, v) m -> get m k = Some v.
Proof.
  induction m as [|[k' v'] m IH]; simpl; [tauto|].
  intros Hnd [Heq|Hin].
  - injection Heq as -> ->. now rewrite String.eqb_refl.
  - inversion Hnd as [|? ? Hk Hnd']; subst.
    destruct (String.eqb_spec k' k) as [->|Hne]; [|auto].
    exfalso. apply Hk. change (In (fst (k, v)) (map fst m)).
    now apply in_map.
Qed.

Lemma get_set m k v k' :
  get (set m k v) k' = if String.eqb k k' then Some v else get m k'.
Proof.
  induction m as [|[k0 v0] m IH]; simpl.
  - reflexivity.
  - destruct (String.eqb_spec k0 k) as [->|Hne]; simpl.
    + destruct (String.eqb_spec k k'); reflexivity.
    + rewrite IH.
      destruct (String.eqb_spec k0 k') as [->|Hne'];
        destruct (String.eqb_spec k k'); congruence.
Qed.

Lemma get_set_same m k v : get (set m k v) k = Some v.
Proof. now rewrite get_set, String.eqb_refl. Qed.

Lemma get_set_other m k v k' : k <> k' -> get (set m k v) k' = get m k'.
Proof.
  intros Hne. rewrite get_set.
  now destruct (String.eqb_spec k k').
Qed.

Lemma keys_set_present m k v :
  In k (keys m) -> keys (set m k v) = keys m.
Proof.
  induction m as [|[k0 v0] m IH]; simpl; [tauto|].
  intros Hin. destruct (String.eqb_spec k0 k) as [->|Hne]; simpl.
  - reflexivity.
  - f_equal. apply IH. destruct Hin; [congruence | assumption].
Qed.

Lemma set_absent m k v : ~ In k (keys m) -> set m k v = m ++ [(k, v)].
Proof.
  induction m as [|[k0 v0] m IH]; simpl; [reflexivity|].
  intros Hin. destruct (String.eqb_spec k0 k) as [->|Hne].
  - tauto.
  - f_equal. apply IH. tauto.
Qed.

Lemma has_set_present m k v k' :
  In k (keys m) -> has (set m k v) k' = has m k'.
Proof.
  intros Hin. apply eq_true_iff_eq.
  now rewrite !has_In_keys, keys_set_present.
Qed.

Lemma get_app m m' k :
  get (m ++ m') k = match get m k with Some v => Some v | None => get m' k end.
Proof.
  induction m as [|[k0 v0] m IH]; simpl; [reflexivity|].
  now destruct (String.eqb k0 k).
Qed.
End Facts.

End JsMapFacts.

Module JsSetFacts.
Import JsSet.

Lemma has_In s x : has s x = true <-> In x s.
Proof.
  unfold has. rewrite existsb_exists. split.
  - intros (y & Hin & Heq). apply String.eqb_eq in Heq. now subst.
  - intros Hin. exists x. now rewrite String.eqb_refl.
Qed.

Lemma has_false s x : has s x = false <-> ~ In x s.
Proof.
  rewrite <- has_In. destruct (has s x); split; congruence.
Qed.

Lemma In_add s x y : In y (add s x) <-> In y s \/ y = x.
Proof.
  unfold add. destruct (has s x) eqn:E.
  - apply has_In in E. split; [auto | intros [?| ->]; auto].
  - rewrite in_app_iff. simpl. split; intros [?|?]; auto.
    + destruct H; [now right; subst | tauto].
Qed.

Lemma NoDup_add s x : NoDup s -> NoDup (add s x).
Proof.
  intros Hnd. unfold add. destruct (has s x) eqn:E; [assumption|].
  apply has_false in E.
  apply NoDup_app; [assumption | repeat constructor; simpl; tauto |].
  intros a Ha [<-|[]]. tauto.
Qed.

End JsSetFacts.

(** ** Level assignment *)

Module TraversalFacts.
Import JsMap JsMapFacts JsSetFacts Traversal Graph KahnSpec.

Section Tables.
Context {TData : Type}.
Variable nodes : JsMap.t (DAGNode TData).
Hypothesis nodes_nodup : NoDup (keys nodes).

Local Abbreviation degreeEntry :=
  (fun e : string * DAGNode TData =>
     (fst e, Z.of_nat (length (depsInDag nodes (snd e))))).
Local Abbreviation emptyEntry :=
  (fun e : string * DAGNode TData => (fst e, @nil string)).

Lemma initTables_fold (l : list (string * DAGNode TData)) :
  forall (a1 : JsMap.t Z) (a2 : JsMap.t JsSet.t),
    NoDup (keys a1 ++ keys l) -> keys a2 = keys a1 ->
    fold_left
      (fun tabs entry =>
         let '(inDegree, dependents) := tabs in
         let '(name, node) := entry in
         (set inDegree name (Z.of_nat (length (depsInDag nodes node))),
          set dependents name []))
      l (a1, a2)
    = (a1 ++ map degreeEntry l, a2 ++ map emptyEntry l).
Proof.
  induction l as [|[name node] l IH]; intros a1 a2 Hnd Hk; simpl.
  - now rewrite !app_nil_r.
  - assert (Hfresh : ~ In name (keys a1)).
    { intros Hin. apply NoDup_remove_2 in Hnd. apply Hnd.
      apply in_or_app. now left. }
    rewrite (set_absent a1), (set_absent a2) by (try rewrite Hk; exact Hfresh).
    rewrite IH.
    + now rewrite <- !app_assoc.
    + unfold keys in *. rewrite map_app, <- app_assoc. exact Hnd.
    + unfold keys in *. rewrite !map_app. simpl. now f_equal.
Qed.

Lemma initTables_spec :
  initTables nodes = (map degreeEntry nodes, map emptyEntry nodes).
Proof.
  unfold initTables. now rewrite initTables_fold.
Qed.

Lemma keys_degree : keys (fst (initTables nodes)) = keys nodes.
Proof.
  rewrite initTables_spec. unfold keys. simpl. rewrite map_map.
  now apply map_ext.
Qed.

Lemma keys_empty : keys (snd (initTables nodes)) = keys nodes.
Proof.
  rewrite initTables_spec. unfold keys. simpl. rewrite map_map.
  now apply map_ext.
Qed.

Lemma get_map_entry {A B : Type} (f : A -> B) (m : JsMap.t A) k :
  get (map (fun e => (fst e, f (snd e))) m) k = option_map f (get m k).
Proof.
  induction m as [|[k0 v0] m IH]; simpl; [reflexivity|].
  now destruct (String.eqb k0 k).
Qed.

Lemma get_degree d :
  get (fst (initTables nodes)) d
  = option_map (fun node => Z.of_nat (length (depsInDag nodes node)))
               (get nodes d).
Proof.
  rewrite initTables_spec. simpl.
  apply (get_map_entry
           (fun node => Z.of_nat (length (depsInDag nodes node)))).
Qed.

Lemma get_empty d :
  get (snd (initTables nodes)) d = option_map (fun _ => []) (get nodes d).
Proof.
  rewrite initTables_spec. simpl.
  apply (get_map_entry (fun _ : DAGNode TData => @nil string)).
Qed.

End Tables.

Section Dependents.
Context {TData : Type}.

Lemma add_idem s x : JsSet.add (JsSet.add s x) x = JsSet.add s x.
Proof.
  unfold JsSet.add at 1.
  replace (JsSet.has (JsSet.add s x) x) with true; [reflexivity|].
  symmetry. apply has_In, In_add. now right.
Qed.

Lemma addDependent_keys name (dm : JsMap.t JsSet.t) dep :
  keys (addDependent name dm dep) = keys dm.
Proof.
  unfold addDependent. destruct (get dm dep) eqn:E; [|reflexivity].
  apply keys_set_present, get_In_keys. congruence.
Qed.

Lemma addDependent_fold name ds :
  forall dm : JsMap.t JsSet.t,
    keys (fold_left (addDependent name) ds dm) = keys dm /\
    forall x,
      get (fold_left (addDependent name) ds dm) x
      = match get dm x with
        | Some s => Some (if JsSet.has ds x then JsSet.add s name else s)
        | None => None
        end.
Proof.
  induction ds as [|dep ds IH]; intros dm; simpl.
  - split; [reflexivity|]. intros x. now destruct (get dm x).
  - destruct (IH (addDependent name dm dep)) as [Hk Hg]. split.
    + now rewrite Hk, addDependent_keys.
    + intros x. rewrite Hg. unfold addDependent.
      destruct (get dm dep) as [s0|] eqn:Edep.
      * rewrite get_set.
        destruct (String.eqb_spec dep x) as [->|Hne].
        -- rewrite Edep, String.eqb_refl. simpl.
           destruct (JsSet.has ds x); [now rewrite add_idem | reflexivity].
        -- replace (String.eqb x dep) with false
             by (symmetry; apply String.eqb_neq; congruence).
           reflexivity.
      * destruct (String.eqb_spec x dep) as [->|Hne].
        -- now rewrite Edep.
        -- reflexivity.
Qed.

Lemma addDependents_fold (l : list (string * DAGNode TData)) :
  forall dm : JsMap.t JsSet.t,
    keys (addDependents l dm) = keys dm /\
    forall x,
      match get dm x with
      | None => get (addDependents l dm) x = None
      | Some s =>
          exists s',
            get (addDependents l dm) x = Some s' /\
            (NoDup s -> NoDup s') /\
            forall d, In d s' <->
                      In d s \/
                      exists node, In (d, node) l /\ In x (dependencies node)
      end.
Proof.
  unfold addDependents.
  induction l as [|[name node] l IH]; intros dm; simpl.
  - split; [reflexivity|]. intros x. destruct (get dm x) as [s|]; [|reflexivity].
    exists s. split; [reflexivity|]. split; [auto|].
    intros d. split; [auto | intros [?|(? & [] & _)]; assumption].
  - destruct (addDependent_fold name (dependencies node) dm) as [Hk1 Hg1].
    destruct (IH (fold_left (addDependent name) (dependencies node) dm))
      as [Hk Hg].
    split; [now rewrite Hk, Hk1|].
    intros x. specialize (Hg x). rewrite Hg1 in Hg.
    destruct (get dm x) as [s|]; [|exact Hg].
    destruct Hg as (s' & Hs' & Hnd & Hin).
    exists s'. split; [exact Hs'|]. split.
    + intros Hs. apply Hnd.
      destruct (JsSet.has (dependencies node) x); [|exact Hs].
      now apply NoDup_add.
    + intros d. rewrite Hin. clear Hin Hnd Hs'.
      destruct (JsSet.has (dependencies node) x) eqn:Ex.
      * apply has_In in Ex. rewrite In_add. split.
        -- intros [[?| ->]|(n & ? & ?)]; eauto.
        -- intros [?|(n & [Heq|?] & ?)]; eauto.
           injection Heq as <- <-. auto.
      * apply has_false in Ex. split.
        -- intros [?|(n & ? & ?)]; eauto.
        -- intros [?|(n & [Heq|?] & ?)]; eauto.
           injection Heq as <- <-. tauto.
Qed.

Variable nodes : JsMap.t (DAGNode TData).
Hypothesis nodes_nodup : NoDup (keys nodes).

Lemma keys_dependentsTable : keys (dependentsTable nodes) = keys nodes.
Proof.
  unfold dependentsTable.
  destruct (addDependents_fold nodes (snd (initTables nodes))) as [-> _].
  now apply keys_empty.
Qed.

Lemma depsOf_In d x :
  In x (depsOf nodes d) <->
  exists node, get nodes d = Some node /\ In x (dependencies node) /\
               In x (keys nodes).
Proof.
  unfold depsOf, depsInDag. destruct (get nodes d) as [node|].
  - rewrite filter_In, has_In_keys. split.
    + intros []. eauto.
    + intros (n & [= <-] & ? & ?). auto.
  - split; [intros [] | intros (? & ? & _); discriminate].
Qed.

Lemma depsOf_key d x : In x (depsOf nodes d) -> In x (keys nodes).
Proof.
  rewrite depsOf_In. intros (_ & _ & _ & H). exact H.
Qed.

Lemma dependsOn_depsOf d x : dependsOn nodes d x <-> In x (depsOf nodes d).
Proof.
  rewrite depsOf_In. unfold dependsOn.
  split; intros (node & ? & ? & ?); exists node;
    (split; [assumption|]); (split; [assumption|]); now apply has_In_keys.
Qed.

Lemma dependentsOf_NoDup x : NoDup (dependentsOf nodes x).
Proof.
  unfold dependentsOf, dependentsTable.
  destruct (addDependents_fold nodes (snd (initTables nodes))) as [_ H].
  specialize (H x). rewrite get_empty in H by assumption.
  destruct (get nodes x); simpl in H.
  - destruct H as (s' & -> & Hnd & _). apply Hnd. constructor.
  - rewrite H. constructor.
Qed.

Lemma dependentsOf_In x d :
  In d (dependentsOf nodes x) <-> In x (depsOf nodes d).
Proof.
  rewrite depsOf_In.
  unfold dependentsOf, dependentsTable.
  destruct (addDependents_fold nodes (snd (initTables nodes))) as [_ H].
  specialize (H x). rewrite get_empty in H by assumption.
  destruct (get nodes x) eqn:Ex; simpl in H.
  - destruct H as (s' & -> & _ & Hin). rewrite Hin. split.
    + intros [[]|(node & Hd & Hx)]. exists node.
      split; [now apply In_get_Some|]. split; [assumption|].
      apply get_In_keys. congruence.
    + intros (node & Hd & Hx & _). right. exists node.
      split; [now apply get_Some_In | assumption].
  - rewrite H. split; [intros []|].
    intros (_ & _ & _ & Hk). apply get_In_keys in Hk. congruence.
Qed.

Lemma dependentsOf_keys x d : In d (dependentsOf nodes x) -> In d (keys nodes).
Proof.
  rewrite dependentsOf_In, depsOf_In. intros (node & Hd & _).
  apply get_In_keys. congruence.
Qed.

End Dependents.

Section Relax.
Context {TData : Type}.
Variable nodes : JsMap.t (DAGNode TData).
Hypothesis nodes_nodup : NoDup (keys nodes).

Lemma relax_None ds : fold_left relax ds None = None.
Proof. induction ds; simpl; auto. Qed.

Lemma relax_fold ds :
  forall (m : JsMap.t Z) (q : list string),
    NoDup ds -> (forall d, In d ds -> In d (keys m)) ->
    exists m' q',
      fold_left relax ds (Some (m, q)) = Some (m', q') /\
      keys m' = keys m /\
      (forall d, get m' d
                 = if JsSet.has ds d
                   then option_map (fun v => (v - 1)%Z) (get m d)
                   else get m d) /\
      (forall d, In d q' <-> In d q \/ (In d ds /\ get m d = Some 1%Z)) /\
      (settled m q -> settled m' q').
Proof.
  induction ds as [|d0 ds IH]; intros m q Hnd Hk; simpl.
  - exists m, q. split; [reflexivity|]. split; [reflexivity|].
    split; [reflexivity|]. split; [|auto]. intros d. tauto.
  - inversion Hnd as [|? ? Hd0 Hnd']; subst.
    destruct (get m d0) as [v0|] eqn:E0.
    2:{ exfalso. apply (proj2 (get_In_keys m d0)); [|exact E0].
        apply Hk. now left. }
    assert (Hk0 : In d0 (keys m)) by (apply Hk; now left).
    set (m1 := set m d0 (v0 - 1)%Z).
    set (q1 := if ((v0 - 1) =? 0)%Z then q ++ [d0] else q).
    assert (Hk1 : keys m1 = keys m) by now apply keys_set_present.
    destruct (IH m1 q1 Hnd') as (m' & q' & Hf & Hk' & Hg & Hq & Hs).
    { intros d Hd. rewrite Hk1. apply Hk. now right. }
    exists m', q'. split; [exact Hf|]. split; [congruence|].
    assert (Hg1 : forall d, d <> d0 -> get m1 d = get m d).
    { intros d Hne. unfold m1. apply get_set_other. congruence. }
    assert (Hg0 : get m1 d0 = Some (v0 - 1)%Z) by apply get_set_same.
    split; [|split].
    + intros d. rewrite Hg.
      destruct (String.eqb_spec d d0) as [->|Hne]; simpl.
      * replace (JsSet.has ds d0) with false
          by (symmetry; now apply has_false).
        now rewrite Hg0, E0.
      * rewrite Hg1 by assumption. reflexivity.
    + intros d. rewrite Hq. unfold q1.
      assert (Hin1 : In d ds -> get m1 d = get m d).
      { intros Hin. apply Hg1. intros ->. tauto. }
      destruct (Z.eqb_spec (v0 - 1) 0) as [Hz|Hz].
      * rewrite in_app_iff. simpl. split.
        -- intros [[?|[<-|[]]]|[Hin Hv]]; auto.
           ++ right. split; [auto|]. rewrite E0. f_equal. lia.
           ++ right. split; [auto|]. now rewrite <- Hin1.
        -- intros [?|[[<-|Hin] Hv]]; auto.
           right. split; [assumption|]. now rewrite Hin1.
      * split.
        -- intros [?|[Hin Hv]]; auto.
           right. split; [auto|]. now rewrite <- Hin1.
        -- intros [?|[[<-|Hin] Hv]]; auto.
           ++ exfalso. rewrite E0 in Hv. injection Hv as ->. lia.
           ++ right. split; [assumption|]. now rewrite Hin1.
    + intros [Hqnd Hqle]. apply Hs. unfold q1. split.
      * destruct (Z.eqb_spec (v0 - 1) 0) as [Hz|Hz]; [|assumption].
        apply NoDup_app; [assumption | repeat constructor; simpl; tauto |].
        intros a Ha [<-|[]]. specialize (Hqle _ _ Ha E0). lia.
      * intros d v Hin Hv.
        destruct (String.eqb_spec d d0) as [->|Hne].
        -- rewrite Hg0 in Hv. injection Hv as <-.
           destruct (Z.eqb_spec (v0 - 1) 0) as [Hz|Hz]; [lia|].
           specialize (Hqle _ _ Hin E0). lia.
        -- rewrite Hg1 in Hv by assumption.
           destruct (Z.eqb_spec (v0 - 1) 0) as [Hz|Hz].
           ++ apply in_app_or in Hin. destruct Hin as [Hin|[<-|[]]];
                [eauto | congruence].
           ++ eauto.
Qed.

Lemma hits_cons d x xs :
  hits nodes d (x :: xs)
  = (if JsSet.has (dependentsOf nodes x) d then 1 else 0) + hits nodes d xs.
Proof.
  unfold hits. simpl. now destruct (JsSet.has (dependentsOf nodes x) d).
Qed.

Lemma hits_app d xs ys :
  hits nodes d (xs ++ ys) = hits nodes d xs + hits nodes d ys.
Proof.
  unfold hits. now rewrite filter_app, length_app.
Qed.

Lemma relaxQueue_spec queue :
  forall (m : JsMap.t Z) (q : list string),
    keys m = keys nodes ->
    exists m' q',
      relaxQueue nodes queue (Some (m, q)) = Some (m', q') /\
      keys m' = keys nodes /\
      (forall d, get m' d
                 = option_map
                     (fun v => (v - Z.of_nat (hits nodes d queue))%Z)
                     (get m d)) /\
      (forall d, In d q' <->
                 In d q \/
                 exists v, get m d = Some v /\
                           (0 < v <= Z.of_nat (hits nodes d queue))%Z) /\
      (settled m q -> settled m' q').
Proof.
  unfold relaxQueue.
  induction queue as [|x queue IH]; intros m q Hk; simpl.
  - exists m, q. split; [reflexivity|]. split; [assumption|].
    split; [|split; [|auto]].
    + intros d. destruct (get m d); simpl; [|reflexivity].
      f_equal. unfold hits. simpl. lia.
    + intros d. split; [auto|]. intros [?|(v & _ & Hv)]; [assumption|].
      unfold hits in Hv. simpl in Hv. lia.
  - destruct (relax_fold (dependentsOf nodes x) m q)
      as (m1 & q1 & Hf1 & Hk1 & Hg1 & Hq1 & Hs1).
    { apply dependentsOf_NoDup; assumption. }
    { intros d Hd. rewrite Hk. eapply dependentsOf_keys; eassumption. }
    rewrite Hf1.
    destruct (IH m1 q1) as (m' & q' & Hf & Hk' & Hg & Hq & Hs);
      [congruence|].
    exists m', q'. split; [exact Hf|]. split; [assumption|].
    split; [|split; [|auto]].
    + intros d. rewrite Hg, Hg1, hits_cons.
      destruct (JsSet.has (dependentsOf nodes x) d);
        destruct (get m d); simpl; try reflexivity; f_equal; lia.
    + intros d. rewrite Hq, Hq1, Hg1, hits_cons.
      destruct (JsSet.has (dependentsOf nodes x) d) eqn:Ex.
      * apply has_In in Ex. split.
        -- intros [[?|[_ Hv]]|(v & Hv & Hr)]; auto.
           ++ right. exists 1%Z. split; [assumption | lia].
           ++ destruct (get m d) as [v0|]; [|discriminate].
              simpl in Hv. injection Hv as <-.
              right. exists v0. split; [reflexivity | lia].
        -- intros [?|(v & Hv & Hr)]; auto.
           destruct (Z.eq_dec v 1) as [->|Hne]; [auto|].
           right. exists (v - 1)%Z. rewrite Hv. split; [reflexivity | lia].
      * apply has_false in Ex. split.
        -- intros [[?|[? _]]|(v & Hv & Hr)]; auto; [tauto|].
           right. exists v. split; [assumption | lia].
        -- intros [?|(v & Hv & Hr)]; auto.
           right. exists v. split; [assumption | lia].
Qed.

(** The part of one pass that does not touch the in-degrees. *)
Lemma pass_repr (L : nat) queue :
  forall p : PassState,
    keys (p_nodes p) = keys nodes ->
    keys (p_inDegree p) = keys nodes ->
    (forall k node, get nodes k = Some node ->
                    get (p_nodes p) k = Some (leveled (p_nodeLevel p) k node)) ->
    NoDup (keys (p_nodeLevel p) ++ queue) ->
    incl queue (keys nodes) ->
    exists p' ns,
      fold_left (visit (dependentsTable nodes) L) queue (Some p) = Some p' /\
      keys (p_nodes p') = keys nodes /\
      (forall k node, get nodes k = Some node ->
                      get (p_nodes p') k
                      = Some (leveled (p_nodeLevel p') k node)) /\
      p_nodeLevel p' = p_nodeLevel p ++ map (fun x => (x, L)) queue /\
      p_levelNodes p' = p_levelNodes p ++ ns /\
      Forall2 (fun x n => exists node,
                   get nodes x = Some node /\ n = set_level node L)
              queue ns /\
      p_processedCount p' = p_processedCount p + length queue /\
      relaxQueue nodes queue (Some (p_inDegree p, p_nextQueue p))
      = Some (p_inDegree p', p_nextQueue p').
Proof.
  induction queue as [|x queue IH]; intros p Hkn Hkd Hn Hnd Hincl;
    cbn [fold_left].
  - exists p, []. simpl. rewrite !app_nil_r. repeat split; auto.
  - assert (Hx : In x (keys nodes)) by (apply Hincl; now left).
    destruct (get nodes x) as [n0|] eqn:En0;
      [|now apply get_In_keys in Hx].
    assert (Hfresh : ~ In x (keys (p_nodeLevel p))).
    { intros Hin. apply NoDup_remove_2 in Hnd. apply Hnd.
      apply in_or_app. now left. }
    pose proof (Hn _ _ En0) as Egx. unfold leveled in Egx.
    rewrite (proj2 (get_None_keys _ _) Hfresh) in Egx.
    destruct (relax_fold (dependentsOf nodes x) (p_inDegree p) (p_nextQueue p))
      as (m1 & q1 & Hf1 & Hk1 & _).
    { now apply dependentsOf_NoDup. }
    { intros d Hd. rewrite Hkd. eapply dependentsOf_keys; eassumption. }
    assert (Ev : visit (dependentsTable nodes) L (Some p) x
                 = Some (mkPass (set (p_nodes p) x (set_level n0 L)) m1
                                (set (p_nodeLevel p) x L)
                                (S (p_processedCount p))
                                (p_levelNodes p ++ [set_level n0 L]) q1)).
    { unfold visit. rewrite Egx. cbv zeta.
      match goal with
      | |- context [fold_left relax ?ds _] =>
          change ds with (dependentsOf nodes x)
      end.
      now rewrite Hf1. }
    rewrite Ev. clear Ev.
    set (p1 := mkPass (set (p_nodes p) x (set_level n0 L)) m1
                      (set (p_nodeLevel p) x L) (S (p_processedCount p))
                      (p_levelNodes p ++ [set_level n0 L]) q1).
    assert (Enl : p_nodeLevel p1 = p_nodeLevel p ++ [(x, L)])
      by (now apply set_absent).
    destruct (IH p1) as (p' & ns & Hf & Hkn' & Hn' & Hnl & Hln & Hfa & Hc & Hr).
    + simpl. rewrite keys_set_present; [assumption | now rewrite Hkn].
    + simpl. congruence.
    + intros k node Hk. simpl p_nodes. rewrite get_set.
      unfold leveled. simpl p_nodeLevel. rewrite get_set.
      destruct (String.eqb_spec x k) as [->|Hne].
      * congruence.
      * apply Hn. assumption.
    + rewrite Enl. unfold keys in *. rewrite map_app, <- app_assoc. exact Hnd.
    + intros a Ha. apply Hincl. now right.
    + exists p', (set_level n0 L :: ns).
      split; [exact Hf|]. split; [assumption|]. split; [assumption|].
      split; [rewrite Hnl, Enl, <- app_assoc; reflexivity|].
      split; [rewrite Hln; simpl; rewrite <- app_assoc; reflexivity|].
      split; [constructor; eauto|].
      split; [rewrite Hc; simpl; lia|].
      unfold relaxQueue in *. simpl. rewrite Hf1. exact Hr.
Qed.

(** *** Counting the dependencies that already have a level *)

Lemma hits_filter_In d xs x :
  In x (filter (fun x => JsSet.has (dependentsOf nodes x) d) xs) <->
  In x xs /\ In x (depsOf nodes d).
Proof.
  rewrite filter_In, has_In, dependentsOf_In by assumption. reflexivity.
Qed.

Lemma hits_le d xs : NoDup xs -> hits nodes d xs <= length (depsOf nodes d).
Proof.
  intros Hnd. unfold hits. apply NoDup_incl_length.
  - now apply NoDup_filter.
  - intros x Hx. now apply hits_filter_In in Hx.
Qed.

Lemma hits_full d xs :
  NoDup xs -> hits nodes d xs = length (depsOf nodes d) ->
  forall x, In x (depsOf nodes d) -> In x xs.
Proof.
  intros Hnd Hlen x Hx.
  assert (Hin : In x (filter (fun x => JsSet.has (dependentsOf nodes x) d) xs)).
  { revert x Hx. apply NoDup_length_incl.
    - now apply NoDup_filter.
    - unfold hits in Hlen. lia.
    - intros y Hy. now apply hits_filter_In in Hy. }
  now apply hits_filter_In in Hin.
Qed.

Lemma hits_pos d xs :
  0 < hits nodes d xs -> exists x, In x xs /\ In x (depsOf nodes d).
Proof.
  unfold hits. intros Hpos.
  destruct (filter (fun x => JsSet.has (dependentsOf nodes x) d) xs)
    as [|x l] eqn:E; [simpl in Hpos; lia|].
  exists x. apply hits_filter_In. rewrite E. now left.
Qed.

Lemma hits_all d xs :
  NoDup (depsOf nodes d) ->
  (forall x, In x (depsOf nodes d) -> In x xs) ->
  length (depsOf nodes d) <= hits nodes d xs.
Proof.
  intros Hnd Hall. unfold hits. apply NoDup_incl_length; [assumption|].
  intros x Hx. apply hits_filter_In. auto.
Qed.

Lemma NoDup_app_disjoint {A} (l l' : list A) a :
  NoDup (l ++ l') -> In a l -> In a l' -> False.
Proof.
  induction l as [|b l IH]; simpl; [tauto|].
  intros Hnd [->|Hin] Hin'.
  - inversion Hnd as [|? ? Hb _]; subst. apply Hb, in_or_app. now right.
  - inversion Hnd; subst. auto.
Qed.

Lemma get_const_map (L : nat) xs k l :
  get (map (fun x => (x, L)) xs) k = Some l <-> In k xs /\ l = L.
Proof.
  induction xs as [|x xs IH]; simpl.
  - split; [discriminate | tauto].
  - destruct (String.eqb_spec x k) as [->|Hne].
    + split; [intros [= <-]; auto | intros [_ ->]; reflexivity].
    + rewrite IH. split; [tauto | intros [[?|?] ?]; [congruence | tauto]].
Qed.

Lemma keys_const_map (L : nat) xs : keys (map (fun x => (x, L)) xs) = xs.
Proof.
  unfold keys. rewrite map_map. simpl. apply map_id.
Qed.

Lemma get_app_l {V} (m m' : JsMap.t V) k v :
  get m k = Some v -> get (m ++ m') k = Some v.
Proof. intros E. now rewrite get_app, E. Qed.

Lemma Forall2_const_map (L : nat) xs (ns : list (DAGNode TData)) :
  Forall2 (fun x n => exists node,
               get nodes x = Some node /\ n = set_level node L) xs ns ->
  Forall2 (fun e n => exists node,
               get nodes (fst e) = Some node /\ n = set_level node (snd e))
          (map (fun x => (x, L)) xs) ns.
Proof.
  induction 1; simpl; constructor; auto.
Qed.

(** *** One iteration of the [while] loop keeps the invariant *)

Lemma processLevel_inv st queue :
  Inv nodes st queue ->
  exists st' queue',
    processLevel (dependentsTable nodes) st queue = Some (st', queue') /\
    Inv nodes st' queue' /\
    l_nodeLevel st'
    = l_nodeLevel st ++ map (fun x => (x, length (l_levels st))) queue.
Proof.
  intros I.
  set (L := length (l_levels st)).
  set (P := keys (l_nodeLevel st)).
  destruct (pass_repr L queue
              (mkPass (l_nodes st) (l_inDegree st) (l_nodeLevel st)
                      (l_processedCount st) [] []))
    as (p' & ns & Hf & Hkn & Hn & Hnl & Hln & Hfa & Hc & Hr); simpl.
  { apply I. } { apply I. } { apply I. } { apply I. }
  { intros a Ha. apply (inv_incl _ _ _ I). apply in_or_app. now right. }
  destruct (relaxQueue_spec queue (l_inDegree st) [])
    as (m' & q' & Hrq & Hkm & Hg & Hq & Hs); [apply I|].
  simpl in Hr, Hln, Hnl, Hc. rewrite Hrq in Hr. injection Hr as Hm' Hq'.
  assert (HP' : keys (p_nodeLevel p') = P ++ queue).
  { rewrite Hnl. unfold keys. rewrite map_app.
    f_equal. apply keys_const_map. }
  assert (Hold : forall d, In d (keys nodes) ->
                   get (l_inDegree st) d
                   = Some (Z.of_nat (length (depsOf nodes d))
                           - Z.of_nat (hits nodes d P))%Z)
    by apply I.
  assert (Hdeg : forall d, In d (keys nodes) ->
                   get m' d
                   = Some (Z.of_nat (length (depsOf nodes d))
                           - Z.of_nat (hits nodes d (P ++ queue)))%Z).
  { intros d Hd. rewrite Hg, Hold, hits_app by assumption. simpl.
    f_equal. lia. }
  assert (Hle : forall d, hits nodes d (P ++ queue)
                          <= length (depsOf nodes d)).
  { intros d. apply hits_le. apply I. }
  assert (Hq0 : forall d, In d q' -> In d (keys nodes) /\
                  exists v, get (l_inDegree st) d = Some v /\
                            (0 < v <= Z.of_nat (hits nodes d queue))%Z).
  { intros d Hd. apply Hq in Hd. destruct Hd as [[]|(v & Hv & Hr)].
    split; [|eauto]. rewrite <- (inv_keys_degree _ _ _ I).
    apply get_In_keys. congruence. }
  assert (Hnew : forall k l, get (p_nodeLevel p') k = Some l ->
                   get (l_nodeLevel st) k = Some l \/
                   (get (l_nodeLevel st) k = None /\ In k queue /\ l = L)).
  { intros k l. rewrite Hnl, get_app.
    destruct (get (l_nodeLevel st) k); [auto|].
    rewrite get_const_map. tauto. }
  assert (Hkeep : forall k l, get (l_nodeLevel st) k = Some l ->
                    get (p_nodeLevel p') k = Some l).
  { intros k l E. rewrite Hnl. now apply get_app_l. }
  assert (Hqueue : forall k, In k queue -> get (p_nodeLevel p') k = Some L).
  { intros k Hk. rewrite Hnl, get_app.
    destruct (get (l_nodeLevel st) k) eqn:E.
    - exfalso. apply (NoDup_app_disjoint P queue k); [apply I| |assumption].
      apply get_In_keys. congruence.
    - apply get_const_map. auto. }
  unfold processLevel. fold L. rewrite Hf.
  eexists. exists q'. split; [rewrite Hq'; reflexivity|].
  split; [|exact Hnl].
  constructor; simpl.
  - assumption.
  - congruence.
  - assumption.
  - (* no duplicates among processed names and the next queue *)
    rewrite HP'. apply NoDup_app; [apply I | apply Hs; split; [constructor|]|].
    + intros d v [].
    + intros d Hd Hd'. apply Hq0 in Hd'. destruct Hd' as (Hk & v & Hv & Hr).
      apply (inv_zero _ _ _ I d Hk) in Hd. rewrite Hd in Hv.
      injection Hv as <-. lia.
  - rewrite HP'. intros d Hd. apply in_app_or in Hd. destruct Hd as [Hd|Hd].
    + now apply (inv_incl _ _ _ I).
    + now apply Hq0 in Hd.
  - rewrite HP', <- Hm'. exact Hdeg.
  - (* the names with in-degree zero are the processed and queued ones *)
    rewrite HP', <- Hm'. intros d Hd. rewrite Hdeg by assumption.
    pose proof (Hle d) as Hled. pose proof (Hold d Hd) as Holdd.
    rewrite hits_app in *. split.
    + intros Hin. f_equal. apply in_app_or in Hin. destruct Hin as [Hin|Hin].
      * apply (inv_zero _ _ _ I d Hd) in Hin. rewrite Hin in Holdd.
        injection Holdd as Holdd. lia.
      * apply Hq0 in Hin. destruct Hin as (_ & v & Hv & Hr).
        rewrite Hv in Holdd. injection Holdd as ->. lia.
    + intros [= Hz].
      destruct (Nat.eq_dec (hits nodes d queue) 0) as [Hh|Hh].
      * apply in_or_app. left. apply (inv_zero _ _ _ I d Hd).
        rewrite Holdd. f_equal. lia.
      * apply in_or_app. right. apply Hq. right.
        eexists. split; [exact Holdd | lia].
  - rewrite Hc, (inv_count _ _ _ I), Hnl, length_app, length_map.
    reflexivity.
  - rewrite Hnl, Hln, concat_app. simpl. rewrite app_nil_r.
    apply Forall2_app; [apply I | now apply Forall2_const_map].
  - (* every node of level [i] carries the level [i] *)
    intros i n Hin. rewrite Hln in Hin.
    destruct (Nat.lt_ge_cases i L) as [Hlt|Hge].
    + rewrite app_nth1 in Hin by exact Hlt. now apply (inv_tag _ _ _ I).
    + rewrite app_nth2 in Hin by exact Hge. fold L in Hin.
      destruct (i - L) as [|j] eqn:Ej; simpl in Hin.
      * assert (i = L) by lia. subst i.
        clear -Hfa Hin.
        induction Hfa as [|x n' ? ? (node & _ & ->)]; [destruct Hin|].
        destruct Hin as [<-|Hin]; auto.
      * destruct j; destruct Hin.
  - intros k l Hk. rewrite length_app. simpl. fold L.
    destruct (Hnew _ _ Hk) as [E|(_ & _ & ->)]; [|lia].
    pose proof (inv_bound _ _ _ I _ _ E). fold L in H. lia.
  - (* in-graph dependencies lie in strictly lower levels *)
    intros d l x Hd Hx.
    destruct (Hnew _ _ Hd) as [E|(_ & Hdq & ->)].
    + destruct (inv_deps _ _ _ I _ _ _ E Hx) as (lx & Elx & Hlt).
      exists lx. auto.
    + assert (Hk : In d (keys nodes)).
      { apply (inv_incl _ _ _ I). apply in_or_app. now right. }
      assert (Hz : get (l_inDegree st) d = Some 0%Z).
      { apply (inv_zero _ _ _ I d Hk). apply in_or_app. now right. }
      rewrite (Hold d Hk) in Hz. injection Hz as Hz.
      assert (HxP : In x P).
      { apply (hits_full d P); [|lia|assumption].
        eapply NoDup_app_remove_r. apply I. }
      apply get_In_keys in HxP.
      destruct (get (l_nodeLevel st) x) as [lx|] eqn:Elx; [|congruence].
      exists lx. split; [auto|]. now apply (inv_bound _ _ _ I x).
  - (* the level of an item is one more than that of some dependency *)
    intros d l Hd.
    destruct (Hnew _ _ Hd) as [E|(_ & Hdq & ->)].
    + destruct (inv_exact _ _ _ I _ _ E) as [?|(x & lx & ? & ? & ?)];
        [now left|].
      right. exists x, lx. auto.
    + destruct (inv_queue _ _ _ I _ Hdq) as [?|(x & lx & ? & ? & ?)];
        [now left|].
      right. exists x, lx. auto.
  - (* a queued item has a dependency in the level just built *)
    intros d Hd. right.
    destruct (Hq0 _ Hd) as (_ & v & _ & Hr).
    destruct (hits_pos d queue) as (x & Hxq & Hxd); [lia|].
    exists x, L. split; [assumption|]. split; [auto|].
    rewrite Hln, length_app. simpl. fold L. lia.
Qed.

(** *** The invariant holds on entry *)

Lemma NoDup_keys_filter {V} (f : string * V -> bool) (m : JsMap.t V) :
  NoDup (keys m) -> NoDup (keys (filter f m)).
Proof.
  unfold keys. induction m as [|e m IH]; simpl; [auto|].
  intros Hnd. inversion Hnd as [|? ? He Hnd']; subst.
  destruct (f e); simpl; [|auto].
  constructor; [|auto].
  intros Hin. apply He. apply in_map_iff in Hin.
  destruct Hin as (e' & <- & Hin). apply in_map.
  now apply filter_In in Hin.
Qed.

Lemma initialQueue_In (m : JsMap.t Z) d :
  NoDup (keys m) -> (In d (initialQueue m) <-> get m d = Some 0%Z).
Proof.
  intros Hnd. unfold initialQueue. rewrite in_map_iff. split.
  - intros ([k v] & <- & Hin). apply filter_In in Hin. simpl in *.
    destruct Hin as [Hin Hv]. apply Z.eqb_eq in Hv. subst v.
    now apply In_get_Some.
  - intros Hg. exists (d, 0%Z). split; [reflexivity|].
    apply filter_In. split; [now apply get_Some_In | reflexivity].
Qed.

Lemma get_degree_key d :
  In d (keys nodes) ->
  get (fst (initTables nodes)) d
  = Some (Z.of_nat (length (depsOf nodes d))).
Proof.
  intros Hd. rewrite get_degree by assumption. unfold depsOf.
  destruct (get nodes d) eqn:E; [reflexivity|].
  now apply get_In_keys in Hd.
Qed.

Lemma Inv_init :
  Inv nodes (mkLoop nodes (fst (initTables nodes)) [] [] 0)
      (initialQueue (fst (initTables nodes))).
Proof.
  pose proof (keys_degree nodes nodes_nodup) as Hk.
  assert (Hnd0 : NoDup (keys (fst (initTables nodes)))) by now rewrite Hk.
  constructor; simpl; try (intros; discriminate).
  - reflexivity.
  - assumption.
  - intros k node ->. reflexivity.
  - apply (NoDup_keys_filter _ _ Hnd0).
  - intros d Hd. rewrite <- Hk. unfold initialQueue in Hd.
    apply in_map_iff in Hd. destruct Hd as (e & <- & Hin).
    apply filter_In in Hin. apply in_map. tauto.
  - intros d Hd. rewrite get_degree_key by assumption.
    f_equal. unfold hits. simpl. lia.
  - intros d _. now apply initialQueue_In.
  - reflexivity.
  - constructor.
  - intros [|i] n [].
  - intros d Hd. left. split; [|reflexivity].
    assert (Hdk : In d (keys nodes)).
    { rewrite <- Hk. unfold initialQueue in Hd.
      apply in_map_iff in Hd. destruct Hd as (e & <- & Hin).
      apply filter_In in Hin. apply in_map. tauto. }
    apply initialQueue_In in Hd; [|assumption].
    rewrite get_degree_key in Hd by assumption. injection Hd as Hd.
    apply length_zero_iff_nil. lia.
Qed.

(** *** The loop ends within its fuel *)

Lemma whileQueue_inv fuel :
  forall st queue,
    Inv nodes st queue ->
    length (keys nodes) - length (l_nodeLevel st) <= fuel ->
    exists st',
      whileQueue fuel (dependentsTable nodes) st queue = Some st' /\
      Inv nodes st' [].
Proof.
  induction fuel as [|fuel IH]; intros st queue I Hfuel.
  - destruct queue as [|x queue]; [exists st; auto|].
    exfalso.
    assert (Hlen : length (keys (l_nodeLevel st) ++ x :: queue)
                   <= length (keys nodes)).
    { apply NoDup_incl_length; apply I. }
    unfold keys in Hlen at 1.
    rewrite length_app, length_map in Hlen. simpl in Hlen. lia.
  - destruct queue as [|x queue]; [exists st; auto|].
    cbn [whileQueue].
    destruct (processLevel_inv st (x :: queue) I) as (st' & q' & -> & I' & Hnl).
    apply IH; [assumption|].
    rewrite Hnl, length_app, length_map. simpl.
    assert (Hlen : length (keys (l_nodeLevel st) ++ x :: queue)
                   <= length (keys nodes)).
    { apply NoDup_incl_length; apply I. }
    unfold keys in Hlen at 1.
    rewrite length_app, length_map in Hlen. simpl in Hlen. lia.
Qed.

Lemma whileQueue_run :
  exists st,
    whileQueue (size nodes) (dependentsTable nodes)
      (mkLoop nodes (fst (initTables nodes)) [] [] 0)
      (initialQueue (fst (initTables nodes))) = Some st /\
    Inv nodes st [].
Proof.
  apply whileQueue_inv; [apply Inv_init|].
  simpl. unfold size, keys. rewrite length_map. lia.
Qed.

Lemma buildLeveledDAG_unfold (m : JsMap.t (DAGNode TData)) :
  buildLeveledDAG m
  = option_map (finishDAG (dependentsTable m))
      (whileQueue (size m) (dependentsTable m)
         (mkLoop m (fst (initTables m)) [] [] 0)
         (initialQueue (fst (initTables m)))).
Proof.
  unfold buildLeveledDAG, dependentsTable.
  destruct (initTables m) as [inDegree dependents]. simpl.
  now destruct (whileQueue _ _ _ _).
Qed.

Lemma buildLeveledDAG_run :
  exists st,
    Inv nodes st [] /\
    buildLeveledDAG nodes
    = Some (finishDAG (dependentsTable nodes) st) /\
    size (l_nodes st) = size nodes.
Proof.
  destruct whileQueue_run as (st & Hw & I).
  exists st. split; [assumption|]. split.
  - now rewrite buildLeveledDAG_unfold, Hw.
  - unfold size. rewrite <- (length_map fst (l_nodes st)).
    change (map fst (l_nodes st)) with (keys (l_nodes st)).
    rewrite (inv_keys_nodes _ _ _ I). apply length_map.
Qed.

(** [buildLeveledDAG] comes to an end on every map: the fuel suffices and no
    key is looked up that the tables do not hold. *)
Lemma buildLeveledDAG_total : buildLeveledDAG nodes <> None.
Proof.
  destruct buildLeveledDAG_run as (st & _ & E & _). congruence.
Qed.

(** *** What the invariant says once the queue is empty *)

Section Final.
Variable st : @LoopState TData.
Hypothesis I : Inv nodes st [].

Lemma final_nodup : NoDup (keys (l_nodeLevel st)).
Proof.
  pose proof (inv_nodup _ _ _ I) as H. now rewrite app_nil_r in H.
Qed.

Lemma final_incl : incl (keys (l_nodeLevel st)) (keys nodes).
Proof.
  pose proof (inv_incl _ _ _ I) as H. now rewrite app_nil_r in H.
Qed.

Lemma final_zero d :
  In d (keys nodes) ->
  (In d (keys (l_nodeLevel st)) <-> get (l_inDegree st) d = Some 0%Z).
Proof.
  intros Hd. rewrite <- (inv_zero _ _ _ I d Hd). now rewrite app_nil_r.
Qed.

Lemma final_complete :
  l_processedCount st = size nodes ->
  forall k, In k (keys nodes) -> In k (keys (l_nodeLevel st)).
Proof.
  intros Hc. apply NoDup_length_incl.
  - exact final_nodup.
  - rewrite (inv_count _ _ _ I) in Hc. unfold keys, size in *.
    rewrite !length_map. lia.
  - exact final_incl.
Qed.

Lemma final_dep_level d l x :
  get (l_nodeLevel st) d = Some l -> clos_trans string (dependsOn nodes) d x ->
  exists lx, get (l_nodeLevel st) x = Some lx /\ lx < l.
Proof.
  intros Hd Hpath. revert l Hd.
  induction Hpath as [d x Hstep|d y x _ IH1 _ IH2]; intros l Hd.
  - apply dependsOn_depsOf in Hstep.
    now apply (inv_deps _ _ _ I d).
  - destruct (IH1 _ Hd) as (ly & Hy & Hlt).
    destruct (IH2 _ Hy) as (lx & Hx & Hlt').
    exists lx. split; [assumption | lia].
Qed.

Lemma final_processed_acyclic d :
  In d (keys (l_nodeLevel st)) -> ~ reachesCycle nodes d.
Proof.
  intros Hd (c & Hpath & Hcyc).
  apply get_In_keys in Hd.
  destruct (get (l_nodeLevel st) d) as [l|] eqn:El; [clear Hd|congruence].
  assert (Hc : exists lc, get (l_nodeLevel st) c = Some lc).
  { apply clos_rt_rt1n in Hpath. revert l El.
    induction Hpath as [|d y c Hstep _ IH]; intros l El; [eauto|].
    destruct (final_dep_level d l y El) as (ly & Hy & _);
      [now apply t_step | eauto]. }
  destruct Hc as (lc & Hc).
  destruct (final_dep_level c lc c Hc Hcyc) as (lc' & Hc' & Hlt).
  rewrite Hc in Hc'. injection Hc' as <-. lia.
Qed.

Lemma final_unprocessed_dep d :
  distinctDeps nodes -> In d (keys nodes) -> ~ In d (keys (l_nodeLevel st)) ->
  exists x, In x (depsOf nodes d) /\ ~ In x (keys (l_nodeLevel st)).
Proof.
  intros Hdist Hd Hnot.
  destruct (Forall_Exists_dec (fun x => In x (keys (l_nodeLevel st)))
              (fun x => in_dec string_dec x (keys (l_nodeLevel st)))
              (depsOf nodes d)) as [Hall|Hex].
  - exfalso. apply Hnot. apply final_zero; [assumption|].
    rewrite (inv_degree _ _ _ I d Hd). f_equal.
    pose proof (hits_le d _ final_nodup) as Hle.
    assert (Hge : length (depsOf nodes d)
                  <= hits nodes d (keys (l_nodeLevel st))).
    { apply hits_all; [|now apply Forall_forall].
      unfold depsOf. destruct (get nodes d) eqn:E; [|constructor].
      now apply (Hdist d). }
    lia.
  - apply Exists_exists in Hex. exact Hex.
Qed.

Lemma final_descent fuel :
  distinctDeps nodes ->
  forall visited d,
    NoDup visited -> incl visited (keys nodes) ->
    length (keys nodes) - length visited <= fuel ->
    (forall v, In v visited -> clos_trans string (dependsOn nodes) v d) ->
    In d (keys nodes) -> ~ In d (keys (l_nodeLevel st)) ->
    reachesCycle nodes d.
Proof.
  intros Hdist.
  induction fuel as [|fuel IH]; intros visited d Hnd Hincl Hfuel Hreach Hd Hnot;
    destruct (in_dec string_dec d visited) as [Hv|Hv];
    try (exists d; split; [apply rt_refl | now apply Hreach]).
  - exfalso.
    assert (Hlen : length (d :: visited) <= length (keys nodes)).
    { apply NoDup_incl_length; [now constructor|].
      intros a [<-|Ha]; auto. }
    simpl in Hlen. lia.
  - destruct (final_unprocessed_dep d Hdist Hd Hnot) as (x & Hx & Hxn).
    assert (Hstep : dependsOn nodes d x) by now apply dependsOn_depsOf.
    assert (Hxk : In x (keys nodes)).
    { apply depsOf_In in Hx. destruct Hx as (_ & _ & _ & Hx). exact Hx. }
    assert (Hlen : length (d :: visited) <= length (keys nodes)).
    { apply NoDup_incl_length; [now constructor|].
      intros a [<-|Ha]; auto. }
    destruct (IH (d :: visited) x) as (c & Hpath & Hcyc); auto.
    + now constructor.
    + intros a [<-|Ha]; auto.
    + simpl in *. lia.
    + intros v [<-|Hin]; [now apply t_step|].
      eapply t_trans; [apply Hreach; eassumption | now apply t_step].
    + exists c. split; [|assumption].
      eapply rt_trans; [apply rt_step; eassumption | assumption].
Qed.

Lemma final_unprocessed_cycle d :
  distinctDeps nodes -> In d (keys nodes) -> ~ In d (keys (l_nodeLevel st)) ->
  reachesCycle nodes d.
Proof.
  intros Hdist Hd Hnot.
  apply (final_descent (length (keys nodes)) Hdist [] d); auto.
  - constructor.
  - intros a [].
  - simpl. lia.
  - intros v [].
Qed.

Lemma Forall2_In_l {A B} (R : A -> B -> Prop) l1 l2 a :
  Forall2 R l1 l2 -> In a l1 -> exists b, In b l2 /\ R a b.
Proof.
  induction 1 as [|x y l1 l2 Hxy _ IH]; intros Hin; [destruct Hin|].
  destruct Hin as [->|Hin].
  - exists y. split; [now left | assumption].
  - destruct (IH Hin) as (b & Hb & HR). exists b. split; [now right | assumption].
Qed.

Lemma In_levels {A} (ls : list (list A)) a :
  In a (concat ls) <-> exists i, In a (nth i ls []).
Proof.
  rewrite in_concat. split.
  - intros (lv & Hlv & Ha).
    destruct (In_nth _ _ [] Hlv) as (i & _ & <-). eauto.
  - intros (i & Ha). exists (nth i ls []). split; [|assumption].
    destruct (Nat.lt_ge_cases i (length ls)) as [Hlt|Hge].
    + now apply nth_In.
    + rewrite nth_overflow in Ha by assumption. destruct Ha.
Qed.

Lemma concat_nth_split {A} (ls : list (list A)) :
  forall i j a b,
    i < j -> In a (nth i ls []) -> In b (nth j ls []) ->
    exists l1 l2 l3, concat ls = l1 ++ a :: l2 ++ b :: l3.
Proof.
  induction ls as [|lv ls IH]; intros i j a b Hlt Ha Hb.
  - destruct i; destruct Ha.
  - destruct j as [|j]; [lia|]. simpl in Hb.
    destruct i as [|i]; simpl in Ha.
    + apply in_split in Ha. destruct Ha as (la & lb & ->).
      assert (Hb' : In b (concat ls)) by (apply In_levels; eauto).
      apply in_split in Hb'. destruct Hb' as (lc & ld & Hc).
      exists la, (lb ++ lc), ld. simpl. rewrite Hc.
      rewrite <- !app_assoc. reflexivity.
    + destruct (IH i j a b) as (l1 & l2 & l3 & Hc); [lia|assumption|assumption|].
      exists (lv ++ l1), l2, l3. simpl. rewrite Hc. now rewrite app_assoc.
Qed.

Lemma values_nodeAt (m : JsMap.t (DAGNode TData)) :
  NoDup (keys m) -> map snd m = map (nodeAt m) (keys m).
Proof.
  intros Hnd. unfold keys. rewrite map_map. apply map_ext_in.
  intros [k v] Hin. simpl. unfold nodeAt.
  now rewrite (In_get_Some m k v Hnd Hin).
Qed.

Lemma final_item k n0 l :
  get nodes k = Some n0 -> get (l_nodeLevel st) k = Some l ->
  get (l_nodes st) k = Some (set_level n0 l) /\
  In (set_level n0 l) (nth l (l_levels st) []) /\
  forall j, In (set_level n0 l) (nth j (l_levels st) []) -> j = l.
Proof.
  intros Hk Hl.
  assert (Hg : get (l_nodes st) k = Some (set_level n0 l)).
  { rewrite (inv_nodes _ _ _ I k n0 Hk). unfold leveled. now rewrite Hl. }
  split; [assumption|].
  assert (Huniq : forall j, In (set_level n0 l) (nth j (l_levels st) []) ->
                            j = l).
  { intros j Hj. apply (inv_tag _ _ _ I) in Hj. simpl in Hj. congruence. }
  split; [|assumption].
  destruct (Forall2_In_l _ _ _ (k, l) (inv_flat _ _ _ I))
    as (b & Hb & node & Hnode & ->).
  { now apply get_Some_In. }
  simpl in Hnode. rewrite Hk in Hnode. injection Hnode as <-. simpl in Hb.
  apply In_levels in Hb. destruct Hb as (i & Hi).
  pose proof (Huniq i Hi) as Heq. subst i. exact Hi.
Qed.

Lemma final_flat :
  concat (l_levels st) = map (nodeAt (l_nodes st)) (keys (l_nodeLevel st)).
Proof.
  assert (Haux : forall es ns,
             Forall2
               (fun e n => exists node,
                    get nodes (fst e) = Some node /\
                    n = set_level node (snd e)) es ns ->
             (forall e, In e es ->
                        get (l_nodeLevel st) (fst e) = Some (snd e)) ->
             ns = map (nodeAt (l_nodes st)) (keys es)).
  { induction 1 as [|e n es ns (node & Hnode & ->) _ IH]; intros Hget;
      [reflexivity|].
    simpl. f_equal.
    - unfold nodeAt. rewrite (inv_nodes _ _ _ I _ _ Hnode). unfold leveled.
      rewrite (Hget e) by now left. reflexivity.
    - apply IH. intros e' He'. apply Hget. now right. }
  apply Haux; [apply I|].
  intros [k l] He. apply In_get_Some; [exact final_nodup | exact He].
Qed.

End Final.

(** *** C1 *)

(** C1.  Whenever [buildLeveledDAG] returns, its levels partition the items
    of the map: the flattened levels ([getTopologicalOrder]) have as many
    entries as the map and are a rearrangement of its items; every item lies
    in exactly one level; and every dependency identifier of an item that is a
    key of the map belongs to an item of a strictly lower level, which
    therefore comes earlier in the flattened order. *)
Theorem levels_partition (dag : DependencyDAG TData) :
  buildLeveledDAG nodes = Some (Return dag) ->
  length (getTopologicalOrder dag) = size nodes /\
  keys (Types.nodes dag) = keys nodes /\
  Permutation (getTopologicalOrder dag) (map snd (Types.nodes dag)) /\
  (forall k n,
      get (Types.nodes dag) k = Some n ->
      exists i,
        In n (nth i (levels dag) []) /\
        forall j, In n (nth j (levels dag) []) -> j = i) /\
  (forall k n dep m,
      get (Types.nodes dag) k = Some n ->
      In dep (dependencies n) ->
      get (Types.nodes dag) dep = Some m ->
      exists i j,
        In m (nth i (levels dag) []) /\ In n (nth j (levels dag) []) /\
        i < j /\
        exists l1 l2 l3, getTopologicalOrder dag = l1 ++ m :: l2 ++ n :: l3).
Proof.
  intros Hrun.
  destruct buildLeveledDAG_run as (st & I & E & Hsz). rewrite E in Hrun.
  unfold finishDAG in Hrun. rewrite Hsz in Hrun.
  destruct (Nat.eqb_spec (l_processedCount st) (size nodes)) as [Hc|Hc];
    simpl in Hrun; [|discriminate].
  injection Hrun as <-. unfold getTopologicalOrder. simpl.
  pose proof (final_complete st I Hc) as Hall.
  assert (Hitem : forall k n,
             get (l_nodes st) k = Some n ->
             exists n0 l, get nodes k = Some n0 /\
                          get (l_nodeLevel st) k = Some l /\
                          n = set_level n0 l).
  { intros k n Hk.
    assert (Hkk : In k (keys nodes)).
    { rewrite <- (inv_keys_nodes _ _ _ I). apply get_In_keys. congruence. }
    pose proof (Hall k Hkk) as Hl. apply get_In_keys in Hl, Hkk.
    destruct (get nodes k) as [n0|] eqn:En0; [|congruence].
    destruct (get (l_nodeLevel st) k) as [l|] eqn:El; [|congruence].
    exists n0, l. split; [reflexivity|]. split; [reflexivity|].
    destruct (final_item st I k n0 l En0 El) as (Hg & _). congruence. }
  split; [|split; [|split; [|split]]].
  - rewrite <- Hc, (inv_count _ _ _ I). symmetry.
    eapply Forall2_length. apply I.
  - apply I.
  - rewrite (final_flat st I), values_nodeAt
      by (rewrite (inv_keys_nodes _ _ _ I); assumption).
    apply Permutation_map. rewrite (inv_keys_nodes _ _ _ I).
    apply NoDup_Permutation_bis.
    + now apply final_nodup.
    + rewrite (inv_count _ _ _ I) in Hc. unfold keys, size in *.
      rewrite !length_map. lia.
    + now apply final_incl.
  - intros k n Hk. destruct (Hitem k n Hk) as (n0 & l & En0 & El & ->).
    exists l. now apply (final_item st I k).
  - intros k n dep m Hk Hdep Hm.
    destruct (Hitem k n Hk) as (n0 & l & En0 & El & ->).
    destruct (Hitem dep m Hm) as (m0 & lm & Em0 & Elm & ->).
    assert (Hd : In dep (depsOf nodes k)).
    { apply depsOf_In. exists n0. split; [assumption|]. split; [exact Hdep|].
      apply get_In_keys. congruence. }
    destruct (inv_deps _ _ _ I k l dep El Hd) as (lx & Elx & Hlt).
    rewrite Elm in Elx. injection Elx as <-.
    destruct (final_item st I k n0 l En0 El) as (_ & Hn & _).
    destruct (final_item st I dep m0 lm Em0 Elm) as (_ & Hmm & _).
    exists lm, l. split; [assumption|]. split; [assumption|].
    split; [assumption|].
    now apply (concat_nth_split _ lm l).
Qed.

(** *** Cycles *)

Lemma dependsOn_trans_key x y :
  clos_trans string (dependsOn nodes) x y -> In x (keys nodes).
Proof.
  induction 1 as [x y (node & Hk & _)|x y z _ IH _ _]; [|assumption].
  apply get_In_keys. congruence.
Qed.

Lemma onCycle_key k : onCycle nodes k -> In k (keys nodes).
Proof. apply dependsOn_trans_key. Qed.

Lemma reachesCycle_key k : reachesCycle nodes k -> In k (keys nodes).
Proof.
  intros (c & Hpath & Hc). apply clos_rt_rt1n in Hpath.
  induction Hpath as [x|x y z (node & Hk & _) _ _].
  - now apply onCycle_key.
  - apply get_In_keys. congruence.
Qed.

Lemma unprocessed_exists (st : @LoopState TData) :
  Inv nodes st [] -> l_processedCount st <> size nodes ->
  exists d, In d (keys nodes) /\ ~ In d (keys (l_nodeLevel st)).
Proof.
  intros I Hc.
  destruct (Forall_Exists_dec (fun x => In x (keys (l_nodeLevel st)))
              (fun x => in_dec string_dec x (keys (l_nodeLevel st)))
              (keys nodes)) as [Hall|Hex].
  - exfalso. apply Hc. rewrite (inv_count _ _ _ I).
    assert (H1 : length (keys nodes) <= length (keys (l_nodeLevel st))).
    { apply NoDup_incl_length; [assumption|].
      intros a Ha. rewrite Forall_forall in Hall. auto. }
    assert (H2 : length (keys (l_nodeLevel st)) <= length (keys nodes)).
    { apply NoDup_incl_length; [now apply final_nodup | now apply final_incl]. }
    unfold keys, size in *. rewrite !length_map in *. lia.
  - apply Exists_exists in Hex. exact Hex.
Qed.

(** C3 (amended).  When no item lists an in-graph dependency twice and the
    map has a dependency cycle (a self-dependency included),
    [buildLeveledDAG] throws; the identifiers listed in the message are, in
    map iteration order, exactly the keys that lie on a cycle or depend,
    directly or transitively, on an item that does.  Every cycle member is
    among them. *)
Theorem cycle_error :
  distinctDeps nodes ->
  (exists k, onCycle nodes k) ->
  exists ids keep,
    buildLeveledDAG nodes = Some (ThrowError (cycleMessage ids)) /\
    ids = filter keep (keys nodes) /\
    (forall k, In k ids <-> reachesCycle nodes k) /\
    (forall k, onCycle nodes k -> In k ids).
Proof.
  intros Hdist (c & Hc).
  destruct buildLeveledDAG_run as (st & I & E & Hsz).
  assert (Hids : forall k,
             In k (filter (fun n => negb (has (l_nodeLevel st) n))
                          (keys nodes)) <-> reachesCycle nodes k).
  { intros k. rewrite filter_In, negb_true_iff.
    rewrite <- not_true_iff_false, has_In_keys. split.
    - intros [Hk Hn]. now apply (final_unprocessed_cycle st I).
    - intros Hr. split; [now apply reachesCycle_key|].
      intros Hin. now apply (final_processed_acyclic st I k). }
  assert (Hcr : reachesCycle nodes c)
    by (exists c; split; [apply rt_refl | assumption]).
  unfold finishDAG in E. rewrite Hsz in E.
  destruct (Nat.eqb_spec (l_processedCount st) (size nodes)) as [Hcount|Hcount];
    simpl in E.
  - exfalso. apply (final_processed_acyclic st I c); [|assumption].
    apply (final_complete st I Hcount). now apply onCycle_key.
  - rewrite (inv_keys_nodes _ _ _ I) in E.
    eexists. exists (fun n => negb (has (l_nodeLevel st) n)).
    split; [exact E|]. split; [reflexivity|]. split; [exact Hids|].
    intros k Hk. apply Hids. exists k. split; [apply rt_refl | assumption].
Qed.

(** *** Acyclic maps *)

Lemma depsInDag_same_keys (m m' : JsMap.t (DAGNode TData)) n n' :
  keys m = keys m' -> dependencies n = dependencies n' ->
  depsInDag m n = depsInDag m' n'.
Proof.
  intros Hk Hd. unfold depsInDag. rewrite Hd. apply filter_ext.
  intros a. apply eq_true_iff_eq. now rewrite !has_In_keys, Hk.
Qed.

Lemma list_max_In l x : In x l -> x <= list_max l.
Proof.
  intros Hin. assert (H : list_max l <= list_max l) by constructor.
  apply list_max_le in H. rewrite Forall_forall in H. auto.
Qed.

(** For an acyclic map whose items list every in-graph dependency once,
    [buildLeveledDAG] returns and every item carries the level 0 when it has
    no in-graph dependency and one more than the highest level among its
    in-graph dependencies otherwise. *)
Lemma acyclic_levels :
  acyclic nodes -> distinctDeps nodes ->
  exists dag,
    buildLeveledDAG nodes = Some (Return dag) /\
    forall k n,
      get (Types.nodes dag) k = Some n ->
      level n = Some (expectedLevel (Types.nodes dag) n).
Proof.
  intros Hacyc Hdist.
  destruct buildLeveledDAG_run as (st & I & E & Hsz).
  unfold finishDAG in E. rewrite Hsz in E.
  destruct (Nat.eqb_spec (l_processedCount st) (size nodes)) as [Hc|Hc];
    simpl in E.
  2:{ exfalso. destruct (unprocessed_exists st I Hc) as (d & Hd & Hn).
      destruct (final_unprocessed_cycle st I d Hdist Hd Hn) as (c & _ & Hcyc).
      now apply (Hacyc c). }
  eexists. split; [exact E|]. simpl. intros k n Hk.
  pose proof (final_complete st I Hc) as Hall.
  assert (Hlev : forall x, In x (keys nodes) ->
                   exists lx, get (l_nodeLevel st) x = Some lx /\
                              levelOf (l_nodes st) x = lx).
  { intros x Hx. pose proof (Hall x Hx) as Hl. apply get_In_keys in Hl, Hx.
    destruct (get nodes x) as [x0|] eqn:Ex0; [|congruence].
    destruct (get (l_nodeLevel st) x) as [lx|] eqn:Elx; [|congruence].
    exists lx. split; [reflexivity|]. unfold levelOf.
    destruct (final_item st I x x0 lx Ex0 Elx) as (-> & _). reflexivity. }
  assert (Hkk : In k (keys nodes)).
  { rewrite <- (inv_keys_nodes _ _ _ I). apply get_In_keys. congruence. }
  destruct (Hlev k Hkk) as (l & El & _).
  apply get_In_keys in Hkk.
  destruct (get nodes k) as [n0|] eqn:En0; [|congruence].
  destruct (final_item st I k n0 l En0 El) as (Hg & _).
  rewrite Hg in Hk. injection Hk as <-. simpl. f_equal.
  unfold expectedLevel.
  rewrite (depsInDag_same_keys (l_nodes st) nodes (set_level n0 l) n0)
    by (try apply I; reflexivity).
  assert (Hdeps : depsOf nodes k = depsInDag nodes n0)
    by (unfold depsOf; now rewrite En0).
  rewrite <- Hdeps.
  assert (Hlt : forall x, In x (depsOf nodes k) ->
                          levelOf (l_nodes st) x < l).
  { intros x Hx.
    destruct (inv_deps _ _ _ I k l x El Hx) as (lx & Elx & Hlt).
    destruct (Hlev x) as (lx' & Elx' & ->).
    - now apply depsOf_key in Hx.
    - congruence. }
  destruct (inv_exact _ _ _ I k l El) as [[-> ->]|(x & lx & Hx & Elx & ->)];
    [reflexivity|].
  destruct (depsOf nodes k) as [|d ds] eqn:Eds; [destruct Hx|].
  f_equal. apply Nat.le_antisymm.
  - destruct (Hlev x) as (lx' & Elx' & Hlx).
    { rewrite <- Eds in Hx. now apply depsOf_key in Hx. }
    rewrite Elx in Elx'. injection Elx' as <-. rewrite <- Hlx.
    apply list_max_In. now apply in_map.
  - apply list_max_le. apply Forall_forall. intros y Hy.
    apply in_map_iff in Hy. destruct Hy as (z & <- & Hz).
    specialize (Hlt z Hz). lia.
Qed.

End Relax.

(** *** Dependencies outside the map *)

Section Strip.
Context {TData : Type}.
Variable nodes : JsMap.t (DAGNode TData).

Lemma get_stripMap m k :
  get (stripMap nodes m) k = option_map (stripNode nodes) (get m k).
Proof. apply (get_map_entry (stripNode nodes)). Qed.

Lemma keys_stripMap m : keys (stripMap nodes m) = keys m.
Proof.
  unfold keys, stripMap. rewrite map_map. now apply map_ext.
Qed.

Lemma has_stripMap m k : has (stripMap nodes m) k = has m k.
Proof.
  apply eq_true_iff_eq. now rewrite !has_In_keys, keys_stripMap.
Qed.

Lemma set_stripMap m k v :
  set (stripMap nodes m) k (stripNode nodes v) = stripMap nodes (set m k v).
Proof.
  induction m as [|[k0 v0] m IH]; simpl; [reflexivity|].
  destruct (String.eqb k0 k); simpl; [reflexivity|]. now rewrite IH.
Qed.

Lemma filter_idem {A} (f : A -> bool) l : filter f (filter f l) = filter f l.
Proof.
  induction l as [|a l IH]; simpl; [reflexivity|].
  destruct (f a) eqn:E; simpl; [rewrite E; now f_equal | assumption].
Qed.

Lemma depsInDag_strip m node :
  keys m = keys nodes ->
  depsInDag (stripMap nodes m) (stripNode nodes node) = depsInDag nodes node.
Proof.
  intros Hk. unfold depsInDag at 1. simpl. unfold depsInDag.
  rewrite <- (filter_idem (fun dep => has nodes dep)) at 2.
  apply filter_ext. intros a. rewrite has_stripMap.
  apply eq_true_iff_eq. now rewrite !has_In_keys, Hk.
Qed.

Lemma initTables_fold_strip (l : list (string * DAGNode TData)) :
  forall acc : JsMap.t Z * JsMap.t JsSet.t,
    fold_left
      (fun tabs entry =>
         let '(inDegree, dependents) := tabs in
         let '(name, node) := entry in
         (set inDegree name
            (Z.of_nat (length (depsInDag (stripMap nodes nodes) node))),
          set dependents name []))
      (stripMap nodes l) acc
    = fold_left
        (fun tabs entry =>
           let '(inDegree, dependents) := tabs in
           let '(name, node) := entry in
           (set inDegree name (Z.of_nat (length (depsInDag nodes node))),
            set dependents name []))
        l acc.
Proof.
  induction l as [|[name node] l IH]; intros [inDegree dependents]; simpl;
    [reflexivity|].
  rewrite IH. now rewrite depsInDag_strip.
Qed.

Lemma initTables_strip : initTables (stripMap nodes nodes) = initTables nodes.
Proof. apply initTables_fold_strip. Qed.

Lemma addDependent_strip name ds :
  forall dm : JsMap.t JsSet.t,
    incl (keys dm) (keys nodes) ->
    fold_left (addDependent name) (filter (fun dep => has nodes dep) ds) dm
    = fold_left (addDependent name) ds dm.
Proof.
  induction ds as [|dep ds IH]; intros dm Hk; simpl; [reflexivity|].
  destruct (has nodes dep) eqn:E; simpl.
  - apply IH. now rewrite addDependent_keys.
  - rewrite IH by assumption. f_equal. unfold addDependent.
    destruct (get dm dep) eqn:Eg; [|reflexivity].
    exfalso. apply not_true_iff_false in E. apply E. apply has_In_keys.
    apply Hk. apply get_In_keys. congruence.
Qed.

Lemma addDependents_strip (l : list (string * DAGNode TData)) :
  forall dm : JsMap.t JsSet.t,
    incl (keys dm) (keys nodes) ->
    addDependents (stripMap nodes l) dm = addDependents l dm.
Proof.
  unfold addDependents.
  induction l as [|[name node] l IH]; intros dm Hk; simpl; [reflexivity|].
  fold (depsInDag nodes node). unfold depsInDag.
  rewrite addDependent_strip by assumption.
  apply IH.
  destruct (addDependent_fold name (dependencies node) dm) as [-> _].
  assumption.
Qed.

Lemma visit_None D L queue :
  fold_left (@visit TData D L) queue None = None.
Proof. induction queue; simpl; auto. Qed.

Lemma visit_strip D L p x :
  visit D L (Some (stripPass nodes p)) x
  = option_map (stripPass nodes) (visit D L (Some p) x).
Proof.
  unfold visit. simpl p_nodes. rewrite get_stripMap.
  destruct (get (p_nodes p) x) as [node|]; simpl; [|reflexivity].
  destruct (fold_left relax _ _) as [[inDegree nextQueue]|]; simpl;
    [|reflexivity].
  f_equal. unfold stripPass. simpl. f_equal.
  - apply (set_stripMap (p_nodes p) x (set_level node L)).
  - now rewrite map_app.
Qed.

Lemma visit_fold_strip D L queue :
  forall p,
    fold_left (visit D L) queue (Some (stripPass nodes p))
    = option_map (stripPass nodes) (fold_left (visit D L) queue (Some p)).
Proof.
  induction queue as [|x queue IH]; intros p; cbn [fold_left];
    [reflexivity|].
  rewrite visit_strip.
  destruct (visit D L (Some p) x) as [p1|]; simpl.
  - apply IH.
  - now rewrite visit_None.
Qed.

Lemma processLevel_strip D st queue :
  processLevel D (stripLoop nodes st) queue
  = option_map (fun r => (stripLoop nodes (fst r), snd r))
               (processLevel D st queue).
Proof.
  unfold processLevel. simpl l_levels. rewrite length_map.
  change (Some (mkPass (l_nodes (stripLoop nodes st))
                       (l_inDegree (stripLoop nodes st))
                       (l_nodeLevel (stripLoop nodes st))
                       (l_processedCount (stripLoop nodes st)) [] []))
    with (Some (stripPass nodes
                  (mkPass (l_nodes st) (l_inDegree st) (l_nodeLevel st)
                          (l_processedCount st) [] []))).
  rewrite visit_fold_strip.
  destruct (fold_left _ queue _) as [p|]; simpl; [|reflexivity].
  unfold stripLoop. simpl. now rewrite map_app.
Qed.

Lemma whileQueue_strip D fuel :
  forall st queue,
    whileQueue fuel D (stripLoop nodes st) queue
    = option_map (stripLoop nodes) (whileQueue fuel D st queue).
Proof.
  induction fuel as [|fuel IH]; intros st [|x queue]; simpl; try reflexivity.
  change (processLevel D (stripLoop nodes st) (x :: queue))
    with (processLevel D (stripLoop nodes st) (x :: queue)).
  rewrite processLevel_strip.
  destruct (processLevel D st (x :: queue)) as [[st' q']|]; simpl;
    [apply IH | reflexivity].
Qed.

Lemma finishDAG_strip D st :
  keys (l_nodes st) = keys nodes ->
  finishDAG D (stripLoop nodes st)
  = mapCompletion (stripDAG nodes) (finishDAG D st).
Proof.
  intros Hk. unfold finishDAG. simpl.
  replace (size (stripMap nodes (l_nodes st))) with (size (l_nodes st))
    by (unfold size, stripMap; now rewrite length_map).
  rewrite keys_stripMap.
  destruct (negb (l_processedCount st =? size (l_nodes st))); simpl;
    [reflexivity|].
  unfold stripDAG. simpl. f_equal. f_equal.
  apply filter_ext. intros name. rewrite get_stripMap.
  destruct (get (l_nodes st) name) as [node|]; simpl; [|reflexivity].
  rewrite depsInDag_strip by assumption.
  now rewrite (depsInDag_same_keys (l_nodes st) nodes node node).
Qed.

Hypothesis nodes_nodup : NoDup (keys nodes).

Lemma dependentsTable_strip :
  dependentsTable (stripMap nodes nodes) = dependentsTable nodes.
Proof.
  unfold dependentsTable. rewrite initTables_strip.
  apply addDependents_strip. rewrite keys_empty by assumption.
  apply incl_refl.
Qed.

Lemma buildLeveledDAG_strip :
  buildLeveledDAG (stripMap nodes nodes)
  = option_map (mapCompletion (stripDAG nodes)) (buildLeveledDAG nodes).
Proof.
  rewrite !buildLeveledDAG_unfold, dependentsTable_strip, initTables_strip.
  replace (size (stripMap nodes nodes)) with (size nodes)
    by (unfold size, stripMap; now rewrite length_map).
  change (mkLoop (stripMap nodes nodes) (fst (initTables nodes)) [] [] 0)
    with (stripLoop nodes (mkLoop nodes (fst (initTables nodes)) [] [] 0)).
  rewrite whileQueue_strip.
  destruct (whileQueue_run nodes nodes_nodup) as (st & -> & I). simpl.
  f_equal. apply finishDAG_strip. apply I.
Qed.

Lemma returned_state dag :
  buildLeveledDAG nodes = Some (Return dag) ->
  exists st,
    Inv nodes st [] /\ l_processedCount st = size nodes /\
    Types.nodes dag = l_nodes st /\ levels dag = l_levels st /\
    incl (roots dag) (keys nodes) /\ incl (leaves dag) (keys nodes).
Proof.
  intros Hrun.
  destruct (buildLeveledDAG_run nodes nodes_nodup) as (st & I & E & Hsz).
  rewrite E in Hrun. unfold finishDAG in Hrun. rewrite Hsz in Hrun.
  destruct (Nat.eqb_spec (l_processedCount st) (size nodes)) as [Hc|Hc];
    simpl in Hrun; [|discriminate].
  injection Hrun as <-. exists st. simpl.
  rewrite (inv_keys_nodes _ _ _ I).
  split; [exact I|]. split; [exact Hc|].
  split; [reflexivity|]. split; [reflexivity|].
  split; intros k Hk; now apply filter_In in Hk.
Qed.

(** A map that [buildLeveledDAG] accepts has no dependency cycle. *)
Lemma returned_acyclic dag :
  buildLeveledDAG nodes = Some (Return dag) -> acyclic nodes.
Proof.
  intros Hrun k Hk.
  destruct (returned_state dag Hrun) as (st & I & Hc & _).
  apply (final_processed_acyclic nodes st I k).
  - apply (final_complete nodes st I Hc). now apply onCycle_key.
  - exists k. split; [apply rt_refl | assumption].
Qed.

(** C7.  Dependency identifiers that are not keys of the map do not affect
    [buildLeveledDAG]: the in-degree of an item counts only its dependencies
    that are keys, the reverse-edge table has exactly the keys of the map, and
    removing the other identifiers from every item changes neither the
    outcome (error or not, and the message), nor the level of any item, nor
    the order inside a level, nor the roots, nor the leaves - the result is
    the same graph with those identifiers removed from the items.  Roots and
    leaves are keys of the map and every entry of a level is an item stored
    under a key of the map. *)
Theorem out_of_map_dependencies_ignored :
  (forall k,
      get (fst (initTables nodes)) k
      = option_map (fun node => Z.of_nat (length (depsInDag nodes node)))
                   (get nodes k)) /\
  keys (dependentsTable nodes) = keys nodes /\
  (forall k n dep,
      get (stripMap nodes nodes) k = Some n -> In dep (dependencies n) ->
      has nodes dep = true) /\
  buildLeveledDAG (stripMap nodes nodes)
  = option_map (mapCompletion (stripDAG nodes)) (buildLeveledDAG nodes) /\
  forall dag,
    buildLeveledDAG nodes = Some (Return dag) ->
    incl (roots dag) (keys nodes) /\
    incl (leaves dag) (keys nodes) /\
    forall n,
      In n (getTopologicalOrder dag) ->
      exists k, In k (keys nodes) /\ get (Types.nodes dag) k = Some n.
Proof.
  split; [intros k; now apply get_degree|].
  split; [now apply keys_dependentsTable|].
  split; [|split; [exact buildLeveledDAG_strip|]].
  - intros k n dep Hk Hdep. rewrite get_stripMap in Hk.
    destruct (get nodes k) as [n0|]; [|discriminate].
    injection Hk as <-. simpl in Hdep. unfold depsInDag in Hdep.
    now apply filter_In in Hdep.
  - intros dag Hrun.
    destruct (returned_state dag Hrun) as (st & I & Hc & Hn & Hl & Hr & Hlv).
    split; [assumption|]. split; [assumption|].
    intros n Hin. unfold getTopologicalOrder in Hin.
    rewrite Hl, (final_flat nodes st I) in Hin.
    apply in_map_iff in Hin. destruct Hin as (k & <- & Hk).
    assert (Hkk : In k (keys nodes))
      by now apply (final_incl nodes st I).
    exists k. split; [assumption|]. rewrite Hn. unfold nodeAt.
    rewrite <- (inv_keys_nodes _ _ _ I) in Hkk. apply get_In_keys in Hkk.
    now destruct (get (l_nodes st) k).
Qed.

End Strip.

(** *** The sample maps *)

Ltac distinct_keys := repeat constructor; simpl; intuition discriminate.

Ltac edge_cases H node Hin :=
  destruct H as (node & H & Hin & _);
  apply get_Some_In in H; simpl in H;
  repeat (destruct H as [H|H]; [injection H as <- <-; simpl in Hin|]);
  try contradiction.

Lemma repeatedDependency_edge x y :
  clos_trans string (dependsOn Examples.repeatedDependency) x y ->
  x = "b"%string /\ y = "a"%string.
Proof.
  induction 1 as [x y H|x y z _ [_ ->] _ [IH _]]; [|discriminate].
  edge_cases H node Hin. intuition.
Qed.

Lemma cycleWithTail_edge x y :
  clos_trans string (dependsOn Examples.cycleWithTail) x y ->
  y <> "c"%string.
Proof.
  induction 1 as [x y H|x y z _ _ _ IH]; [|assumption].
  edge_cases H node Hin; intuition (subst; discriminate).
Qed.

Lemma cycleWithTail_distinct : distinctDeps Examples.cycleWithTail.
Proof.
  intros k node H. apply get_Some_In in H. simpl in H.
  repeat (destruct H as [H|H]; [injection H as <- <-; vm_compute|]);
    try contradiction; distinct_keys.
Qed.

Lemma cycleWithTail_cycle : onCycle Examples.cycleWithTail "a".
Proof.
  apply t_trans with (y := "b"%string); apply t_step;
    eexists; (split; [reflexivity|]); (split; [simpl; auto | reflexivity]).
Qed.

(** The diamond [a], [b -> a], [c -> a], [d -> b, c] is leveled and its flattened order has four entries. *)
Lemma levels_partition_witness :
  NoDup (keys Examples.diamond) /\
  exists dag,
    buildLeveledDAG Examples.diamond = Some (Return dag) /\
    length (getTopologicalOrder dag) = size Examples.diamond.
Proof.
  assert (Hnd : NoDup (keys Examples.diamond)) by distinct_keys.
  split; [exact Hnd|].
  eexists. split; [vm_compute; reflexivity|].
  refine (proj1 (levels_partition Examples.diamond Hnd _ _)).
  vm_compute. reflexivity.
Defined.

(** C2.  The acyclic map in which [b] lists its dependency [a] twice is
    rejected with a cycle error naming [b]: the in-degree of [b] counts the
    identifier twice while the reverse-edge set of [a] holds [b] once. *)
Theorem repeated_dependency_rejected :
  NoDup (keys Examples.repeatedDependency) /\
  acyclic Examples.repeatedDependency /\
  buildLeveledDAG Examples.repeatedDependency
  = Some (ThrowError "Circular dependency detected involving: b").
Proof.
  split; [distinct_keys|]. split; [|vm_compute; reflexivity].
  intros k Hk. apply repeatedDependency_edge in Hk.
  destruct Hk as [-> Hk]. discriminate.
Qed.

(** The two-item cycle with a dependent item is rejected. *)
Lemma cycle_error_witness :
  NoDup (keys Examples.cycleWithTail) /\
  distinctDeps Examples.cycleWithTail /\
  onCycle Examples.cycleWithTail "a" /\
  exists ids keep,
    buildLeveledDAG Examples.cycleWithTail
    = Some (ThrowError (cycleMessage ids)) /\
    ids = filter keep (keys Examples.cycleWithTail) /\
    (forall k, In k ids <-> reachesCycle Examples.cycleWithTail k) /\
    (forall k, onCycle Examples.cycleWithTail k -> In k ids).
Proof.
  assert (Hnd : NoDup (keys Examples.cycleWithTail)) by distinct_keys.
  split; [exact Hnd|]. split; [exact cycleWithTail_distinct|].
  split; [exact cycleWithTail_cycle|].
  apply (cycle_error Examples.cycleWithTail Hnd cycleWithTail_distinct).
  exists "a"%string. exact cycleWithTail_cycle.
Defined.

(** For [a <-> b] and [c -> a] the message lists [c], which lies on no cycle. *)
Lemma cycle_error_lists_dependents :
  buildLeveledDAG Examples.cycleWithTail
  = Some (ThrowError (cycleMessage ["a"; "b"; "c"]%string)) /\
  onCycle Examples.cycleWithTail "a" /\
  ~ onCycle Examples.cycleWithTail "c".
Proof.
  split; [vm_compute; reflexivity|]. split; [exact cycleWithTail_cycle|].
  intros Hc. now apply cycleWithTail_edge in Hc.
Qed.

(** On the diamond, removing the identifier [external] from [d] changes nothing else. *)
Lemma out_of_map_dependencies_ignored_witness :
  NoDup (keys Examples.diamond) /\
  buildLeveledDAG (stripMap Examples.diamond Examples.diamond)
  = option_map (mapCompletion (stripDAG Examples.diamond))
               (buildLeveledDAG Examples.diamond).
Proof.
  assert (Hnd : NoDup (keys Examples.diamond)) by distinct_keys.
  split; [exact Hnd|].
  exact (proj1 (proj2 (proj2 (proj2
           (out_of_map_dependencies_ignored Examples.diamond Hnd))))).
Defined.

End TraversalFacts.

(** ** Ancestors and descendants *)

Module BuilderFacts.
Import JsMap JsMapFacts JsSetFacts Builder Graph.

Section Closure.
Context {TData : Type}.
Variable nodes : JsMap.t (DAGNode TData).
Variable id : string.

(** Everything a traversal started at [id] can mark as visited. *)
Local Abbreviation universe := (id :: keys nodes).

Lemma add_fresh (visited : JsSet.t) n :
  JsSet.has visited n = false -> NoDup visited -> incl visited universe ->
  In n universe ->
  NoDup (JsSet.add visited n) /\ incl (JsSet.add visited n) universe /\
  incl visited (JsSet.add visited n) /\
  length (JsSet.add visited n) = S (length visited).
Proof.
  intros Hn Hnd Hincl Hu. split; [now apply NoDup_add|].
  split; [|split].
  - intros a Ha. apply In_add in Ha. destruct Ha as [Ha| ->]; auto.
  - intros a Ha. apply In_add. now left.
  - unfold JsSet.add. rewrite Hn, length_app. simpl. lia.
Qed.

Lemma visited_bound (visited visited' : JsSet.t) :
  NoDup visited -> incl visited visited' -> length visited <= length visited'.
Proof. apply NoDup_incl_length. Qed.

(** *** getAncestors *)

Lemma visitAncestors_spec fuel :
  forall (n : string) (ancestors visited : JsSet.t),
    NoDup visited -> incl visited universe -> In n universe ->
    length universe - length visited < fuel ->
    exists ancestors' visited',
      visitAncestors fuel nodes n (ancestors, visited)
      = Some (ancestors', visited') /\
      NoDup visited' /\ incl visited' universe /\ incl visited visited' /\
      forall a, In a ancestors' ->
                In a ancestors \/ clos_trans string (dependsOn nodes) n a.
Proof.
  induction fuel as [|fuel IH]; intros n ancestors visited Hnd Hincl Hn Hfuel;
    [lia|].
  cbn [visitAncestors].
  destruct (JsSet.has visited n) eqn:Ev.
  { exists ancestors, visited. repeat split; auto using incl_refl. }
  destruct (add_fresh visited n Ev Hnd Hincl Hn) as (Hnd1 & Hincl1 & Hsub1 & Hlen1).
  assert (Hroom : length (JsSet.add visited n) <= length universe)
    by now apply NoDup_incl_length.
  destruct (get nodes n) as [node|] eqn:En.
  2:{ exists ancestors, (JsSet.add visited n). repeat split; auto. }
  match goal with |- context [fold_left ?f _ _] => set (body := f) end.
  assert (Hfold : forall (deps : list string) (ancestors1 visited1 : JsSet.t),
             incl deps (dependencies node) ->
             NoDup visited1 -> incl visited1 universe ->
             length universe - length visited1 < fuel ->
             exists ancestors' visited',
               fold_left body deps (Some (ancestors1, visited1))
               = Some (ancestors', visited') /\
               NoDup visited' /\ incl visited' universe /\
               incl visited1 visited' /\
               forall a, In a ancestors' ->
                         In a ancestors1 \/
                         clos_trans string (dependsOn nodes) n a).
  { induction deps as [|dep deps IHdeps];
      intros ancestors1 visited1 Hdeps Hnd' Hincl' Hfuel'.
    - exists ancestors1, visited1. simpl. repeat split; auto using incl_refl.
    - cbn [fold_left]. unfold body at 2. cbv beta iota.
      assert (Hdep : In dep (dependencies node)) by (apply Hdeps; now left).
      assert (Hrest : incl deps (dependencies node))
        by (intros a Ha; apply Hdeps; now right).
      destruct (has nodes dep) eqn:Ed; [|now apply IHdeps].
      assert (Hstep : dependsOn nodes n dep) by (exists node; auto).
      destruct (IH dep (JsSet.add ancestors1 dep) visited1)
        as (a2 & v2 & E2 & Hnd2 & Hincl2 & Hsub2 & Ha2); auto.
      { right. now apply has_In_keys. }
      match goal with
      | |- context [fold_left body deps ?t] =>
          replace t with (Some (a2, v2)) by (symmetry; exact E2)
      end.
      destruct (IHdeps a2 v2) as (a3 & v3 & Hf & Hnd3 & Hincl3 & Hsub3 & Ha3);
        auto.
      { pose proof (visited_bound _ _ Hnd' Hsub2). lia. }
      exists a3, v3. split; [exact Hf|]. split; [assumption|].
      split; [assumption|]. split; [eauto using incl_tran|].
      intros a Ha. destruct (Ha3 a Ha) as [Hin|Hp]; [|now right].
      destruct (Ha2 a Hin) as [Hin'|Hp].
      + apply In_add in Hin'. destruct Hin' as [?| ->]; [now left|].
        right. now apply t_step.
      + right. eapply t_trans; [apply t_step; eassumption | assumption]. }
  destruct (Hfold (dependencies node) ancestors (JsSet.add visited n))
    as (a' & v' & Hf & Hnd' & Hincl' & Hsub' & Ha'); auto using incl_refl.
  { lia. }
  exists a', v'. split; [exact Hf|]. split; [assumption|].
  split; [assumption|]. split; [eauto using incl_tran | assumption].
Qed.

Lemma getAncestors_spec :
  exists ancestors,
    getAncestors nodes id = Some ancestors /\
    forall a, In a ancestors -> clos_trans string (dependsOn nodes) id a.
Proof.
  unfold getAncestors.
  destruct (visitAncestors_spec (S (S (size nodes))) id
              JsSet.empty JsSet.empty)
    as (a' & v' & -> & _ & _ & _ & Ha).
  - constructor.
  - intros a [].
  - now left.
  - simpl. unfold keys, size. rewrite length_map. lia.
  - exists a'. split; [reflexivity|].
    intros a Hin. destruct (Ha a Hin) as [[]|Hp]. exact Hp.
Qed.

(** *** getDescendants *)

Lemma addReverseEdge_sound nodeId node dep dm :
  In (nodeId, node) nodes -> In dep (dependencies node) ->
  edgesSound nodes dm -> edgesSound nodes (addReverseEdge nodeId dm dep).
Proof.
  intros Hnode Hdep Hs. unfold addReverseEdge.
  set (dm1 := if negb (has dm dep) then set dm dep [] else dm).
  assert (Hs1 : edgesSound nodes dm1).
  { unfold dm1. destruct (negb (has dm dep)); [|assumption].
    intros x s d Hx Hd. rewrite get_set in Hx.
    destruct (String.eqb_spec dep x) as [->|Hne].
    - injection Hx as <-. destruct Hd.
    - eapply Hs; eassumption. }
  destruct (get dm1 dep) as [s0|] eqn:E0; [|assumption].
  intros x s d Hx Hd. rewrite get_set in Hx.
  destruct (String.eqb_spec dep x) as [->|Hne].
  - injection Hx as <-. apply In_add in Hd. destruct Hd as [Hd| ->].
    + eapply Hs1; eassumption.
    + exists node. auto.
  - eapply Hs1; eassumption.
Qed.

Lemma reverseEdges_sound : edgesSound nodes (reverseEdges nodes).
Proof.
  unfold reverseEdges.
  assert (H : forall l dm, incl l nodes -> edgesSound nodes dm ->
                edgesSound nodes
                  (fold_left
                     (fun dependents (entry : string * DAGNode TData) =>
                        let '(nodeId, node) := entry in
                        fold_left (addReverseEdge nodeId)
                                  (dependencies node) dependents)
                     l dm)).
  { induction l as [|[nodeId node] l IH]; intros dm Hl Hs; simpl;
      [assumption|].
    apply IH; [intros a Ha; apply Hl; now right|].
    assert (Hnode : In (nodeId, node) nodes) by (apply Hl; now left).
    assert (Hdeps : forall deps dm',
               incl deps (dependencies node) -> edgesSound nodes dm' ->
               edgesSound nodes (fold_left (addReverseEdge nodeId) deps dm')).
    { induction deps as [|dep deps IHd]; intros dm' Hd Hs'; simpl;
        [assumption|].
      apply IHd; [intros a Ha; apply Hd; now right|].
      apply (addReverseEdge_sound nodeId node); auto.
      apply Hd. now left. }
    apply Hdeps; [apply incl_refl | assumption]. }
  apply H; [apply incl_refl|].
  intros x s d Hx. discriminate.
Qed.

Lemma hasDependent_key x d : hasDependent nodes x d -> In d (keys nodes).
Proof.
  intros (node & Hin & _). change d with (fst (d, node)).
  now apply in_map.
Qed.

Lemma visitDescendants_spec fuel :
  forall (n : string) (descendants visited : JsSet.t),
    NoDup visited -> incl visited universe -> In n universe ->
    length universe - length visited < fuel ->
    exists descendants' visited',
      visitDescendants fuel (reverseEdges nodes) n (descendants, visited)
      = Some (descendants', visited') /\
      NoDup visited' /\ incl visited' universe /\ incl visited visited' /\
      forall a, In a descendants' ->
                In a descendants \/
                clos_trans string (hasDependent nodes) n a.
Proof.
  induction fuel as [|fuel IH];
    intros n descendants visited Hnd Hincl Hn Hfuel; [lia|].
  cbn [visitDescendants].
  destruct (JsSet.has visited n) eqn:Ev.
  { exists descendants, visited. repeat split; auto using incl_refl. }
  destruct (add_fresh visited n Ev Hnd Hincl Hn)
    as (Hnd1 & Hincl1 & Hsub1 & Hlen1).
  assert (Hroom : length (JsSet.add visited n) <= length universe)
    by now apply NoDup_incl_length.
  destruct (get (reverseEdges nodes) n) as [deps0|] eqn:En.
  2:{ exists descendants, (JsSet.add visited n). repeat split; auto. }
  match goal with |- context [fold_left ?f _ _] => set (body := f) end.
  assert (Hfold : forall (deps : list string) (d1 visited1 : JsSet.t),
             incl deps deps0 ->
             NoDup visited1 -> incl visited1 universe ->
             length universe - length visited1 < fuel ->
             exists descendants' visited',
               fold_left body deps (Some (d1, visited1))
               = Some (descendants', visited') /\
               NoDup visited' /\ incl visited' universe /\
               incl visited1 visited' /\
               forall a, In a descendants' ->
                         In a d1 \/
                         clos_trans string (hasDependent nodes) n a).
  { induction deps as [|dep deps IHdeps];
      intros d1 visited1 Hdeps Hnd' Hincl' Hfuel'.
    - exists d1, visited1. simpl. repeat split; auto using incl_refl.
    - cbn [fold_left]. unfold body at 2. cbv beta iota.
      assert (Hdep : In dep deps0) by (apply Hdeps; now left).
      assert (Hrest : incl deps deps0)
        by (intros a Ha; apply Hdeps; now right).
      assert (Hstep : hasDependent nodes n dep)
        by (eapply reverseEdges_sound; eassumption).
      destruct (IH dep (JsSet.add d1 dep) visited1)
        as (a2 & v2 & E2 & Hnd2 & Hincl2 & Hsub2 & Ha2); auto.
      { right. now apply (hasDependent_key n). }
      match goal with
      | |- context [fold_left body deps ?t] =>
          replace t with (Some (a2, v2)) by (symmetry; exact E2)
      end.
      destruct (IHdeps a2 v2) as (a3 & v3 & Hf & Hnd3 & Hincl3 & Hsub3 & Ha3);
        auto.
      { pose proof (visited_bound _ _ Hnd' Hsub2). lia. }
      exists a3, v3. split; [exact Hf|]. split; [assumption|].
      split; [assumption|]. split; [eauto using incl_tran|].
      intros a Ha. destruct (Ha3 a Ha) as [Hin|Hp]; [|now right].
      destruct (Ha2 a Hin) as [Hin'|Hp].
      + apply In_add in Hin'. destruct Hin' as [?| ->]; [now left|].
        right. now apply t_step.
      + right. eapply t_trans; [apply t_step; eassumption | assumption]. }
  destruct (Hfold deps0 descendants (JsSet.add visited n))
    as (a' & v' & Hf & Hnd' & Hincl' & Hsub' & Ha'); auto using incl_refl.
  { lia. }
  exists a', v'. split; [exact Hf|]. split; [assumption|].
  split; [assumption|]. split; [eauto using incl_tran | assumption].
Qed.

Lemma getDescendants_spec :
  exists descendants,
    getDescendants nodes id = Some descendants /\
    forall d, In d descendants ->
              clos_trans string (hasDependent nodes) id d.
Proof.
  unfold getDescendants.
  destruct (visitDescendants_spec (S (S (size nodes))) id
              JsSet.empty JsSet.empty)
    as (a' & v' & -> & _ & _ & _ & Ha).
  - constructor.
  - intros a [].
  - now left.
  - simpl. unfold keys, size. rewrite length_map. lia.
  - exists a'. split; [reflexivity|].
    intros a Hin. destruct (Ha a Hin) as [[]|Hp]. exact Hp.
Qed.

(** *** Reverse edges against dependencies *)

Hypothesis nodes_nodup : NoDup (keys nodes).

Lemma hasDependent_dependsOn x d :
  In x (keys nodes) -> hasDependent nodes x d -> dependsOn nodes d x.
Proof.
  intros Hx (node & Hin & Hdep). exists node.
  split; [now apply In_get_Some|]. split; [assumption|].
  now apply has_In_keys.
Qed.

Lemma hasDependent_trans x y :
  clos_trans string (hasDependent nodes) x y ->
  In y (keys nodes) /\
  (In x (keys nodes) -> clos_trans string (dependsOn nodes) y x).
Proof.
  induction 1 as [x y Hstep|x y z _ [Hy IH1] _ [Hz IH2]].
  - split; [now apply (hasDependent_key x)|].
    intros Hx. apply t_step. now apply hasDependent_dependsOn.
  - split; [assumption|]. intros Hx.
    eapply t_trans; [apply IH2; assumption | apply IH1; assumption].
Qed.

(** C9 (amended).  When [id] does not lie on a dependency cycle of the map,
    [getAncestors] and [getDescendants] both return a set that does not
    contain [id]. *)
Theorem closure_excludes_start :
  ~ onCycle nodes id ->
  (exists ancestors,
      getAncestors nodes id = Some ancestors /\ ~ In id ancestors) /\
  (exists descendants,
      getDescendants nodes id = Some descendants /\ ~ In id descendants).
Proof.
  intros Hacyc. split.
  - destruct getAncestors_spec as (s & Hs & Hin).
    exists s. split; [assumption|]. intros H. apply Hacyc. now apply Hin.
  - destruct getDescendants_spec as (s & Hs & Hin).
    exists s. split; [assumption|]. intros H. apply Hacyc.
    destruct (hasDependent_trans id id (Hin id H)) as [Hk Hp].
    exact (Hp Hk).
Qed.

End Closure.

(** The diamond has no cycle; neither closure of [d] contains [d]. *)
Lemma closure_excludes_start_witness :
  NoDup (keys Examples.diamond) /\
  ~ onCycle Examples.diamond "d" /\
  (exists ancestors,
      getAncestors Examples.diamond "d" = Some ancestors /\
      ~ In "d"%string ancestors) /\
  (exists descendants,
      getDescendants Examples.diamond "d" = Some descendants /\
      ~ In "d"%string descendants).
Proof.
  assert (Hnd : NoDup (keys Examples.diamond))
    by TraversalFacts.distinct_keys.
  assert (Hacyc : ~ onCycle Examples.diamond "d").
  { eapply TraversalFacts.returned_acyclic; [exact Hnd|].
    vm_compute. reflexivity. }
  split; [exact Hnd|]. split; [exact Hacyc|].
  exact (closure_excludes_start Examples.diamond "d" Hnd Hacyc).
Defined.

(** On a cycle the queried identifier is its own ancestor and its own descendant. *)
Lemma closure_includes_start_on_cycle :
  (exists ancestors,
      getAncestors Examples.cycleWithTail "a" = Some ancestors /\
      In "a"%string ancestors) /\
  (exists descendants,
      getDescendants Examples.cycleWithTail "a" = Some descendants /\
      In "a"%string descendants) /\
  getAncestors Examples.selfLoop "a" = Some ["a"]%string /\
  getDescendants Examples.selfLoop "a" = Some ["a"]%string.
Proof.
  split; [|split; [|split; vm_compute; reflexivity]];
    eexists; (split; [vm_compute; reflexivity|]); simpl; auto.
Qed.

End BuilderFacts.

(** ** The level executor *)

Module ExecutorFacts.
Import JsMap JsMapFacts Executor ExecSpec.

(** *** The test against the limit *)

Lemma sizeAtLeast_mono limit k m :
  k <= m -> sizeAtLeast k limit = true -> sizeAtLeast m limit = true.
Proof.
  intros Hle. destruct limit as [q| | |]; simpl; auto.
  rewrite !Qle_bool_iff. intros H. eapply Qle_trans; [exact H|].
  rewrite <- Zle_Qle. lia.
Qed.

Lemma sizeAtLeast_below limit k m :
  k <= m -> sizeAtLeast m limit = false -> sizeAtLeast k limit = false.
Proof.
  intros Hle Hm. destruct (sizeAtLeast k limit) eqn:Hk; [|reflexivity].
  now rewrite (sizeAtLeast_mono limit k m Hle Hk) in Hm.
Qed.

(** Below a finite limit the size is below its ceiling. *)
Lemma sizeAtLeast_ceiling q k :
  sizeAtLeast k (Finite q) = false -> (Z.of_nat k < Qceiling q)%Z.
Proof.
  simpl. intros H. rewrite Zlt_Qlt.
  apply Qlt_le_trans with q; [|apply Qle_ceiling].
  apply Qnot_le_lt. intros Hle. apply Qle_bool_iff in Hle. congruence.
Qed.

Section Machine.
Context {TData TOutput : Type}.
Variable processor : DAGNode TData -> @Outcome TData TOutput.
Variable options : @DAGExecutionOptions TData TOutput.

Local Abbreviation Obs := (@Observation TData TOutput).
Local Abbreviation fresh := (fun n : DAGNode TData => mkTask n false None).
Local Abbreviation work := (arrowOutcome processor options).

Lemma withinLimit_pred k : withinLimit options (S k) -> room options k.
Proof.
  intros [H|H]; [left; lia|]. right.
  now replace (S k - 1) with k in H by lia.
Qed.

Lemma room_within k : room options k -> withinLimit options k.
Proof.
  intros [->|H]; [left; lia|]. right.
  apply (sizeAtLeast_below _ (k - 1) k); [lia | assumption].
Qed.

Lemma room_succ k : room options k -> withinLimit options (S k).
Proof.
  intros [->|H]; [left; lia|]. right.
  now replace (S k - 1) with k by lia.
Qed.

Lemma atMost_one k :
  atMost options 1 -> withinLimit options k -> k <= 1.
Proof.
  intros Hone [H|H]; [assumption|].
  destruct (Nat.le_gt_cases k 1) as [?|Hgt]; [assumption|].
  rewrite (sizeAtLeast_mono _ 1 (k - 1)) in H by (assumption || lia).
  discriminate.
Qed.

Lemma atMost_room k : atMost options 1 -> room options k -> k = 0.
Proof.
  intros Hone [H|H]; [assumption|].
  destruct k as [|k]; [reflexivity|].
  rewrite (sizeAtLeast_mono _ 1 (S k)) in H by (assumption || lia).
  discriminate.
Qed.

(** *** The views of a trace *)

Lemma invoked_app (t1 t2 : list Obs) :
  invoked (t1 ++ t2) = invoked t1 ++ invoked t2.
Proof. apply flat_map_app. Qed.

Lemma started_app (t1 t2 : list Obs) :
  started (t1 ++ t2) = started t1 ++ started t2.
Proof. apply flat_map_app. Qed.

Lemma completed_app (t1 t2 : list Obs) :
  completed (t1 ++ t2) = completed t1 ++ completed t2.
Proof. apply flat_map_app. Qed.

Lemma skipped_app (t1 t2 : list Obs) :
  skipped (t1 ++ t2) = skipped t1 ++ skipped t2.
Proof. apply flat_map_app. Qed.

Lemma delivered_app (t1 t2 : list Obs) :
  delivered options (t1 ++ t2) = delivered options t1 ++ delivered options t2.
Proof. unfold delivered. now rewrite completed_app, filter_app. Qed.

Lemma delivered_completed (t : list Obs) r :
  In r (delivered options t) -> In r (completed t).
Proof. unfold delivered. intros H. now apply filter_In in H. Qed.

Lemma invoked_calls sent :
  invoked (flat_map (startCalls options) sent)
  = filter (startReturns options) sent.
Proof.
  induction sent as [|n sent IH]; [reflexivity|].
  cbn [flat_map filter]. rewrite invoked_app, IH.
  unfold startCalls, startReturns.
  now destruct (callStart options n).
Qed.

Lemma started_calls sent :
  started (flat_map (startCalls options) sent) = sent.
Proof.
  induction sent as [|n sent IH]; [reflexivity|].
  cbn [flat_map]. rewrite started_app, IH.
  unfold startCalls. now destruct (callStart options n).
Qed.

Lemma completed_calls sent :
  completed (flat_map (startCalls options) sent) = [].
Proof.
  induction sent as [|n sent IH]; [reflexivity|].
  cbn [flat_map]. rewrite completed_app, IH.
  unfold startCalls. now destruct (callStart options n).
Qed.

Lemma delivered_calls sent :
  delivered options (flat_map (startCalls options) sent) = [].
Proof. unfold delivered. now rewrite completed_calls. Qed.

Lemma skipped_calls sent :
  skipped (flat_map (startCalls options) sent) = [].
Proof.
  induction sent as [|n sent IH]; [reflexivity|].
  cbn [flat_map]. rewrite skipped_app, IH.
  unfold startCalls. now destruct (callStart options n).
Qed.

Lemma filter_all {A} (f : A -> bool) (l : list A) :
  (forall a, In a l -> f a = true) -> filter f l = l.
Proof.
  induction l as [|a l IH]; intros H; simpl; [reflexivity|].
  rewrite (H a) by now left. f_equal. apply IH. intros b Hb. apply H.
  now right.
Qed.

(** *** The arrow function *)

Lemma arrow_Fulfilled n r :
  work n = Fulfilled r ->
  callStart options n = None /\ processor n = Fulfilled r /\
  callComplete options r = None.
Proof.
  unfold arrowOutcome.
  destruct (callStart options n); [discriminate|].
  destruct (processor n) as [r'|]; [|discriminate].
  destruct (callComplete options r') eqn:Hc; [discriminate|].
  intros [= <-]. auto.
Qed.

Lemma arrow_startReturns n r :
  work n = Fulfilled r -> startReturns options n = true.
Proof.
  intros H. apply arrow_Fulfilled in H. unfold startReturns.
  now destruct H as (-> & _).
Qed.

Lemma arrow_answers :
  answersForNode processor -> answersForNode work.
Proof.
  intros Hans n r H. apply arrow_Fulfilled in H. apply Hans. apply H.
Qed.

(** When every promise of the arrow function fulfils, the arrow function
    and the work function agree. *)
Lemma arrow_map (l : list (DAGNode TData)) rs :
  Permutation (map work l) (map Fulfilled rs) ->
  map work l = map processor l.
Proof.
  intros Hp. apply map_ext_in. intros n Hn.
  assert (H : In (work n) (map Fulfilled rs)).
  { eapply Permutation_in; [exact Hp | now apply in_map]. }
  apply in_map_iff in H. destruct H as (r & Hr & _).
  symmetry in Hr. rewrite Hr. symmetry. now apply arrow_Fulfilled in Hr.
Qed.

Lemma settle_fulfilled (t : @Task TData) r :
  t_skipped t = false -> work (t_node t) = Fulfilled r ->
  completionCalls processor options t = [OnNodeComplete r] /\
  delivered options [@OnNodeComplete TData TOutput r] = [r].
Proof.
  intros Hs H. apply arrow_Fulfilled in H. destruct H as (H1 & H2 & H3).
  unfold completionCalls, delivered, completeReturns. simpl.
  now rewrite Hs, H1, H2, H3.
Qed.

Lemma settle_rejected (t : @Task TData) reason :
  t_skipped t = false -> work (t_node t) = Rejected reason ->
  started (completionCalls processor options t) = [] /\
  invoked (completionCalls processor options t) = [] /\
  skipped (completionCalls processor options t) = [] /\
  delivered options (completionCalls processor options t) = [] /\
  forall r,
    In r (completed (completionCalls processor options t)) ->
    callStart options (t_node t) = None /\
    processor (t_node t) = Fulfilled r /\
    callComplete options r = Some reason.
Proof.
  intros Hs. unfold arrowOutcome, completionCalls. rewrite Hs.
  destruct (callStart options (t_node t)); [simpl; intuition|].
  destruct (processor (t_node t)) as [r'|]; [|simpl; intuition].
  destruct (callComplete options r') eqn:Hc; [|discriminate].
  intros [= ->]. unfold delivered, completeReturns. simpl. rewrite Hc.
  repeat split; auto; destruct H as [<-|[]]; auto.
Qed.

(** The calls of a settling task are calls of the work function on a node
    that was called. *)
Lemma completion_invoked (t : @Task TData) (trace : list Obs) r :
  t_skipped t = false ->
  In (t_node t) (started trace) ->
  invoked trace = filter (startReturns options) (started trace) ->
  In r (completed (completionCalls processor options t)) ->
  In (t_node t) (invoked trace) /\ processor (t_node t) = Fulfilled r.
Proof.
  intros Hs Hin Hinv. unfold completionCalls. rewrite Hs.
  destruct (callStart options (t_node t)) eqn:Hc; [intros []|].
  destruct (processor (t_node t)) as [r'|]; [|intros []].
  intros [<-|[]]. split; [|reflexivity].
  rewrite Hinv. apply filter_In. split; [assumption|].
  unfold startReturns. now rewrite Hc.
Qed.

(** *** The dispatch loop *)

Lemma dispatch_spec items :
  forall executing trace items' executing' trace' a,
    dispatch options false items executing trace
    = (items', executing', trace', a) ->
    exists sent,
      items = sent ++ items' /\
      executing' = executing ++ map fresh sent /\
      trace' = trace ++ flat_map (startCalls options) sent /\
      (forall rejected, a = All rejected -> items' = []) /\
      a <> Race Won /\
      (room options (length executing) ->
       withinLimit options (length executing')).
Proof.
  induction items as [|item items IH];
    intros executing trace items' executing' trace' a Hd; simpl in Hd.
  - injection Hd as <- <- <- <-. exists []. simpl. rewrite !app_nil_r.
    repeat split; auto; [discriminate | apply room_within].
  - destruct (sizeAtLeast (length (executing ++ [fresh item]))
                          (limitOf options)) eqn:Elim.
    + injection Hd as <- <- <- <-. exists [item]. simpl.
      rewrite app_nil_r.
      repeat split; auto.
      * discriminate.
      * unfold raceOf. destruct (firstRejection _); discriminate.
      * rewrite length_app. simpl. rewrite Nat.add_1_r. apply room_succ.
    + apply IH in Hd.
      destruct Hd as (sent & -> & -> & -> & Hall & Hwon & Hb).
      exists (item :: sent). split; [reflexivity|].
      split; [simpl; now rewrite <- app_assoc|].
      split; [simpl; now rewrite <- !app_assoc|].
      split; [exact Hall|]. split; [exact Hwon|].
      intros Hroom.
      replace (executing ++ map fresh (item :: sent))
        with ((executing ++ [fresh item]) ++ map fresh sent)
        by (simpl; now rewrite <- app_assoc).
      apply Hb. now right.
Qed.

(** *** Recording the results of a level *)

Lemma failedIds_app (rs1 rs2 : list (@NodeResult TData TOutput)) :
  failedIds (rs1 ++ rs2) = failedIds rs1 ++ failedIds rs2.
Proof. unfold failedIds. now rewrite filter_app, map_app. Qed.

Lemma recordAll_app (rs1 rs2 : list (@NodeResult TData TOutput)) m :
  recordAll (rs1 ++ rs2) m = recordAll rs2 (recordAll rs1 m).
Proof. apply fold_left_app. Qed.

Lemma recordResult_fold (rs : list (@NodeResult TData TOutput)) :
  forall m failed stop,
    fold_left (recordResult options) rs (m, failed, stop)
    = (recordAll rs m, failed ++ failedIds rs,
       if failFastOf options && existsb (fun r => negb (success r)) rs
       then true else stop).
Proof.
  induction rs as [|r rs IH]; intros m failed stop; cbn [fold_left].
  - simpl. rewrite app_nil_r, andb_false_r. reflexivity.
  - unfold recordResult at 2. unfold failedIds, recordAll. simpl.
    destruct (success r); simpl.
    + rewrite IH. reflexivity.
    + rewrite IH. unfold failedIds, recordAll. rewrite <- app_assoc. simpl.
      f_equal. destruct (failFastOf options); simpl; [|reflexivity].
      now destruct (existsb _ rs).
Qed.

Lemma failedIds_nil (rs : list (@NodeResult TData TOutput)) :
  failedIds rs <> [] -> existsb (fun r => negb (success r)) rs = true.
Proof.
  unfold failedIds. induction rs as [|r rs IH]; simpl; [congruence|].
  destruct (success r); simpl; auto.
Qed.

(** *** The set [executing] *)

Lemma removeNth_perm {A B} (f : A -> B) (l : list A) :
  forall i a,
    nth_error l i = Some a ->
    Permutation (map f l) (f a :: map f (removeNth i l)) /\
    S (length (removeNth i l)) = length l /\
    forall P : A -> Prop, Forall P l -> Forall P (removeNth i l).
Proof.
  induction l as [|b l IH]; intros [|i] a Hn; simpl in *; try discriminate.
  - injection Hn as ->. split; [reflexivity|]. split; [reflexivity|].
    intros P HP. now inversion HP.
  - destruct (IH i a Hn) as (Hp & Hl & HF). split; [|split].
    + rewrite Hp. apply perm_swap.
    + now rewrite Hl.
    + intros P HP. inversion HP; subst. constructor; auto.
Qed.

Lemma rejectNth_spec reason (l : list (@Task TData)) :
  forall i,
    map t_node (rejectNth i reason l) = map t_node l /\
    map t_skipped (rejectNth i reason l) = map t_skipped l /\
    length (rejectNth i reason l) = length l.
Proof.
  induction l as [|t l IH]; intros [|i]; simpl; auto.
  destruct (IH i) as (-> & -> & ->). auto.
Qed.

Lemma Forall_map_eq {A B} (f : A -> B) (P : B -> Prop) (l l' : list A) :
  map f l = map f l' -> Forall (fun a => P (f a)) l ->
  Forall (fun a => P (f a)) l'.
Proof.
  revert l'. induction l as [|a l IH]; intros [|a' l'] Hm HF;
    simpl in Hm; try discriminate; constructor.
  - inversion HF; subst. injection Hm as <- _. assumption.
  - inversion HF; subst. injection Hm as _ Hm. auto.
Qed.

(** *** The invariant *)

Variable dag : DependencyDAG TData.
Local Abbreviation Inv := (ExecInv processor options dag).

Lemma running_quiet st :
  Inv st -> (forall r, s_status st <> Done (Return r)) ->
  s_shouldStop st = false /\
  (failFastOf options = true -> s_failedNodes st = []).
Proof.
  intros I Hrun. split.
  - destruct (s_shouldStop st) eqn:E; [|reflexivity].
    destruct (e_stop _ _ _ _ I E) as (r & Hr). now apply Hrun in Hr.
  - intros Hff. destruct (s_failedNodes st) eqn:E; [reflexivity|].
    destruct (e_failfast _ _ _ _ I Hff) as (r & Hr); [congruence|].
    now apply Hrun in Hr.
Qed.

Lemma finish_inv st :
  Between processor options dag st -> Inv (finish st).
Proof.
  intros B.
  destruct B as [Hi He Hl (done & Hd & Hinv) Hs Hk Ho Hc Hr Hf Hff].
  constructor; simpl.
  - exists done. rewrite Hi, app_nil_r. auto.
  - assumption.
  - assumption.
  - rewrite He. constructor.
  - rewrite He. constructor.
  - eauto.
  - rewrite He. simpl. now rewrite app_nil_r.
  - assumption.
  - exists (delivered options (s_trace st)). rewrite Hl, app_nil_r. auto.
  - rewrite He. simpl. split; [left; lia | discriminate].
  - eauto.
  - discriminate.
  - intros r [= <-]. auto.
Qed.

Lemma started_state (st : @State TData TOutput) level rest
  items' executing' trace' a :
  Between processor options dag st ->
  s_levels st = level :: rest -> s_shouldStop st = false ->
  dispatch options false level [] (s_trace st)
  = (items', executing', trace', a) ->
  Inv (mkState rest items' executing' [] (s_results st) (s_failedNodes st)
               (s_shouldStop st) trace' (Suspended a)).
Proof.
  intros B Hlv Hstop Hd.
  destruct B as [Hi He Hl (done & Hdone & Hinv) Hs Hk Ho Hc Hr Hf Hff].
  destruct (dispatch_spec _ _ _ _ _ _ _ Hd)
    as (sent & -> & -> & -> & Hall & Hwon & Hb).
  constructor; simpl.
  - exists (done ++ [sent ++ items']). split.
    + rewrite Hdone, Hlv, <- app_assoc. reflexivity.
    + rewrite started_app, started_calls, concat_app, Hinv. simpl.
      now rewrite app_nil_r, app_assoc.
  - now rewrite started_app, invoked_app, started_calls, invoked_calls,
      filter_app, Hs.
  - now rewrite skipped_app, skipped_calls, Hk.
  - apply Forall_forall. intros t Ht. apply in_map_iff in Ht.
    now destruct Ht as (n & <- & _).
  - apply Forall_forall. intros t Ht. apply in_map_iff in Ht.
    destruct Ht as (n & <- & Hn). simpl.
    rewrite started_app, started_calls. apply in_or_app. now right.
  - congruence.
  - rewrite started_app, delivered_app, started_calls, delivered_calls.
    rewrite app_nil_r, map_app, map_map. simpl.
    now apply Permutation_app_tail.
  - intros r Hin. rewrite completed_app, completed_calls, app_nil_r in Hin.
    destruct (Hc r Hin) as (n & Hn & Hp). exists n. split; [|assumption].
    rewrite invoked_app. apply in_or_app. now left.
  - exists (delivered options (s_trace st)).
    rewrite delivered_app, delivered_calls, !app_nil_r. auto.
  - split; [apply Hb; now left | congruence].
  - intros Hff' Hne. apply Hff in Hne; [congruence | assumption].
  - intros rejected [= ->]. eapply Hall. reflexivity.
  - discriminate.
Qed.

Lemma nextLevel_inv st :
  Between processor options dag st -> Inv (nextLevel options st).
Proof.
  intros B. unfold nextLevel.
  destruct (s_levels st) as [|level rest] eqn:Hlv; [now apply finish_inv|].
  destruct (s_shouldStop st) eqn:Hstop; [now apply finish_inv|].
  destruct (dispatch options false level [] (s_trace st))
    as [[[items' executing'] trace'] a] eqn:Hd.
  rewrite <- Hstop. eapply started_state; eassumption.
Qed.

Lemma executeDAG_inv : Inv (executeDAG options dag).
Proof.
  apply nextLevel_inv. constructor; simpl; auto.
  - exists []. auto.
  - intros r [].
Qed.

Lemma completeLevel_inv st :
  Inv st -> s_status st = Suspended (All None) -> s_executing st = [] ->
  Inv (completeLevel options st).
Proof.
  intros I Hst He. unfold completeLevel. rewrite recordResult_fold.
  apply nextLevel_inv.
  destruct (running_quiet st I) as [Hstop Hquiet]; [rewrite Hst; discriminate|].
  destruct (e_levels _ _ _ _ I) as (done & Hdone & Hinv).
  destruct (e_recorded _ _ _ _ I) as (recorded & Hc & Hr & Hf).
  pose proof (e_all _ _ _ _ I None Hst) as Hitems.
  constructor; simpl; auto.
  - exists done. rewrite Hitems, app_nil_r in Hinv. auto.
  - apply I.
  - apply I.
  - pose proof (e_outcomes _ _ _ _ I) as Ho.
    rewrite He in Ho. simpl in Ho. now rewrite app_nil_r in Ho.
  - apply I.
  - now rewrite Hc, recordAll_app, Hr.
  - now rewrite Hc, failedIds_app, Hf.
  - intros Hff Hne. rewrite Hff. simpl.
    rewrite (Hquiet Hff) in Hne. simpl in Hne.
    now rewrite (failedIds_nil _ Hne).
Qed.

Lemma resumeLoop_inv st :
  Inv st -> s_status st = Suspended (Race Won) -> Inv (resumeLoop options st).
Proof.
  intros I Hst. unfold resumeLoop.
  destruct (running_quiet st I) as [Hstop Hquiet]; [rewrite Hst; discriminate|].
  rewrite Hstop.
  destruct (dispatch options false (s_items st) (s_executing st) (s_trace st))
    as [[[items' executing'] trace'] a] eqn:Hd.
  destruct (dispatch_spec _ _ _ _ _ _ _ Hd)
    as (sent & Hitems & -> & -> & Hall & Hwon & Hb).
  destruct (e_levels _ _ _ _ I) as (done & Hdone & Hinv).
  destruct (e_recorded _ _ _ _ I) as (recorded & Hc & Hr & Hf).
  constructor; simpl.
  - exists done. split; [assumption|].
    rewrite started_app, started_calls, <- app_assoc, <- Hitems. assumption.
  - rewrite started_app, invoked_app, started_calls, invoked_calls,
      filter_app.
    now rewrite (e_invoked _ _ _ _ I).
  - now rewrite skipped_app, skipped_calls, (e_noskip _ _ _ _ I).
  - apply Forall_app. split; [apply I|].
    apply Forall_forall. intros t Ht. apply in_map_iff in Ht.
    now destruct Ht as (n & <- & _).
  - rewrite started_app, started_calls. apply Forall_app. split.
    + eapply Forall_impl; [|apply (e_flight _ _ _ _ I)].
      intros t Ht. apply in_or_app. now left.
    + apply Forall_forall. intros t Ht. apply in_map_iff in Ht.
      destruct Ht as (n & <- & Hn). apply in_or_app. now right.
  - discriminate.
  - rewrite started_app, delivered_app, started_calls, delivered_calls.
    rewrite app_nil_r, !map_app, map_map. simpl.
    rewrite app_assoc. apply Permutation_app_tail. apply I.
  - intros r Hin. rewrite completed_app, completed_calls, app_nil_r in Hin.
    destruct (e_completed _ _ _ _ I r Hin) as (n & Hn & Hp).
    exists n. split; [|assumption].
    rewrite invoked_app. apply in_or_app. now left.
  - exists recorded. rewrite delivered_app, delivered_calls, app_nil_r. auto.
  - split; [|congruence]. apply Hb. now apply (e_bound _ _ _ _ I).
  - intros Hff Hne. now rewrite (Hquiet Hff) in Hne.
  - intros rejected [= ->]. eapply Hall. reflexivity.
  - discriminate.
Qed.

Lemma throw_inv st reason a :
  Inv st -> s_status st = Suspended a -> Inv (throw reason st).
Proof.
  intros I Hst.
  destruct (running_quiet st I) as [Hstop Hquiet]; [rewrite Hst; discriminate|].
  constructor; simpl; try apply I; try discriminate.
  - congruence.
  - split; [apply I | discriminate].
  - intros Hff Hne. now rewrite (Hquiet Hff) in Hne.
Qed.

Lemma settle_inv st i a st' :
  Inv st -> s_status st = Suspended a ->
  settle processor options i a st = Some st' -> Inv st'.
Proof.
  intros I Hst Hs. unfold settle in Hs.
  destruct (running_quiet st I) as [Hstop Hquiet]; [rewrite Hst; discriminate|].
  destruct (nth_error (s_executing st) i) as [task|] eqn:Hn; [|discriminate].
  destruct (t_rejected task); [discriminate|].
  assert (Hskip : t_skipped task = false).
  { pose proof (e_tasks _ _ _ _ I) as HF. rewrite Forall_forall in HF.
    apply HF. eapply nth_error_In. eassumption. }
  assert (Hfl : In (t_node task) (started (s_trace st))).
  { pose proof (e_flight _ _ _ _ I) as HF. rewrite Forall_forall in HF.
    apply HF. eapply nth_error_In. eassumption. }
  unfold taskOutcome in Hs. rewrite Hskip in Hs.
  destruct (e_levels _ _ _ _ I) as (done & Hdone & Hinv).
  destruct (e_recorded _ _ _ _ I) as (recorded & Hc & Hr & Hf).
  destruct (work (t_node task)) as [result|reason] eqn:Hp;
    injection Hs as <-.
  - destruct (settle_fulfilled task result Hskip Hp) as [-> Hdel].
    destruct (removeNth_perm (fun t => work (t_node t)) _ _ _ Hn)
      as (Hperm & Hlen & HF).
    constructor; simpl.
    + exists done. now rewrite started_app, app_nil_r.
    + rewrite started_app, invoked_app. simpl. rewrite !app_nil_r. apply I.
    + rewrite skipped_app. simpl. rewrite app_nil_r. apply I.
    + apply HF. apply I.
    + rewrite started_app. simpl. rewrite app_nil_r. apply HF. apply I.
    + congruence.
    + rewrite started_app, delivered_app, Hdel. simpl. rewrite app_nil_r.
      rewrite (e_outcomes _ _ _ _ I), Hperm, Hp, map_app. simpl.
      rewrite <- app_assoc. simpl. reflexivity.
    + intros r Hin. rewrite completed_app in Hin.
      rewrite invoked_app. simpl. rewrite app_nil_r.
      apply in_app_or in Hin. destruct Hin as [Hin|[<-|[]]].
      * now apply (e_completed _ _ _ _ I).
      * exists (t_node task). split; [|now apply arrow_Fulfilled in Hp].
        rewrite (e_invoked _ _ _ _ I). apply filter_In.
        split; [assumption | now apply arrow_startReturns in Hp].
    + exists recorded. rewrite delivered_app, Hdel, Hc.
      now rewrite <- app_assoc.
    + destruct (e_bound _ _ _ _ I) as [Hb _]. rewrite <- Hlen in Hb.
      apply withinLimit_pred in Hb.
      split; [now apply room_within | auto].
    + intros Hff Hne. now rewrite (Hquiet Hff) in Hne.
    + intros rejected Ha. apply (e_all _ _ _ _ I rejected). rewrite Hst.
      destruct a as [[| |]|]; congruence.
    + discriminate.
  - destruct (rejectNth_spec reason (s_executing st) i) as (Hnodes & Hskips & Hlen).
    destruct (settle_rejected task reason Hskip Hp)
      as (Hs0 & Hi0 & Hk0 & Hd0 & Hc0).
    constructor; simpl.
    + exists done. now rewrite started_app, Hs0, app_nil_r.
    + rewrite started_app, invoked_app, Hs0, Hi0, !app_nil_r. apply I.
    + rewrite skipped_app, Hk0, app_nil_r. apply I.
    + apply (Forall_map_eq t_skipped (fun b => b = false) (s_executing st));
        [now symmetry | apply I].
    + rewrite started_app, Hs0, app_nil_r.
      apply (Forall_map_eq t_node
               (fun n => In n (started (s_trace st))) (s_executing st));
        [now symmetry | apply I].
    + congruence.
    + rewrite started_app, delivered_app, Hs0, Hd0, !app_nil_r.
      rewrite <- (map_map t_node work), Hnodes, map_map. apply I.
    + intros r Hin. rewrite completed_app in Hin.
      rewrite invoked_app, Hi0, app_nil_r.
      apply in_app_or in Hin. destruct Hin as [Hin|Hin].
      * now apply (e_completed _ _ _ _ I).
      * exists (t_node task).
        apply (completion_invoked task (s_trace st) r); auto. apply I.
    + exists recorded. now rewrite delivered_app, Hd0, app_nil_r.
    + rewrite Hlen. destruct (e_bound _ _ _ _ I) as [Hb Hw].
      split; [assumption|]. intros Ha. apply Hw. rewrite Hst.
      destruct a as [[| |]|[|]]; congruence.
    + intros Hff Hne. now rewrite (Hquiet Hff) in Hne.
    + intros rejected Ha. destruct a as [[| |]|[r0|]]; try discriminate;
        now apply (e_all _ _ _ _ I _ Hst).
    + discriminate.
Qed.

Lemma step_inv st e st' :
  Inv st -> step processor options st e = Some st' -> Inv st'.
Proof.
  intros I Hs. unfold step in Hs.
  destruct (s_status st) as [a|c] eqn:Hst.
  2:{ destruct e; discriminate. }
  destruct e as [i|].
  - assert (Hs' : settle processor options i a st = Some st')
      by (destruct a as [[| |?]|[?|]]; exact Hs).
    eapply settle_inv; eassumption.
  - destruct a as [[| |reason]|[reason|]]; try discriminate.
    + injection Hs as <-. now apply resumeLoop_inv.
    + injection Hs as <-. eapply throw_inv; eassumption.
    + injection Hs as <-. eapply throw_inv; eassumption.
    + destruct (s_executing st) eqn:He; [|discriminate].
      injection Hs as <-. now apply completeLevel_inv.
Qed.

Lemma run_inv events :
  forall st st',
    Inv st -> run processor options st events = Some st' -> Inv st'.
Proof.
  induction events as [|e events IH]; intros st st' I Hr; simpl in Hr.
  - now injection Hr as <-.
  - destruct (step processor options st e) as [st1|] eqn:Hs; [|discriminate].
    eapply IH; [|eassumption]. eapply step_inv; eassumption.
Qed.

Lemma reachable_inv st : reachable processor options dag st -> Inv st.
Proof.
  intros (events & Hr). eapply run_inv; [apply executeDAG_inv | eassumption].
Qed.

(** *** What a state holds about the results map *)

Lemma recordAll_keys (rs : list (@NodeResult TData TOutput)) :
  forall m k,
    In k (keys (recordAll rs m)) ->
    In k (keys m) \/ In k (map (fun r => id (node r)) rs).
Proof.
  unfold recordAll.
  induction rs as [|r rs IH]; intros m k Hk; simpl in *; [now left|].
  apply IH in Hk. destruct Hk as [Hk|Hk]; [|auto].
  apply get_In_keys in Hk. rewrite get_set in Hk.
  destruct (String.eqb_spec (id (node r)) k) as [->|Hne]; [auto|].
  left. now apply get_In_keys.
Qed.

Lemma recordAll_values (rs : list (@NodeResult TData TOutput)) :
  forall m k r,
    get (recordAll rs m) k = Some r -> In r rs \/ get m k = Some r.
Proof.
  unfold recordAll.
  induction rs as [|r0 rs IH]; intros m k r Hg; simpl in *; [now right|].
  apply IH in Hg. destruct Hg as [Hg|Hg]; [auto|].
  rewrite get_set in Hg.
  destruct (String.eqb (id (node r0)) k); [injection Hg as ->|]; auto.
Qed.

Lemma recordAll_get (rs : list (@NodeResult TData TOutput)) r :
  NoDup (map (fun r => id (node r)) rs) -> In r rs ->
  get (recordAll rs []) (id (node r)) = Some r.
Proof.
  induction rs as [|r0 rs IH] using rev_ind; intros Hnd Hin; [destruct Hin|].
  rewrite recordAll_app. simpl. rewrite get_set.
  rewrite map_app in Hnd. simpl in Hnd.
  apply in_app_or in Hin. destruct Hin as [Hin|[->|[]]].
  - destruct (String.eqb_spec (id (node r0)) (id (node r))) as [Heq|Hne].
    + exfalso. apply NoDup_remove_2 in Hnd. rewrite app_nil_r in Hnd.
      apply Hnd. rewrite Heq.
      now apply (in_map (fun r => id (node r))).
    + apply IH; [|assumption]. now apply NoDup_app_remove_r in Hnd.
  - now rewrite String.eqb_refl.
Qed.

(** A state with no task in flight: every arrow function has returned, so
    no callback threw. *)
Section Quiet.
Variable st : @State TData TOutput.
Hypothesis I : Inv st.
Hypothesis no_tasks : s_executing st = [].

Lemma quiet_arrows :
  Permutation (map work (started (s_trace st)))
              (map Fulfilled (delivered options (s_trace st))).
Proof.
  pose proof (e_outcomes _ _ _ _ I) as Ho.
  rewrite no_tasks in Ho. simpl in Ho. now rewrite app_nil_r in Ho.
Qed.

Lemma quiet_started n :
  In n (started (s_trace st)) -> exists r, work n = Fulfilled r.
Proof.
  intros Hn.
  assert (H : In (work n) (map Fulfilled (delivered options (s_trace st)))).
  { eapply Permutation_in; [apply quiet_arrows | now apply in_map]. }
  apply in_map_iff in H. destruct H as (r & Hr & _). eauto.
Qed.

Lemma quiet_invoked : invoked (s_trace st) = started (s_trace st).
Proof.
  rewrite (e_invoked _ _ _ _ I). apply filter_all. intros n Hn.
  destruct (quiet_started n Hn) as (r & Hr).
  now apply arrow_startReturns in Hr.
Qed.

Lemma quiet_delivered :
  delivered options (s_trace st) = completed (s_trace st).
Proof.
  apply filter_all. intros r Hr.
  destruct (e_completed _ _ _ _ I r Hr) as (n & Hn & Hp).
  rewrite quiet_invoked in Hn.
  destruct (quiet_started n Hn) as (r' & Hr').
  apply arrow_Fulfilled in Hr'. destruct Hr' as (_ & Hp' & Hc).
  rewrite Hp in Hp'. injection Hp' as <-.
  unfold completeReturns. now rewrite Hc.
Qed.

Lemma rest_outcomes :
  Permutation (map processor (invoked (s_trace st)))
              (map Fulfilled (completed (s_trace st))).
Proof.
  rewrite quiet_invoked, <- quiet_delivered.
  rewrite <- (arrow_map _ _ quiet_arrows). apply quiet_arrows.
Qed.

End Quiet.

Section AtRest.
Variable st : @State TData TOutput.
Hypothesis I : Inv st.
Hypothesis no_items : s_items st = [].
Hypothesis no_tasks : s_executing st = [].
Hypothesis no_pending : s_levelResults st = [].
Hypothesis distinct : distinctIds dag.
Hypothesis answers : answersForNode processor.

Lemma rest_levels :
  exists done,
    levels dag = done ++ s_levels st /\ invoked (s_trace st) = concat done.
Proof.
  destruct (e_levels _ _ _ _ I) as (done & Hd & Hi).
  exists done. rewrite no_items, app_nil_r in Hi.
  now rewrite (quiet_invoked st I no_tasks).
Qed.

Lemma rest_ids :
  NoDup (map id (invoked (s_trace st)) ++ map id (concat (s_levels st))).
Proof.
  destruct rest_levels as (done & Hd & Hi). unfold distinctIds in distinct.
  now rewrite Hd, concat_app, map_app, <- Hi in distinct.
Qed.

Lemma rest_results : s_results st = recordAll (completed (s_trace st)) [].
Proof.
  destruct (e_recorded _ _ _ _ I) as (recorded & Hc & Hr & _).
  rewrite no_pending, app_nil_r in Hc.
  rewrite <- (quiet_delivered st I no_tasks). congruence.
Qed.

Lemma rest_failed : s_failedNodes st = failedIds (completed (s_trace st)).
Proof.
  destruct (e_recorded _ _ _ _ I) as (recorded & Hc & _ & Hf).
  rewrite no_pending, app_nil_r in Hc.
  rewrite <- (quiet_delivered st I no_tasks). congruence.
Qed.

(** No item of a level that was not started has been dispatched. *)
Lemma rest_unstarted n :
  In n (concat (s_levels st)) -> ~ In (id n) (map id (invoked (s_trace st))).
Proof.
  intros Hn Hin. eapply TraversalFacts.NoDup_app_disjoint;
    [apply rest_ids | exact Hin | now apply in_map].
Qed.

Lemma rest_completed r :
  In r (completed (s_trace st)) ->
  In (node r) (invoked (s_trace st)) /\ processor (node r) = Fulfilled r.
Proof.
  intros Hin.
  assert (H : In (Fulfilled r) (map processor (invoked (s_trace st)))).
  { eapply Permutation_in; [symmetry; apply (rest_outcomes st I no_tasks)|].
    now apply in_map. }
  apply in_map_iff in H. destruct H as (n & Hn & Hin').
  rewrite (answers n r Hn). auto.
Qed.

Lemma rest_keys :
  map (fun r => id (node r)) (completed (s_trace st))
  = map id (map (@node TData TOutput) (completed (s_trace st))).
Proof. now rewrite map_map. Qed.

Lemma rest_nodes :
  Permutation (map (@node TData TOutput) (completed (s_trace st)))
              (invoked (s_trace st)).
Proof.
  pose proof (rest_outcomes st I no_tasks) as Ho.
  assert (Hmap : forall rs : list (@NodeResult TData TOutput),
             (forall r, In r rs -> processor (node r) = Fulfilled r) ->
             map Fulfilled rs = map processor (map (@node TData TOutput) rs)).
  { intros rs Hrs. rewrite map_map. apply map_ext_in. intros r Hr.
    symmetry. auto. }
  rewrite Hmap in Ho by (intros r Hr; now apply rest_completed).
  symmetry in Ho. apply Permutation_map_inv in Ho.
  destruct Ho as (l3 & Hl3 & Hperm).
  assert (Hinj : forall l1 l2 : list (DAGNode TData),
             (forall n, In n l1 -> exists r, processor n = Fulfilled r) ->
             map processor l1 = map processor l2 -> l1 = l2).
  { induction l1 as [|n l1 IH]; intros [|m l2] Hf Hm; simpl in Hm;
      try discriminate; [reflexivity|].
    injection Hm as Hnm Hm. f_equal.
    - destruct (Hf n) as (r & Hr); [now left|].
      rewrite Hr in Hnm. symmetry in Hnm.
      now rewrite <- (answers n r Hr), <- (answers m r Hnm).
    - apply IH; [|assumption]. intros n' Hn'. apply Hf. now right. }
  assert (Heq : map (@node TData TOutput) (completed (s_trace st)) = l3).
  { apply Hinj; [|assumption]. intros n Hn. apply in_map_iff in Hn.
    destruct Hn as (r & <- & Hr). exists r. now apply rest_completed. }
  rewrite Heq. now symmetry.
Qed.

Lemma rest_entry n :
  In n (invoked (s_trace st)) ->
  exists r, processor n = Fulfilled r /\ get (s_results st) (id n) = Some r.
Proof.
  intros Hn.
  assert (Hin : In n (map (@node TData TOutput) (completed (s_trace st)))).
  { eapply Permutation_in; [symmetry; apply rest_nodes | assumption]. }
  apply in_map_iff in Hin. destruct Hin as (r & <- & Hr).
  exists r. split; [now apply rest_completed|].
  rewrite rest_results. apply recordAll_get; [|assumption].
  rewrite rest_keys.
  eapply Permutation_NoDup.
  - symmetry. apply Permutation_map. apply rest_nodes.
  - eapply NoDup_app_remove_r. apply rest_ids.
Qed.

Lemma rest_unreached n :
  In n (concat (s_levels st)) -> get (s_results st) (id n) = None.
Proof.
  intros Hn. apply get_None_keys. rewrite rest_results. intros Hk.
  apply recordAll_keys in Hk. destruct Hk as [[]|Hk].
  apply (rest_unstarted n Hn). rewrite rest_keys in Hk.
  eapply Permutation_in; [apply Permutation_map, rest_nodes | exact Hk].
Qed.

End AtRest.

(** *** The claims about [executeDAG] *)

Lemma done_terminal (st : @State TData TOutput) c e :
  s_status st = Done c -> step processor options st e = None.
Proof.
  intros Hst. unfold step. rewrite Hst. now destruct e.
Qed.

(** In every reachable state the set [executing] holds one task, or it got
    its last task at a size below the limit. *)
Lemma in_flight_within st :
  reachable processor options dag st -> withinLimit options (inFlight st).
Proof.
  intros Hr. apply reachable_inv in Hr. apply Hr.
Qed.

(** C4 (amended).  For a finite concurrency limit [q], at every suspension
    point of [executeDAG] the number of tasks that were dispatched and have
    not resolved is at most the larger of 1 and the limit rounded up; so
    for a limit that is a whole number [N >= 1] it is at most [N].  Between
    two suspension points the code only adds tasks up to the next [await],
    so the bound holds throughout. *)
Theorem in_flight_bounded st q :
  limitOf options = Finite q ->
  reachable processor options dag st ->
  (Z.of_nat (inFlight st) <= Z.max (Qceiling q) 1)%Z /\
  forall N : Z,
    (1 <= N)%Z -> (q == inject_Z N)%Q ->
    (Z.of_nat (inFlight st) <= N)%Z.
Proof.
  intros Hlimit Hr. pose proof (in_flight_within st Hr) as Hb.
  unfold withinLimit in Hb. rewrite Hlimit in Hb.
  assert (Hceil : (Z.of_nat (inFlight st) <= Z.max (Qceiling q) 1)%Z).
  { destruct Hb as [Hb|Hb]; [lia|].
    apply sizeAtLeast_ceiling in Hb. lia. }
  split; [exact Hceil|].
  intros N HN Hq. rewrite (Qceiling_comp _ _ Hq), Qceiling_Z in Hceil. lia.
Qed.

(** C5 (amended).  With fail-fast enabled, when the last task of a level
    has resolved and the level holds an unsuccessful result, the next step
    of [executeDAG] returns: the trace is unchanged (no callback, no work
    invocation, no synthetic skip), the levels not yet started stay
    unstarted and no further step exists.  When the items of the levels have
    distinct identifiers, no item of those levels was dispatched or invoked;
    when moreover the work function answers for the node it is given, no
    item of those levels has an entry in the results map. *)
Theorem fail_fast_stops st :
  failFastOf options = true ->
  reachable processor options dag st ->
  s_status st = Suspended (All None) -> s_executing st = [] ->
  (exists r, In r (s_levelResults st) /\ success r = false) ->
  exists st' result,
    step processor options st Wake = Some st' /\
    s_status st' = Done (Return result) /\
    dag_success result = false /\
    s_shouldStop st' = true /\
    s_levels st' = s_levels st /\
    s_trace st' = s_trace st /\
    skipped (s_trace st') = [] /\
    (forall e, step processor options st' e = None) /\
    (distinctIds dag ->
     forall n,
       In n (concat (s_levels st')) ->
       ~ In n (invoked (s_trace st')) /\ ~ In n (started (s_trace st'))) /\
    (distinctIds dag -> answersForNode processor ->
     forall n,
       In n (concat (s_levels st')) ->
       get (results result) (id n) = None).
Proof.
  intros Hff Hr Hst He (r & Hin & Hfail).
  pose proof (reachable_inv st Hr) as I.
  assert (Hstep : step processor options st Wake
                  = Some (completeLevel options st)).
  { unfold step. now rewrite Hst, He. }
  pose proof (step_inv _ _ _ I Hstep) as I'.
  assert (Hex : existsb (fun r => negb (success r)) (s_levelResults st)
                = true).
  { apply existsb_exists. exists r. now rewrite Hfail. }
  assert (Hshape : completeLevel options st
                   = finish
                       (mkState (s_levels st) (s_items st) (s_executing st) []
                          (recordAll (s_levelResults st) (s_results st))
                          (s_failedNodes st
                           ++ failedIds (s_levelResults st))
                          true (s_trace st) (s_status st))).
  { unfold completeLevel. rewrite recordResult_fold, Hff, Hex. simpl.
    unfold nextLevel. simpl. now destruct (s_levels st). }
  rewrite Hshape in *. clear Hshape.
  set (st1 := mkState _ _ _ _ _ _ _ _ _) in *.
  eexists. eexists. split; [exact Hstep|].
  split; [reflexivity|]. simpl.
  assert (Hfailed : failedIds (s_levelResults st) <> []).
  { unfold failedIds. intros Hnil. apply map_eq_nil in Hnil.
    assert (Hf : In r (filter (fun r => negb (success r)) (s_levelResults st)))
      by (apply filter_In; now rewrite Hfail).
    now rewrite Hnil in Hf. }
  split.
  { rewrite length_app.
    destruct (failedIds (s_levelResults st)); [congruence|].
    simpl. apply Nat.eqb_neq. lia. }
  split; [reflexivity|]. split; [reflexivity|]. split; [reflexivity|].
  split; [apply I|].
  split; [intros e; now apply (done_terminal (finish st1) _ e eq_refl)|].
  assert (Hitems : s_items (finish st1) = [])
    by (simpl; now apply (e_all _ _ _ _ I None)).
  split.
  - intros Hdist n Hn.
    pose proof (rest_unstarted (finish st1) I' Hitems He Hdist n Hn) as Hni.
    assert (Hinv : ~ In n (invoked (s_trace st))).
    { intros H. apply Hni. now apply in_map. }
    split; [exact Hinv|].
    pose proof (quiet_invoked (finish st1) I' He) as Hq. simpl in Hq.
    now rewrite <- Hq.
  - intros Hdist Hans n Hn.
    apply (rest_unreached (finish st1) I' Hitems He eq_refl Hdist Hans n Hn).
Qed.

(** C6 (amended).  When [executeDAG] returns a result: [success] holds
    exactly when the failed list is empty; the failed list is the
    identifiers of the unsuccessful results in the order the results
    arrived (all of one level before the next); the items the work function
    was called on are exactly the items of the levels that were started;
    the results are the outcomes of these calls, and the results map is
    made by storing each of them, in arrival order, under the identifier of
    the node it names.  When the work function answers for the node it is
    given and the items of the levels have distinct identifiers, each item
    of a started level has its result under its identifier in the results
    map, and no item of a level that was not started has an entry. *)
Theorem dag_result_correct st result :
  reachable processor options dag st ->
  s_status st = Done (Return result) ->
  (dag_success result = true <-> failedNodes result = []) /\
  failedNodes result = failedIds (completed (s_trace st)) /\
  (exists done,
      levels dag = done ++ s_levels st /\
      invoked (s_trace st) = concat done) /\
  Permutation (map processor (invoked (s_trace st)))
              (map Fulfilled (completed (s_trace st))) /\
  results result = recordAll (completed (s_trace st)) [] /\
  (answersForNode processor -> distinctIds dag ->
   (forall n,
       In n (invoked (s_trace st)) ->
       exists r, processor n = Fulfilled r /\
                 get (results result) (id n) = Some r) /\
   (forall n,
       In n (concat (s_levels st)) -> get (results result) (id n) = None)).
Proof.
  intros Hr Hst.
  pose proof (reachable_inv st Hr) as I.
  destruct (e_done _ _ _ _ I result Hst) as (Hitems & He & Hlr & ->). simpl.
  split; [|split; [|split; [|split; [|split]]]].
  - rewrite Nat.eqb_eq. apply length_zero_iff_nil.
  - now apply rest_failed.
  - now apply rest_levels.
  - now apply rest_outcomes.
  - now apply rest_results.
  - intros Hans Hdist. split; intros n Hn.
    + now apply rest_entry.
    + now apply (rest_unreached st I Hitems He Hlr Hdist Hans).
Qed.

(** C10 (amended).  In every state that [executeDAG] reaches: no task went
    through the synthetic-skip branch; the stop flag is set only once the
    call has returned, with no task in flight; every dispatched item
    reached [onNodeStart], and the work function was called on exactly
    those of them on which [onNodeStart] did not throw; the dispatched
    items together with the items of the current level that are not yet
    dispatched are the items of the levels started so far; when the call
    returns a result no item of a started level is left undispatched and
    the work function was called on all of them; and every Node Result that
    is pending or stored in the results map is what the work function
    produced for a node it was called on. *)
Theorem skip_branch_unreachable st :
  reachable processor options dag st ->
  skipped (s_trace st) = [] /\
  Forall (fun t => t_skipped t = false) (s_executing st) /\
  (s_shouldStop st = true ->
   s_executing st = [] /\ exists r, s_status st = Done (Return r)) /\
  invoked (s_trace st)
  = filter (startReturns options) (started (s_trace st)) /\
  (exists done,
      levels dag = done ++ s_levels st /\
      started (s_trace st) ++ s_items st = concat done) /\
  (forall r,
      s_status st = Done (Return r) ->
      s_items st = [] /\ invoked (s_trace st) = started (s_trace st)) /\
  (forall r,
      In r (s_levelResults st) \/
      (exists k, get (s_results st) k = Some r) ->
      exists n, In n (invoked (s_trace st)) /\ processor n = Fulfilled r).
Proof.
  intros Hr. pose proof (reachable_inv st Hr) as I.
  split; [apply I|]. split; [apply I|]. split.
  { intros Hstop. destruct (e_stop _ _ _ _ I Hstop) as (r & Hst).
    split; [now apply (e_done _ _ _ _ I r)|eauto]. }
  split; [apply I|]. split; [apply I|]. split.
  { intros r Hst. destruct (e_done _ _ _ _ I r Hst) as (Hi & He & _).
    split; [assumption | now apply quiet_invoked]. }
  intros r Hin.
  destruct (e_recorded _ _ _ _ I) as (recorded & Hc & Hres & _).
  apply (e_completed _ _ _ _ I). apply delivered_completed.
  rewrite Hc. apply in_or_app. destruct Hin as [Hin|(k & Hk)]; [now right|].
  left. rewrite Hres in Hk. apply recordAll_values in Hk.
  destruct Hk as [Hk|Hk]; [assumption | discriminate].
Qed.

End Machine.

(** [executeDAGSequential] has at most one task in flight. *)
Lemma sequential_one_at_a_time {TData TOutput : Type}
  (processor : DAGNode TData -> @Outcome TData TOutput)
  (options : @DAGExecutionOptions TData TOutput)
  (dag : DependencyDAG TData) st :
  reachable processor (sequentialOptions options) dag st ->
  inFlight st <= 1.
Proof.
  intros Hr. apply in_flight_within in Hr.
  apply (atMost_one (sequentialOptions options)); [reflexivity | exact Hr].
Qed.

(** *** createProcessor *)

Section Wrapper.
Context {TData TOutput Value : Type}.
Variable String_ : Value -> Completion string.

(** C8 (amended).  The processor made by [createProcessor] resolves unless
    [fn] throws a value that is not an [Error] and whose string coercion
    throws; in that case it rejects with what the coercion threw.  When
    [fn] returns, the result is successful, refers to the node and its logs
    are the start line and the completion line of the node's identifier.
    When [fn] throws an [Error], or another value that [String] converts,
    the result is failed, its error message is the message of the [Error]
    or the string coercion of the value, and its logs are the start line
    and the failure line. *)
Theorem createProcessor_resolves
  (fn : DAGNode TData -> @FnOutcome Value) (startTime endTime : Z)
  (n : DAGNode TData) :
  (forall message, messageOf String_ (ErrorObject message) = Return message) /\
  (forall v, messageOf String_ (OtherValue v) = String_ v) /\
  match fn n with
  | Returns =>
      exists r : @NodeResult TData TOutput,
        createProcessor String_ fn startTime endTime n = Fulfilled r /\
        node r = n /\
        duration r = (endTime - startTime)%Z /\
        success r = true /\ error r = None /\
        logs r = [String.append "Starting " (id n);
                  String.append "Completed " (id n)]
  | Throws e =>
      match messageOf String_ e with
      | Return message =>
          exists r : @NodeResult TData TOutput,
            createProcessor String_ fn startTime endTime n = Fulfilled r /\
            node r = n /\
            duration r = (endTime - startTime)%Z /\
            success r = false /\ error r = Some message /\
            logs r = [String.append "Starting " (id n);
                      String.append "Failed "
                        (String.append (id n)
                           (String.append ": " message))]
      | ThrowError reason =>
          @createProcessor TData TOutput Value String_ fn startTime endTime n
          = Rejected reason
      end
  end.
Proof.
  split; [reflexivity|]. split; [reflexivity|].
  unfold createProcessor. destruct (fn n) as [|e].
  - eexists. repeat split.
  - destruct (messageOf String_ e) as [message|reason]; [|reflexivity].
    eexists. repeat split.
Qed.

End Wrapper.

(** *** The sample runs *)

Lemma failOn_answers name : answersForNode (Examples.failOn name).
Proof.
  intros n r. unfold Examples.failOn.
  destruct (String.eqb (id n) name); intros [= <-]; reflexivity.
Qed.

Lemma chain_distinct : distinctIds (Examples.leveledDAG Examples.chain).
Proof. vm_compute. TraversalFacts.distinct_keys. Qed.

(** Limit 2 on the diamond: after the first level at most two tasks are in
    flight. *)
Lemma in_flight_bounded_witness :
  limitOf (Examples.withLimit 2) = Finite (inject_Z 2) /\
  exists st,
    run (Examples.failOn "b") (Examples.withLimit 2)
        (executeDAG (Examples.withLimit 2)
                    (Examples.leveledDAG Examples.diamond))
        [Settle 0; Wake; Settle 0] = Some st /\
    (Z.of_nat (inFlight st) <= 2)%Z.
Proof.
  split; [reflexivity|].
  eexists. split; [vm_compute; reflexivity|].
  refine (proj2 (in_flight_bounded (Examples.failOn "b")
                   (Examples.withLimit 2)
                   (Examples.leveledDAG Examples.diamond) _ (inject_Z 2)
                   eq_refl _) 2%Z _ (Qeq_refl _)).
  - exists [Settle 0; Wake; Settle 0]. vm_compute. reflexivity.
  - lia.
Defined.

(** Two independent items.  With limit 0 the first item is dispatched all
    the same: one task is in flight.  With limit 1.5 the loop goes on after
    the first task, since 1 >= 1.5 is false: two tasks are in flight. *)
Lemma limit_exceeded :
  limitOf (Examples.withLimit 0) = Finite 0 /\
  inFlight (@executeDAG unit unit (Examples.withLimit 0)
                        (Examples.leveledDAG Examples.pair)) = 1 /\
  limitOf (Examples.withNumber (Finite (3 # 2))) = Finite (3 # 2) /\
  inFlight (@executeDAG unit unit (Examples.withNumber (Finite (3 # 2)))
                        (Examples.leveledDAG Examples.pair)) = 2 /\
  reachable (Examples.failOn "b") (Examples.withNumber (Finite (3 # 2)))
            (Examples.leveledDAG Examples.pair)
            (executeDAG (Examples.withNumber (Finite (3 # 2)))
                        (Examples.leveledDAG Examples.pair)).
Proof.
  split; [reflexivity|]. split; [vm_compute; reflexivity|].
  split; [reflexivity|]. split; [vm_compute; reflexivity|].
  exists []. reflexivity.
Qed.

(** Chain [a], [b -> a], [c -> b] with [b] failing: the call returns after
    the level of [b]; the level of [c] stays unstarted, and [c] was neither
    invoked nor given an entry in the results map. *)
Lemma fail_fast_stops_witness :
  exists st,
    run (Examples.failOn "b") Examples.defaults
        (executeDAG Examples.defaults (Examples.leveledDAG Examples.chain))
        [Settle 0; Wake; Settle 0] = Some st /\
    exists st' result,
      step (Examples.failOn "b") Examples.defaults st Wake = Some st' /\
      s_status st' = Done (Return result) /\
      dag_success result = false /\
      s_levels st' = s_levels st /\
      forall n,
        In n (concat (s_levels st')) ->
        ~ In n (invoked (s_trace st')) /\
        get (results result) (id n) = None.
Proof.
  eexists. split; [vm_compute; reflexivity|].
  match goal with
  | |- exists st' result, step _ _ ?st _ = _ /\ _ =>
      destruct (fail_fast_stops (Examples.failOn "b") Examples.defaults
                  (Examples.leveledDAG Examples.chain) st)
        as (st' & result & H1 & H2 & H3 & _ & H5 & _ & _ & _ & H9 & H10)
  end.
  - reflexivity.
  - exists [Settle 0; Wake; Settle 0]. vm_compute. reflexivity.
  - reflexivity.
  - reflexivity.
  - eexists. split; [left; reflexivity | reflexivity].
  - exists st', result.
    split; [assumption|]. split; [assumption|]. split; [assumption|].
    split; [assumption|]. intros n Hn. split.
    + now apply (H9 chain_distinct n Hn).
    + exact (H10 chain_distinct (failOn_answers "b") n Hn).
Defined.

(** Chain [a], [b -> a], [c -> b]; on [b] the work function resolves with
    a failed result that names the node [c].  The call stops after the
    level of [b]: [c] is never dispatched, yet the results map has an entry
    under the identifier of [c]. *)
Lemma unreached_item_in_results :
  exists st result,
    run (Examples.answerFor "b" Examples.chainC) Examples.defaults
        (executeDAG Examples.defaults (Examples.leveledDAG Examples.chain))
        [Settle 0; Wake; Settle 0; Wake] = Some st /\
    s_status st = Done (Return result) /\
    failFastOf Examples.defaults = true /\
    s_levels st = [[Examples.chainC]] /\
    map id (invoked (s_trace st)) = ["a"; "b"]%string /\
    map id (started (s_trace st)) = ["a"; "b"]%string /\
    keys (results result) = ["a"; "c"]%string /\
    get (results result) (id Examples.chainC)
    = Some (Examples.failureResult Examples.chainC "b failed").
Proof.
  eexists. eexists. split; [vm_compute; reflexivity|].
  repeat split.
Qed.

(** The same run with [b] failing under its own name, to its end: the
    result is unsuccessful and lists [b], and the items [a] and [b] have
    their results in the results map. *)
Lemma dag_result_correct_witness :
  exists st result,
    run (Examples.failOn "b") Examples.defaults
        (executeDAG Examples.defaults (Examples.leveledDAG Examples.chain))
        [Settle 0; Wake; Settle 0; Wake] = Some st /\
    s_status st = Done (Return result) /\
    (dag_success result = true <-> failedNodes result = []) /\
    failedNodes result = failedIds (completed (s_trace st)) /\
    forall n,
      In n (invoked (s_trace st)) ->
      exists r, Examples.failOn "b" n = Fulfilled r /\
                get (results result) (id n) = Some r.
Proof.
  eexists. eexists. split; [vm_compute; reflexivity|].
  split; [reflexivity|].
  match goal with
  | |- (dag_success ?r = _ <-> _) /\ failedNodes _ = failedIds (completed (s_trace ?st)) /\ _ =>
      destruct (dag_result_correct (Examples.failOn "b") Examples.defaults
                  (Examples.leveledDAG Examples.chain) st r)
        as (H1 & H2 & _ & _ & _ & H6)
  end.
  - exists [Settle 0; Wake; Settle 0; Wake]. vm_compute. reflexivity.
  - reflexivity.
  - split; [assumption|]. split; [assumption|].
    exact (proj1 (H6 (failOn_answers "b") chain_distinct)).
Defined.

(** A map whose two keys hold items with the same identifier [a], the
    second depending on the first.  [buildLeveledDAG] puts them in two
    levels; the item of level 0 fails and the call stops, so the item of
    level 1 is never reached, yet the results map has an entry under its
    identifier. *)
Lemma unreached_twin_in_results :
  levels (Examples.leveledDAG Examples.twins)
  = [[Examples.twinFirst]; [Examples.twinSecond]] /\
  exists st result,
    run (Examples.failOn "a") Examples.defaults
        (executeDAG Examples.defaults (Examples.leveledDAG Examples.twins))
        [Settle 0; Wake] = Some st /\
    s_status st = Done (Return result) /\
    s_levels st = [[Examples.twinSecond]] /\
    invoked (s_trace st) = [Examples.twinFirst] /\
    get (results result) (id Examples.twinSecond)
    = Some (Examples.failureResult Examples.twinFirst "a failed").
Proof.
  split; [vm_compute; reflexivity|].
  eexists. eexists. split; [vm_compute; reflexivity|].
  repeat split.
Qed.

(** Two independent items, limit 1, [a] failing: [b] is started and invoked
    all the same. *)
Lemma skip_branch_unreachable_witness :
  exists st,
    run (Examples.failOn "a") (Examples.withLimit 1)
        (executeDAG (Examples.withLimit 1)
                    (Examples.leveledDAG Examples.pair))
        [Settle 0; Wake] = Some st /\
    skipped (s_trace st) = [] /\
    invoked (s_trace st)
    = filter (startReturns (Examples.withLimit 1)) (started (s_trace st)).
Proof.
  eexists. split; [vm_compute; reflexivity|].
  match goal with
  | |- skipped (s_trace ?st) = _ /\ _ =>
      destruct (skip_branch_unreachable (Examples.failOn "a")
                  (Examples.withLimit 1)
                  (Examples.leveledDAG Examples.pair) st)
        as (H1 & _ & _ & H4 & _)
  end.
  - exists [Settle 0; Wake]. vm_compute. reflexivity.
  - split; assumption.
Defined.

(** Two independent items, limit 1, the work function rejects on [a]:
    [executeDAG] rejects and [b], an item of the level that was being
    dispatched, is never invoked. *)
Lemma rejection_leaves_items_undispatched :
  exists st reason,
    run Examples.rejecting (Examples.withLimit 1)
        (executeDAG (Examples.withLimit 1)
                    (Examples.leveledDAG Examples.pair))
        [Settle 0; Wake] = Some st /\
    s_status st = Done (ThrowError reason) /\
    map (map id) (levels (Examples.leveledDAG Examples.pair))
    = [["a"; "b"]]%string /\
    map id (invoked (s_trace st)) = ["a"]%string /\
    map id (s_items st) = ["b"]%string /\
    forall e, step Examples.rejecting (Examples.withLimit 1) st e = None.
Proof.
  eexists. eexists. split; [vm_compute; reflexivity|].
  split; [reflexivity|]. split; [vm_compute; reflexivity|].
  split; [vm_compute; reflexivity|]. split; [vm_compute; reflexivity|].
  intros e. destruct e; reflexivity.
Qed.

(** Two independent items, limit 1, [onNodeStart] throws on [a]: the item
    is dispatched but the work function is not called on it, and
    [executeDAG] rejects with what the callback threw. *)
Example throwing_start_skips_work :
  exists st,
    run (Examples.failOn "none") (Examples.startThrowsOn "a")
        (executeDAG (Examples.startThrowsOn "a")
                    (Examples.leveledDAG Examples.pair))
        [Settle 0; Wake] = Some st /\
    s_status st = Done (ThrowError "onNodeStart threw") /\
    map id (started (s_trace st)) = ["a"]%string /\
    invoked (s_trace st) = [].
Proof.
  eexists. split; [vm_compute; reflexivity|]. repeat split.
Qed.

(** The chain with an [onNodeComplete] that throws: the work function
    fulfils on [a], the callback is called and throws, and [executeDAG]
    rejects with what the callback threw; no result is recorded. *)
Example throwing_complete_rejects :
  exists st,
    run (Examples.failOn "none") Examples.completeThrows
        (executeDAG Examples.completeThrows
                    (Examples.leveledDAG Examples.chain))
        [Settle 0; Wake] = Some st /\
    s_status st = Done (ThrowError "onNodeComplete threw") /\
    map id (invoked (s_trace st)) = ["a"]%string /\
    map (fun r => id (node r)) (completed (s_trace st)) = ["a"]%string /\
    s_levelResults st = [] /\ s_results st = [].
Proof.
  eexists. split; [vm_compute; reflexivity|]. repeat split.
Qed.

(** A thrown plain string becomes the error message. *)
Example createProcessor_plain_string :
  exists r : @NodeResult unit unit,
    createProcessor Examples.sampleString
      (fun _ => Throws (OtherValue (Examples.Text "string error"))) 0 50
      (Examples.item "test" [])
    = Fulfilled r /\
    success r = false /\ error r = Some "string error"%string.
Proof. eexists. repeat split. Qed.

(** [fn] throws [Object.create(null)]: [String(error)] throws inside the
    [catch] block and the promise of the processor rejects. *)
Lemma createProcessor_rejects :
  Examples.sampleString Examples.NullPrototypeObject
  = ThrowError "Cannot convert object to primitive value" /\
  @createProcessor unit unit _ Examples.sampleString
    (fun _ => Throws (OtherValue Examples.NullPrototypeObject)) 0 50
    (Examples.item "test" [])
  = Rejected "Cannot convert object to primitive value".
Proof. split; reflexivity. Qed.

End ExecutorFacts.

(** ** The shape of a returned graph *)

Module LevelFacts.
Import JsMap JsMapFacts JsSetFacts Traversal Graph KahnSpec TraversalFacts.

Section Shape.
Context {TData : Type}.
Variable nodes : JsMap.t (DAGNode TData).
Hypothesis nodes_nodup : NoDup (keys nodes).

Lemma processLevel_levels st queue st' queue' :
  Inv nodes st queue ->
  processLevel (dependentsTable nodes) st queue = Some (st', queue') ->
  exists ns,
    l_levels st' = l_levels st ++ [ns] /\
    Forall2 (fun x n => exists node,
                 get nodes x = Some node /\
                 n = set_level node (length (l_levels st)))
            queue ns.
Proof.
  intros I E.
  destruct (pass_repr nodes nodes_nodup (length (l_levels st)) queue
              (mkPass (l_nodes st) (l_inDegree st) (l_nodeLevel st)
                      (l_processedCount st) [] []))
    as (p' & ns & Hf & _ & _ & _ & Hln & Hfa & _); simpl.
  { apply I. } { apply I. } { apply I. } { apply I. }
  { intros a Ha. apply (inv_incl _ _ _ I). apply in_or_app. now right. }
  unfold processLevel in E. rewrite Hf in E. injection E as <- <-.
  exists ns. simpl in *. now rewrite Hln.
Qed.

(** The loop only appends: the levels and the level table of a later state
    extend those of an earlier one, the first new level is the queue, and no
    new level is empty. *)
Lemma whileQueue_grows fuel :
  forall st queue st',
    Inv nodes st queue ->
    whileQueue fuel (dependentsTable nodes) st queue = Some st' ->
    exists ls nl,
      l_levels st' = l_levels st ++ ls /\
      l_nodeLevel st'
      = l_nodeLevel st
        ++ map (fun x => (x, length (l_levels st))) queue ++ nl /\
      Forall (fun lv => lv <> []) ls /\
      match queue with
      | [] => ls = []
      | _ :: _ =>
          exists ns rest,
            ls = ns :: rest /\
            Forall2 (fun x n => exists node,
                         get nodes x = Some node /\
                         n = set_level node (length (l_levels st)))
                    queue ns
      end.
Proof.
  induction fuel as [|fuel IH]; intros st queue st' I E;
    (destruct queue as [|x queue];
     [injection E as <-; exists [], []; simpl; rewrite !app_nil_r; auto|]);
    [discriminate|].
  cbn [whileQueue] in E.
  destruct (processLevel_inv nodes nodes_nodup st (x :: queue) I)
    as (st1 & q1 & E1 & I1 & Hnl).
  rewrite E1 in E.
  destruct (processLevel_levels _ _ _ _ I E1) as (ns & Hls & Hfa).
  destruct (IH _ _ _ I1 E) as (ls & nl & Hls' & Hnl' & Hne & _).
  exists (ns :: ls), (map (fun y => (y, length (l_levels st1))) q1 ++ nl).
  split; [rewrite Hls', Hls, <- app_assoc; reflexivity|].
  split; [rewrite Hnl', Hnl, <- app_assoc; reflexivity|].
  split; [|eauto].
  constructor; [|assumption].
  inversion Hfa; discriminate.
Qed.

Lemma returned_final dag :
  buildLeveledDAG nodes = Some (Return dag) ->
  exists st,
    whileQueue (size nodes) (dependentsTable nodes)
      (mkLoop nodes (fst (initTables nodes)) [] [] 0)
      (initialQueue (fst (initTables nodes))) = Some st /\
    Inv nodes st [] /\
    l_processedCount st = size nodes /\
    keys (l_nodes st) = keys nodes /\
    dag = mkDAG (l_nodes st) (l_levels st)
            (filter (fun name =>
                       match get (dependentsTable nodes) name with
                       | None => true
                       | Some deps => (length deps =? 0)%nat
                       end) (keys (l_nodes st)))
            (filter (fun name =>
                       match get (l_nodes st) name with
                       | None => false
                       | Some node =>
                           (length (depsInDag (l_nodes st) node) =? 0)%nat
                       end) (keys (l_nodes st))).
Proof.
  intros Hrun. rewrite buildLeveledDAG_unfold in Hrun.
  destruct (whileQueue_run nodes nodes_nodup) as (st & Hw & I).
  rewrite Hw in Hrun. simpl in Hrun. injection Hrun as Hrun.
  assert (Hsz : size (l_nodes st) = size nodes).
  { unfold size. rewrite <- (length_map fst (l_nodes st)).
    change (map fst (l_nodes st)) with (keys (l_nodes st)).
    rewrite (inv_keys_nodes _ _ _ I). apply length_map. }
  unfold finishDAG in Hrun. rewrite Hsz in Hrun.
  destruct (Nat.eqb_spec (l_processedCount st) (size nodes)) as [Hc|Hc];
    simpl in Hrun; [|discriminate].
  exists st. split; [assumption|]. split; [assumption|].
  split; [assumption|]. split; [apply I|]. now injection Hrun as <-.
Qed.

Lemma final_entry st k :
  Inv nodes st [] -> l_processedCount st = size nodes ->
  In k (keys nodes) ->
  exists n0 l,
    get nodes k = Some n0 /\ get (l_nodeLevel st) k = Some l /\
    get (l_nodes st) k = Some (set_level n0 l).
Proof.
  intros I Hc Hk.
  pose proof (final_complete nodes st I Hc k Hk) as Hl.
  apply get_In_keys in Hl, Hk.
  destruct (get nodes k) as [n0|] eqn:En0; [|congruence].
  destruct (get (l_nodeLevel st) k) as [l|] eqn:El; [|congruence].
  exists n0, l. split; [reflexivity|]. split; [reflexivity|].
  now apply (final_item nodes st I k n0 l).
Qed.

Lemma Forall2_In_r {A B} (R : A -> B -> Prop) l1 l2 b :
  Forall2 R l1 l2 -> In b l2 -> exists a, In a l1 /\ R a b.
Proof.
  induction 1 as [|x y l1 l2 Hxy _ IH]; intros Hin; [destruct Hin|].
  destruct Hin as [->|Hin].
  - exists x. split; [now left | assumption].
  - destruct (IH Hin) as (a & Ha & HR). exists a. split; [now right | assumption].
Qed.

(** X1.  The [roots] of a returned graph are, in map order, exactly the keys
    that no item of the map lists as a dependency. *)
Theorem roots_have_no_dependent (dag : DependencyDAG TData) :
  buildLeveledDAG nodes = Some (Return dag) ->
  (exists keep, roots dag = filter keep (keys nodes)) /\
  forall k,
    In k (roots dag) <->
    In k (keys nodes) /\ forall d, ~ dependsOn nodes d k.
Proof.
  intros Hrun.
  destruct (returned_final dag Hrun) as (st & _ & I & Hc & Hk & ->). simpl.
  rewrite Hk. split; [eauto|].
  intros k. rewrite filter_In.
  assert (E : forall s, (length s =? 0)%nat = true <-> s = (@nil string)).
  { intros s. rewrite Nat.eqb_eq. apply length_zero_iff_nil. }
  split; intros [Hin H]; (split; [assumption|]).
  - intros d Hd. apply dependsOn_depsOf in Hd.
    apply (dependentsOf_In nodes nodes_nodup) in Hd.
    unfold dependentsOf in Hd.
    destruct (get (dependentsTable nodes) k) as [s|]; [|destruct Hd].
    apply E in H. subst s. destruct Hd.
  - destruct (get (dependentsTable nodes) k) as [s|] eqn:Es; [|reflexivity].
    apply E. destruct s as [|d s]; [reflexivity|]. exfalso.
    apply (H d). apply dependsOn_depsOf.
    apply (dependentsOf_In nodes nodes_nodup).
    unfold dependentsOf. rewrite Es. now left.
Qed.

Lemma final_deps st k n :
  Inv nodes st [] -> get (l_nodes st) k = Some n ->
  depsInDag (l_nodes st) n = depsOf nodes k.
Proof.
  intros I Hn.
  assert (Hk : In k (keys nodes)).
  { rewrite <- (inv_keys_nodes _ _ _ I). apply get_In_keys. congruence. }
  apply get_In_keys in Hk. unfold depsOf.
  destruct (get nodes k) as [n0|] eqn:En0; [|congruence].
  rewrite (inv_nodes _ _ _ I _ _ En0) in Hn. injection Hn as <-.
  apply depsInDag_same_keys; [apply I|].
  unfold leveled. now destruct (get (l_nodeLevel st) k).
Qed.

Lemma initialQueue_filter :
  initialQueue (fst (initTables nodes))
  = filter (fun k => (length (depsOf nodes k) =? 0)%nat) (keys nodes).
Proof.
  rewrite (initTables_spec nodes nodes_nodup). simpl. unfold initialQueue.
  assert (H : forall l : list (string * DAGNode TData),
             incl l nodes ->
             map fst
               (filter (fun entry => (snd entry =? 0)%Z)
                  (map (fun e => (fst e,
                                  Z.of_nat (length (depsInDag nodes (snd e)))))
                       l))
             = filter (fun k => (length (depsOf nodes k) =? 0)%nat)
                      (map fst l)).
  { induction l as [|[k n] l IH]; intros Hincl; [reflexivity|].
    simpl. assert (Hg : get nodes k = Some n).
    { apply In_get_Some; [assumption|]. apply Hincl. now left. }
    unfold depsOf at 1. rewrite Hg.
    rewrite <- IH by (intros a Ha; apply Hincl; now right).
    destruct (length (depsInDag nodes n)); reflexivity. }
  apply H, incl_refl.
Qed.

(** X2.  The [leaves] of a returned graph are, in map order, exactly the
    keys whose item has no dependency inside the map, and level 0 consists
    of the items stored under the leaves, in the same order. *)
Theorem leaves_are_level_zero (dag : DependencyDAG TData) :
  buildLeveledDAG nodes = Some (Return dag) ->
  (exists keep, leaves dag = filter keep (keys nodes)) /\
  (forall k,
      In k (leaves dag) <->
      In k (keys nodes) /\ forall x, ~ dependsOn nodes k x) /\
  Forall2 (fun k n => get (Types.nodes dag) k = Some n)
          (leaves dag) (nth 0 (levels dag) []).
Proof.
  intros Hrun.
  destruct (returned_final dag Hrun) as (st & Hw & I & Hc & Hk & ->). simpl.
  rewrite Hk.
  assert (Hleaves :
            filter (fun name =>
                      match get (l_nodes st) name with
                      | None => false
                      | Some node =>
                          (length (depsInDag (l_nodes st) node) =? 0)%nat
                      end) (keys nodes)
            = initialQueue (fst (initTables nodes))).
  { rewrite initialQueue_filter. apply filter_ext_in. intros k Hin.
    destruct (final_entry st k I Hc Hin) as (n0 & l & _ & _ & Hg).
    rewrite Hg. now rewrite (final_deps st k _ I Hg). }
  rewrite Hleaves. split; [rewrite initialQueue_filter; eauto|]. split.
  - intros k. rewrite initialQueue_filter, filter_In, Nat.eqb_eq,
      length_zero_iff_nil.
    split; intros [Hin H]; (split; [assumption|]).
    + intros x Hx. apply dependsOn_depsOf in Hx. rewrite H in Hx. destruct Hx.
    + destruct (depsOf nodes k) as [|x xs] eqn:E; [reflexivity|]. exfalso.
      apply (H x). apply dependsOn_depsOf. rewrite E. now left.
  - destruct (whileQueue_grows _ _ _ _ (Inv_init nodes nodes_nodup) Hw)
      as (ls & nl & Hls & Hnl & _ & Hfirst).
    simpl in Hls, Hnl, Hfirst.
    set (Q0 := initialQueue (fst (initTables nodes))) in *.
    assert (Hzero : forall k, In k Q0 -> get (l_nodeLevel st) k = Some 0).
    { intros k Hin. rewrite Hnl. apply get_app_l.
      apply get_const_map. auto. }
    assert (Hfa : Forall2 (fun x n => exists node,
                               get nodes x = Some node /\
                               n = set_level node 0)
                          Q0 (nth 0 (l_levels st) [])).
    { rewrite Hls. destruct Q0 as [|x q]; [rewrite Hfirst; constructor|].
      destruct Hfirst as (ns & rest & -> & Hfa). exact Hfa. }
    clearbody Q0. clear -Hfa Hzero I.
    induction Hfa as [|k n q ns (node & Hnode & ->) _ IH]; constructor.
    + rewrite (inv_nodes _ _ _ I _ _ Hnode). unfold leveled.
      rewrite Hzero by now left. reflexivity.
    + apply IH. intros k' Hk'. apply Hzero. now right.
Qed.

(** X3.  In a returned graph the field [level] of every item is the index of
    the level that holds it, and every item is the item of the input map
    under its key with nothing but [level] changed. *)
Theorem level_field_is_index (dag : DependencyDAG TData) :
  buildLeveledDAG nodes = Some (Return dag) ->
  (forall i n,
      In n (nth i (levels dag) []) ->
      level n = Some i /\
      exists k n0,
        get nodes k = Some n0 /\ n = set_level n0 i /\
        get (Types.nodes dag) k = Some n) /\
  (forall k n,
      get (Types.nodes dag) k = Some n ->
      exists n0 i,
        get nodes k = Some n0 /\ n = set_level n0 i /\
        In n (nth i (levels dag) [])).
Proof.
  intros Hrun.
  destruct (returned_final dag Hrun) as (st & _ & I & Hc & Hk & ->). simpl.
  split.
  - intros i n Hin.
    pose proof (inv_tag _ _ _ I i n Hin) as Hlevel.
    split; [assumption|].
    assert (Hflat : In n (concat (l_levels st))) by (apply In_levels; eauto).
    destruct (Forall2_In_r _ _ _ n (inv_flat _ _ _ I) Hflat)
      as ([k l] & He & n0 & Hn0 & ->).
    simpl in *. injection Hlevel as ->.
    exists k, n0. split; [assumption|]. split; [reflexivity|].
    apply (final_item nodes st I k n0 i Hn0).
    apply In_get_Some; [now apply (final_nodup nodes st)|assumption].
  - intros k n Hn.
    assert (Hin : In k (keys nodes)).
    { rewrite <- Hk. apply get_In_keys. congruence. }
    destruct (final_entry st k I Hc Hin) as (n0 & l & Hn0 & Hl & Hg).
    rewrite Hg in Hn. injection Hn as <-.
    exists n0, l. split; [assumption|]. split; [reflexivity|].
    now apply (final_item nodes st I k n0 l).
Qed.

Lemma length_concat_nonempty {A} (ls : list (list A)) :
  Forall (fun lv => lv <> []) ls -> length ls <= length (concat ls).
Proof.
  induction 1 as [|lv ls Hlv _ IH]; simpl; [lia|].
  rewrite length_app. destruct lv; [congruence | simpl; lia].
Qed.

(** X4.  A returned graph has no empty level, so it has at most as many
    levels as the map has items. *)
Theorem no_empty_level (dag : DependencyDAG TData) :
  buildLeveledDAG nodes = Some (Return dag) ->
  Forall (fun lv => lv <> []) (levels dag) /\
  length (levels dag) <= size nodes.
Proof.
  intros Hrun.
  destruct (returned_final dag Hrun) as (st & Hw & I & Hc & Hk & ->). simpl.
  destruct (whileQueue_grows _ _ _ _ (Inv_init nodes nodes_nodup) Hw)
    as (ls & nl & Hls & _ & Hne & _).
  simpl in Hls. subst ls. split; [assumption|].
  apply length_concat_nonempty in Hne.
  rewrite <- Hc, (inv_count _ _ _ I).
  now rewrite (Forall2_length (inv_flat _ _ _ I)).
Qed.

Lemma accepted_distinctDeps st :
  Inv nodes st [] -> l_processedCount st = size nodes -> distinctDeps nodes.
Proof.
  intros I Hc k node Hk.
  assert (Hin : In k (keys nodes)) by (apply get_In_keys; congruence).
  pose proof (final_complete nodes st I Hc k Hin) as Hp.
  apply (final_zero nodes st I k Hin) in Hp.
  rewrite (inv_degree _ _ _ I k Hin) in Hp. injection Hp as Hp.
  assert (Hd : depsOf nodes k = depsInDag nodes node)
    by (unfold depsOf; now rewrite Hk).
  rewrite <- Hd.
  set (seen := filter (fun x => JsSet.has (dependentsOf nodes x) k)
                      (keys (l_nodeLevel st))).
  assert (Hseen : NoDup seen)
    by apply NoDup_filter, (final_nodup nodes st I).
  apply (Permutation_NoDup (l := seen)); [|assumption].
  apply NoDup_Permutation_bis; [assumption| |].
  - unfold hits in Hp. fold seen in Hp. lia.
  - intros x Hx. now apply (hits_filter_In nodes nodes_nodup) in Hx.
Qed.

Lemma returned_sound dag :
  buildLeveledDAG nodes = Some (Return dag) ->
  acyclic nodes /\ distinctDeps nodes.
Proof.
  intros Hrun.
  destruct (returned_final dag Hrun) as (st & _ & I & Hc & _).
  split; [|now apply (accepted_distinctDeps st)].
  intros k Hcyc.
  apply (final_processed_acyclic nodes st I k).
  - apply (final_complete nodes st I Hc). now apply onCycle_key.
  - exists k. split; [apply rt_refl | assumption].
Qed.

Lemma returned_entries dag :
  buildLeveledDAG nodes = Some (Return dag) ->
  keys (Types.nodes dag) = keys nodes /\
  forall k n,
    get (Types.nodes dag) k = Some n ->
    exists n0 i, get nodes k = Some n0 /\ n = set_level n0 i.
Proof.
  intros Hrun.
  destruct (returned_final dag Hrun) as (st & _ & I & Hc & Hk & ->). simpl.
  split; [assumption|]. intros k n Hn.
  assert (Hin : In k (keys nodes)).
  { rewrite <- Hk. apply get_In_keys. congruence. }
  destruct (final_entry st k I Hc Hin) as (n0 & l & Hn0 & Hl & Hg).
  rewrite Hg in Hn. injection Hn as <-. eauto.
Qed.

(** X5.  [buildLeveledDAG] returns a graph exactly for the maps that have no
    dependency cycle and in which no item lists an in-map dependency twice;
    for every other map it throws the cycle error. *)
Theorem returns_iff_acyclic :
  ((exists dag, buildLeveledDAG nodes = Some (Return dag)) <->
   acyclic nodes /\ distinctDeps nodes) /\
  ((exists dag, buildLeveledDAG nodes = Some (Return dag)) \/
   exists ids, buildLeveledDAG nodes = Some (ThrowError (cycleMessage ids))).
Proof.
  split.
  - split.
    + intros (dag & Hrun). now apply (returned_sound dag).
    + intros [Hacyc Hdist].
      destruct (acyclic_levels nodes nodes_nodup Hacyc Hdist) as (dag & H & _).
      eauto.
  - destruct (buildLeveledDAG_run nodes nodes_nodup) as (st & _ & -> & _).
    unfold finishDAG. destruct (negb _); eauto.
Qed.

(** X6.  Whenever [buildLeveledDAG] returns, the level of every item is 0
    when it has no dependency inside the map and otherwise one more than the
    highest level among its in-map dependencies. *)
Theorem levels_are_minimal (dag : DependencyDAG TData) :
  buildLeveledDAG nodes = Some (Return dag) ->
  forall k n,
    get (Types.nodes dag) k = Some n ->
    level n = Some (expectedLevel (Types.nodes dag) n).
Proof.
  intros Hrun.
  destruct (returned_sound dag Hrun) as [Hacyc Hdist].
  destruct (acyclic_levels nodes nodes_nodup Hacyc Hdist)
    as (dag0 & Hrun0 & Hlev).
  rewrite Hrun in Hrun0. injection Hrun0 as <-. exact Hlev.
Qed.

Lemma dependency_below dag j n dep m :
  buildLeveledDAG nodes = Some (Return dag) ->
  In n (nth j (levels dag) []) -> In dep (dependencies n) ->
  get (Types.nodes dag) dep = Some m ->
  exists i, i < j /\ In m (nth i (levels dag) []).
Proof.
  intros Hrun Hn Hdep Hm.
  destruct (returned_final dag Hrun) as (st & _ & I & Hc & Hk & ->).
  simpl in *.
  pose proof (inv_tag _ _ _ I j n Hn) as Hlevel.
  assert (Hflat : In n (concat (l_levels st))) by (apply In_levels; eauto).
  destruct (Forall2_In_r _ _ _ n (inv_flat _ _ _ I) Hflat)
    as ([k l] & He & n0 & Hn0 & ->).
  simpl in *. injection Hlevel as ->.
  assert (Hkl : get (l_nodeLevel st) k = Some j).
  { apply In_get_Some; [now apply (final_nodup nodes st)|assumption]. }
  assert (Hdk : In dep (keys nodes)).
  { rewrite <- Hk. apply get_In_keys. congruence. }
  assert (Hd : In dep (depsOf nodes k)).
  { apply depsOf_In. exists n0. auto. }
  destruct (inv_deps _ _ _ I k j dep Hkl Hd) as (lx & Hlx & Hlt).
  destruct (final_entry st dep I Hc Hdk) as (m0 & l' & Hm0 & Hl' & Hg).
  rewrite Hlx in Hl'. injection Hl' as <-.
  rewrite Hg in Hm. injection Hm as <-.
  exists lx. split; [assumption|].
  now apply (final_item nodes st I dep m0 lx).
Qed.

End Shape.

(** In the diamond only [d] has no dependent. *)
Lemma roots_have_no_dependent_witness :
  NoDup (keys Examples.diamond) /\
  buildLeveledDAG Examples.diamond
  = Some (Return (Examples.leveledDAG Examples.diamond)) /\
  forall k,
    In k (roots (Examples.leveledDAG Examples.diamond)) <->
    In k (keys Examples.diamond) /\
    forall d, ~ dependsOn Examples.diamond d k.
Proof.
  assert (Hnd : NoDup (keys Examples.diamond)) by distinct_keys.
  assert (Hrun : buildLeveledDAG Examples.diamond
                 = Some (Return (Examples.leveledDAG Examples.diamond)))
    by (vm_compute; reflexivity).
  split; [exact Hnd|]. split; [exact Hrun|].
  exact (proj2 (roots_have_no_dependent Examples.diamond Hnd _ Hrun)).
Defined.

(** In the diamond the leaf [a] makes up level 0. *)
Lemma leaves_are_level_zero_witness :
  NoDup (keys Examples.diamond) /\
  buildLeveledDAG Examples.diamond
  = Some (Return (Examples.leveledDAG Examples.diamond)) /\
  Forall2 (fun k n =>
             get (Types.nodes (Examples.leveledDAG Examples.diamond)) k
             = Some n)
          (leaves (Examples.leveledDAG Examples.diamond))
          (nth 0 (levels (Examples.leveledDAG Examples.diamond)) []).
Proof.
  assert (Hnd : NoDup (keys Examples.diamond)) by distinct_keys.
  assert (Hrun : buildLeveledDAG Examples.diamond
                 = Some (Return (Examples.leveledDAG Examples.diamond)))
    by (vm_compute; reflexivity).
  split; [exact Hnd|]. split; [exact Hrun|].
  exact (proj2 (proj2 (leaves_are_level_zero Examples.diamond Hnd _ Hrun))).
Defined.

(** Every item of level 2 of the diamond carries the level 2. *)
Lemma level_field_is_index_witness :
  NoDup (keys Examples.diamond) /\
  buildLeveledDAG Examples.diamond
  = Some (Return (Examples.leveledDAG Examples.diamond)) /\
  forall n,
    In n (nth 2 (levels (Examples.leveledDAG Examples.diamond)) []) ->
    level n = Some 2.
Proof.
  assert (Hnd : NoDup (keys Examples.diamond)) by distinct_keys.
  assert (Hrun : buildLeveledDAG Examples.diamond
                 = Some (Return (Examples.leveledDAG Examples.diamond)))
    by (vm_compute; reflexivity).
  split; [exact Hnd|]. split; [exact Hrun|].
  intros n Hn.
  exact (proj1 (proj1 (level_field_is_index Examples.diamond Hnd _ Hrun)
                  2 n Hn)).
Defined.

(** The diamond has four items and at most four levels, none empty. *)
Lemma no_empty_level_witness :
  NoDup (keys Examples.diamond) /\
  buildLeveledDAG Examples.diamond
  = Some (Return (Examples.leveledDAG Examples.diamond)) /\
  Forall (fun lv => lv <> [])
         (levels (Examples.leveledDAG Examples.diamond)) /\
  length (levels (Examples.leveledDAG Examples.diamond))
  <= size Examples.diamond.
Proof.
  assert (Hnd : NoDup (keys Examples.diamond)) by distinct_keys.
  assert (Hrun : buildLeveledDAG Examples.diamond
                 = Some (Return (Examples.leveledDAG Examples.diamond)))
    by (vm_compute; reflexivity).
  split; [exact Hnd|]. split; [exact Hrun|].
  exact (no_empty_level Examples.diamond Hnd _ Hrun).
Defined.

(** The diamond is accepted, so it is acyclic and lists no in-map
    dependency twice. *)
Lemma returns_iff_acyclic_witness :
  NoDup (keys Examples.diamond) /\
  ((exists dag, buildLeveledDAG Examples.diamond = Some (Return dag)) <->
   acyclic Examples.diamond /\ distinctDeps Examples.diamond).
Proof.
  assert (Hnd : NoDup (keys Examples.diamond)) by distinct_keys.
  split; [exact Hnd|].
  exact (proj1 (returns_iff_acyclic Examples.diamond Hnd)).
Defined.

(** In the leveled diamond [d] lies one level above [b] and [c]. *)
Lemma levels_are_minimal_witness :
  NoDup (keys Examples.diamond) /\
  buildLeveledDAG Examples.diamond
  = Some (Return (Examples.leveledDAG Examples.diamond)) /\
  forall k n,
    get (Types.nodes (Examples.leveledDAG Examples.diamond)) k = Some n ->
    level n
    = Some (expectedLevel
              (Types.nodes (Examples.leveledDAG Examples.diamond)) n).
Proof.
  assert (Hnd : NoDup (keys Examples.diamond)) by distinct_keys.
  assert (Hrun : buildLeveledDAG Examples.diamond
                 = Some (Return (Examples.leveledDAG Examples.diamond)))
    by (vm_compute; reflexivity).
  split; [exact Hnd|]. split; [exact Hrun|].
  exact (levels_are_minimal Examples.diamond Hnd _ Hrun).
Defined.

End LevelFacts.

(** ** Closures, exactly *)

Module ClosureFacts.
Import JsMap JsMapFacts JsSetFacts Builder Graph BuilderFacts.

Section Exact.
Context {TData : Type}.
Variable nodes : JsMap.t (DAGNode TData).

Lemma fold_None {A B} (f : option A -> B -> option A) (l : list B) :
  (forall b, f None b = None) -> fold_left f l None = None.
Proof. intros Hf. induction l; simpl; [reflexivity | now rewrite Hf]. Qed.

(** *** getAncestors *)

(** Once [visit(n)] has returned, [n] is visited, and every visited name that
    is not on the call stack [gray] has all its in-map dependencies both
    visited and recorded. *)
Lemma visitAncestors_closed fuel :
  forall (n : string) (ancestors visited ancestors' visited' : JsSet.t)
         (gray : list string),
    visitAncestors fuel nodes n (ancestors, visited)
    = Some (ancestors', visited') ->
    NoDup ancestors ->
    (forall v c, In v visited -> ~ In v gray -> dependsOn nodes v c ->
                 In c visited /\ In c ancestors) ->
    NoDup ancestors' /\ In n visited' /\
    incl visited visited' /\ incl ancestors ancestors' /\
    (forall v c, In v visited' -> ~ In v gray -> dependsOn nodes v c ->
                 In c visited' /\ In c ancestors').
Proof.
  induction fuel as [|fuel IH];
    intros n ancestors visited ancestors' visited' gray E Hnd Hcl;
    [discriminate|].
  cbn [visitAncestors] in E.
  destruct (JsSet.has visited n) eqn:Ev.
  { injection E as <- <-. apply has_In in Ev.
    split; [assumption|]. split; [assumption|].
    split; [apply incl_refl|]. split; [apply incl_refl | exact Hcl]. }
  assert (Hsub1 : incl visited (JsSet.add visited n)).
  { intros a Ha. apply In_add. now left. }
  assert (Hn1 : In n (JsSet.add visited n)) by (apply In_add; now right).
  destruct (get nodes n) as [node|] eqn:En.
  2:{ injection E as <- <-.
      split; [assumption|]. split; [assumption|]. split; [assumption|].
      split; [apply incl_refl|].
      intros v c Hv Hg Hs. apply In_add in Hv. destruct Hv as [Hv| ->].
      - destruct (Hcl v c Hv Hg Hs) as [? ?]. auto.
      - destruct Hs as (node & Hg' & _). congruence. }
  match type of E with context [fold_left ?f _ _] => set (body := f) in E end.
  assert (Hfold : forall (deps : list string) (a1 v1 a' v' : JsSet.t),
             fold_left body deps (Some (a1, v1)) = Some (a', v') ->
             NoDup a1 ->
             (forall v c, In v v1 -> ~ In v (n :: gray) ->
                          dependsOn nodes v c -> In c v1 /\ In c a1) ->
             NoDup a' /\ incl v1 v' /\ incl a1 a' /\
             (forall v c, In v v' -> ~ In v (n :: gray) ->
                          dependsOn nodes v c -> In c v' /\ In c a') /\
             forall dep, In dep deps -> has nodes dep = true ->
                         In dep v' /\ In dep a').
  { induction deps as [|dep deps IHdeps]; intros a1 v1 a' v' Ef Hnd1 Hcl1.
    - injection Ef as <- <-.
      split; [assumption|]. split; [apply incl_refl|].
      split; [apply incl_refl|]. split; [exact Hcl1|]. intros dep [].
    - cbn [fold_left] in Ef. unfold body at 2 in Ef. cbv beta iota in Ef.
      destruct (has nodes dep) eqn:Ed.
      + destruct (visitAncestors fuel nodes dep (JsSet.add a1 dep, v1))
          as [[a2 v2]|] eqn:E2.
        2:{ rewrite fold_None in Ef by reflexivity. discriminate. }
        destruct (IH dep (JsSet.add a1 dep) v1 a2 v2 (n :: gray) E2)
          as (Hnd2 & Hd2 & Hv2 & Ha2 & Hcl2).
        { now apply NoDup_add. }
        { intros v c Hv Hg Hs. destruct (Hcl1 v c Hv Hg Hs) as [? ?].
          split; [assumption|]. apply In_add. now left. }
        destruct (IHdeps a2 v2 a' v' Ef Hnd2 Hcl2)
          as (Hnd' & Hv' & Ha' & Hcl' & Hdeps').
        split; [assumption|]. split; [eauto using incl_tran|].
        split.
        { intros a Ha. apply Ha', Ha2, In_add. now left. }
        split; [assumption|].
        intros d [<-|Hd] Hh; [|now apply Hdeps'].
        split; [now apply Hv'|]. apply Ha', Ha2, In_add. now right.
      + destruct (IHdeps a1 v1 a' v' Ef Hnd1 Hcl1)
          as (Hnd' & Hv' & Ha' & Hcl' & Hdeps').
        split; [assumption|]. split; [assumption|]. split; [assumption|].
        split; [assumption|].
        intros d [<-|Hd] Hh; [congruence | now apply Hdeps']. }
  destruct (Hfold (dependencies node) ancestors (JsSet.add visited n)
              ancestors' visited' E Hnd)
    as (Hnd' & Hv' & Ha' & Hcl' & Hdeps').
  { intros v c Hv Hg Hs. apply In_add in Hv. destruct Hv as [Hv| ->].
    - destruct (Hcl v c Hv) as [? ?]; auto.
      intros Hin. apply Hg. now right.
    - exfalso. apply Hg. now left. }
  split; [assumption|]. split; [now apply Hv'|].
  split; [eauto using incl_tran|]. split; [assumption|].
  intros v c Hv Hg Hs.
  destruct (string_dec v n) as [->|Hne].
  - destruct Hs as (node' & Hg' & Hin & Hh).
    rewrite En in Hg'. injection Hg' as <-. now apply Hdeps'.
  - apply (Hcl' v c); auto. intros [?|?]; [congruence | tauto].
Qed.

Lemma closed_reach (R : string -> string -> Prop)
  (visited found : list string) :
  (forall v c, In v visited -> R v c -> In c visited /\ In c found) ->
  forall v x, clos_trans string R v x -> In v visited ->
              In x visited /\ In x found.
Proof.
  intros Hcl v x Hp. induction Hp as [v x Hs|v y x _ IH1 _ IH2]; intros Hv.
  - now apply (Hcl v).
  - apply IH2. now apply IH1.
Qed.

Lemma getAncestors_complete (id : string) (ancestors : JsSet.t) :
  getAncestors nodes id = Some ancestors ->
  NoDup ancestors /\
  forall x, clos_trans string (dependsOn nodes) id x -> In x ancestors.
Proof.
  unfold getAncestors. intros Hs.
  destruct (visitAncestors _ nodes id (JsSet.empty, JsSet.empty))
    as [[a v]|] eqn:E; [|discriminate].
  simpl in Hs. injection Hs as ->.
  destruct (visitAncestors_closed _ _ _ _ _ _ [] E)
    as (Hnd & Hid & _ & _ & Hcl).
  { constructor. }
  { intros v0 c []. }
  split; [assumption|]. intros x Hp.
  apply (closed_reach (dependsOn nodes) v ancestors) with (v := id); auto.
  intros v0 c Hv0 Hs0. apply (Hcl v0 c); auto.
Qed.

(** X7.  [getAncestors] returns, without repetition, exactly the keys that
    the queried identifier depends on through one or more in-map
    dependencies. *)
Theorem ancestors_exact (id : string) :
  exists ancestors,
    getAncestors nodes id = Some ancestors /\
    NoDup ancestors /\
    forall x, In x ancestors <-> clos_trans string (dependsOn nodes) id x.
Proof.
  destruct (getAncestors_spec nodes id) as (s & Hs & Hsound).
  destruct (getAncestors_complete id s Hs) as [Hnd Hcomplete].
  exists s. split; [assumption|]. split; [assumption|].
  intros x. split; auto.
Qed.

(** *** getDescendants *)

Lemma addReverseEdge_keeps nodeId (dm : JsMap.t JsSet.t) dep x s d :
  get dm x = Some s -> In d s ->
  exists s', get (addReverseEdge nodeId dm dep) x = Some s' /\ In d s'.
Proof.
  intros Hx Hd. unfold addReverseEdge.
  set (dm1 := if negb (has dm dep) then set dm dep [] else dm).
  assert (H1 : exists s1, get dm1 x = Some s1 /\ In d s1).
  { unfold dm1. destruct (has dm dep) eqn:Eh; simpl; [eauto|].
    rewrite get_set. destruct (String.eqb_spec dep x) as [->|]; [|eauto].
    unfold has in Eh. rewrite Hx in Eh. discriminate. }
  destruct H1 as (s1 & Hs1 & Hd1).
  destruct (get dm1 dep) as [s0|] eqn:E0; [|eauto].
  rewrite get_set. destruct (String.eqb_spec dep x) as [->|]; [|eauto].
  rewrite Hs1 in E0. injection E0 as <-.
  eexists. split; [reflexivity|]. apply In_add. now left.
Qed.

Lemma addReverseEdge_adds nodeId (dm : JsMap.t JsSet.t) dep :
  exists s, get (addReverseEdge nodeId dm dep) dep = Some s /\ In nodeId s.
Proof.
  unfold addReverseEdge.
  set (dm1 := if negb (has dm dep) then set dm dep [] else dm).
  assert (H : exists s0, get dm1 dep = Some s0).
  { unfold dm1. destruct (has dm dep) eqn:Eh; simpl.
    - unfold has in Eh. destruct (get dm dep); [eauto | discriminate].
    - rewrite get_set_same. eauto. }
  destruct H as (s0 & ->). rewrite get_set_same.
  eexists. split; [reflexivity|]. apply In_add. now right.
Qed.

Lemma reverseEdges_complete x d :
  hasDependent nodes x d ->
  exists s, get (reverseEdges nodes) x = Some s /\ In d s.
Proof.
  intros (node & Hin & Hx). unfold reverseEdges.
  assert (Hinner : forall nodeId deps (dm : JsMap.t JsSet.t),
             (exists s, get dm x = Some s /\ In d s) \/
             (nodeId = d /\ In x deps) ->
             exists s,
               get (fold_left (addReverseEdge nodeId) deps dm) x = Some s /\
               In d s).
  { induction deps as [|dep deps IH]; intros dm H; simpl.
    - destruct H as [H|[_ []]]. exact H.
    - apply IH. destruct H as [(s & Hs & Hd)|[-> [->|Hd]]].
      + left. now apply (addReverseEdge_keeps _ _ _ _ s).
      + left. apply addReverseEdge_adds.
      + right. auto. }
  assert (Houter : forall (l : list (string * DAGNode TData))
                          (dm : JsMap.t JsSet.t),
             (exists s, get dm x = Some s /\ In d s) \/ In (d, node) l ->
             exists s,
               get (fold_left
                      (fun dependents (entry : string * DAGNode TData) =>
                         let '(nodeId, node) := entry in
                         fold_left (addReverseEdge nodeId)
                                   (dependencies node) dependents)
                      l dm) x = Some s /\
               In d s).
  { induction l as [|[nodeId node'] l IH]; intros dm H; simpl.
    - destruct H as [H|[]]. exact H.
    - apply IH. destruct H as [H|[Heq|H]]; [| |now right].
      + left. apply Hinner. now left.
      + injection Heq as -> ->. left. apply Hinner. now right. }
  apply Houter. now right.
Qed.

Lemma visitDescendants_closed (dependents : JsMap.t JsSet.t) fuel :
  forall (n : string) (found visited found' visited' : JsSet.t)
         (gray : list string),
    visitDescendants fuel dependents n (found, visited)
    = Some (found', visited') ->
    NoDup found ->
    (forall v s c, In v visited -> ~ In v gray ->
                   get dependents v = Some s -> In c s ->
                   In c visited /\ In c found) ->
    NoDup found' /\ In n visited' /\
    incl visited visited' /\ incl found found' /\
    (forall v s c, In v visited' -> ~ In v gray ->
                   get dependents v = Some s -> In c s ->
                   In c visited' /\ In c found').
Proof.
  induction fuel as [|fuel IH];
    intros n found visited found' visited' gray E Hnd Hcl;
    [discriminate|].
  cbn [visitDescendants] in E.
  destruct (JsSet.has visited n) eqn:Ev.
  { injection E as <- <-. apply has_In in Ev.
    split; [assumption|]. split; [assumption|].
    split; [apply incl_refl|]. split; [apply incl_refl | exact Hcl]. }
  assert (Hsub1 : incl visited (JsSet.add visited n)).
  { intros a Ha. apply In_add. now left. }
  assert (Hn1 : In n (JsSet.add visited n)) by (apply In_add; now right).
  destruct (get dependents n) as [deps0|] eqn:En.
  2:{ injection E as <- <-.
      split; [assumption|]. split; [assumption|]. split; [assumption|].
      split; [apply incl_refl|].
      intros v s c Hv Hg Hs Hc. apply In_add in Hv. destruct Hv as [Hv| ->].
      - destruct (Hcl v s c Hv Hg Hs Hc) as [? ?]. auto.
      - congruence. }
  match type of E with context [fold_left ?f _ _] => set (body := f) in E end.
  assert (Hfold : forall (deps : list string) (a1 v1 a' v' : JsSet.t),
             fold_left body deps (Some (a1, v1)) = Some (a', v') ->
             NoDup a1 ->
             (forall v s c, In v v1 -> ~ In v (n :: gray) ->
                            get dependents v = Some s -> In c s ->
                            In c v1 /\ In c a1) ->
             NoDup a' /\ incl v1 v' /\ incl a1 a' /\
             (forall v s c, In v v' -> ~ In v (n :: gray) ->
                            get dependents v = Some s -> In c s ->
                            In c v' /\ In c a') /\
             forall dep, In dep deps -> In dep v' /\ In dep a').
  { induction deps as [|dep deps IHdeps]; intros a1 v1 a' v' Ef Hnd1 Hcl1.
    - injection Ef as <- <-.
      split; [assumption|]. split; [apply incl_refl|].
      split; [apply incl_refl|]. split; [exact Hcl1|]. intros dep [].
    - cbn [fold_left] in Ef. unfold body at 2 in Ef. cbv beta iota in Ef.
      destruct (visitDescendants fuel dependents dep (JsSet.add a1 dep, v1))
        as [[a2 v2]|] eqn:E2.
      2:{ rewrite fold_None in Ef by reflexivity. discriminate. }
      destruct (IH dep (JsSet.add a1 dep) v1 a2 v2 (n :: gray) E2)
        as (Hnd2 & Hd2 & Hv2 & Ha2 & Hcl2).
      { now apply NoDup_add. }
      { intros v s c Hv Hg Hs Hc.
        destruct (Hcl1 v s c Hv Hg Hs Hc) as [? ?].
        split; [assumption|]. apply In_add. now left. }
      destruct (IHdeps a2 v2 a' v' Ef Hnd2 Hcl2)
        as (Hnd' & Hv' & Ha' & Hcl' & Hdeps').
      split; [assumption|]. split; [eauto using incl_tran|].
      split.
      { intros a Ha. apply Ha', Ha2, In_add. now left. }
      split; [assumption|].
      intros d [<-|Hd]; [|now apply Hdeps'].
      split; [now apply Hv'|]. apply Ha', Ha2, In_add. now right. }
  destruct (Hfold deps0 found (JsSet.add visited n) found' visited' E Hnd)
    as (Hnd' & Hv' & Ha' & Hcl' & Hdeps').
  { intros v s c Hv Hg Hs Hc. apply In_add in Hv. destruct Hv as [Hv| ->].
    - destruct (Hcl v s c Hv) as [? ?]; auto.
      intros Hin. apply Hg. now right.
    - exfalso. apply Hg. now left. }
  split; [assumption|]. split; [now apply Hv'|].
  split; [eauto using incl_tran|]. split; [assumption|].
  intros v s c Hv Hg Hs Hc.
  destruct (string_dec v n) as [->|Hne].
  - rewrite En in Hs. injection Hs as <-. now apply Hdeps'.
  - apply (Hcl' v s c); auto. intros [?|?]; [congruence | tauto].
Qed.

Lemma getDescendants_complete (id : string) (descendants : JsSet.t) :
  getDescendants nodes id = Some descendants ->
  NoDup descendants /\
  forall x, clos_trans string (hasDependent nodes) id x -> In x descendants.
Proof.
  unfold getDescendants. intros Hs.
  destruct (visitDescendants _ (reverseEdges nodes) id
              (JsSet.empty, JsSet.empty))
    as [[a v]|] eqn:E; [|discriminate].
  simpl in Hs. injection Hs as ->.
  destruct (visitDescendants_closed _ _ _ _ _ _ _ [] E)
    as (Hnd & Hid & _ & _ & Hcl).
  { constructor. }
  { intros v0 s0 c []. }
  split; [assumption|]. intros x Hp.
  apply (closed_reach (hasDependent nodes) v descendants) with (v := id);
    auto.
  intros v0 c Hv0 Hs0.
  destruct (reverseEdges_complete v0 c Hs0) as (s0 & Hg & Hc).
  apply (Hcl v0 s0 c); auto.
Qed.

(** X8.  [getDescendants] returns, without repetition, exactly the keys
    whose items reach the queried identifier through one or more
    dependencies; the queried identifier need not be a key. *)
Theorem descendants_exact (id : string) :
  exists descendants,
    getDescendants nodes id = Some descendants /\
    NoDup descendants /\
    forall x,
      In x descendants <-> clos_trans string (hasDependent nodes) id x.
Proof.
  destruct (getDescendants_spec nodes id) as (s & Hs & Hsound).
  destruct (getDescendants_complete id s Hs) as [Hnd Hcomplete].
  exists s. split; [assumption|]. split; [assumption|].
  intros x. split; auto.
Qed.

End Exact.

End ClosureFacts.

(** ** filterDAGFromRoot *)

Module FilterFacts.
Import JsMap JsMapFacts JsSetFacts Builder Graph FilterSpec.

Section Filter.
Context {TData : Type}.
Variable nodes : JsMap.t (DAGNode TData).

Lemma keys_set {V} (m : JsMap.t V) k v :
  (forall k', In k' (keys (set m k v)) <-> In k' (keys m) \/ k' = k) /\
  (NoDup (keys m) -> NoDup (keys (set m k v))).
Proof.
  destruct (in_dec string_dec k (keys m)) as [Hin|Hin].
  - rewrite (keys_set_present m k v Hin). split; [|auto].
    intros k'. split; [auto | intros [?| ->]; assumption].
  - rewrite (set_absent m k v Hin). unfold keys. rewrite map_app. simpl.
    split.
    + intros k'. rewrite in_app_iff. simpl. intuition.
    + intros Hnd. apply NoDup_app; [assumption | repeat constructor; simpl; tauto|].
      intros a Ha [<-|[]]. now apply Hin.
Qed.

Lemma unvisited_add (visited : JsSet.t) n :
  length (unvisited nodes (JsSet.add visited n))
  <= length (unvisited nodes visited) /\
  (In n (keys nodes) -> ~ In n visited ->
   length (unvisited nodes (JsSet.add visited n))
   < length (unvisited nodes visited)).
Proof.
  unfold unvisited. induction (keys nodes) as [|k l [IH1 IH2]]; simpl.
  - split; [lia | tauto].
  - destruct (string_dec k n) as [->|Hne].
    + replace (JsSet.has (JsSet.add visited n) n) with true
        by (symmetry; apply has_In, In_add; now right).
      simpl. split.
      * destruct (JsSet.has visited n); simpl; lia.
      * intros _ Hn. apply has_false in Hn. rewrite Hn. simpl. lia.
    + replace (JsSet.has (JsSet.add visited n) k) with (JsSet.has visited k).
      2:{ apply eq_true_iff_eq. rewrite !has_In, In_add. intuition. }
      destruct (JsSet.has visited k); simpl.
      * split; [assumption|]. intros [?|?] ?; [congruence | auto].
      * split; [lia|]. intros [?|Hin] Hn; [congruence|].
        specialize (IH2 Hin Hn). lia.
Qed.

Lemma unvisited_mono (v v' : JsSet.t) :
  incl v v' -> length (unvisited nodes v') <= length (unvisited nodes v).
Proof.
  intros H. unfold unvisited. induction (keys nodes) as [|k l IH]; simpl; [lia|].
  destruct (JsSet.has v k) eqn:E; simpl.
  - apply has_In in E. apply H in E. apply has_In in E. rewrite E. exact IH.
  - destruct (JsSet.has v' k); simpl; lia.
Qed.

Lemma reach_key_l a b :
  clos_refl_trans string (dependsOn nodes) a b -> In b (keys nodes) ->
  In a (keys nodes).
Proof.
  intros Hp Hb. apply clos_rt_rt1n in Hp.
  destruct Hp as [|y z (node & Hg & _) _]; [assumption|].
  apply get_In_keys. congruence.
Qed.

Lemma reach_key_r a b :
  clos_refl_trans string (dependsOn nodes) a b -> In a (keys nodes) ->
  In b (keys nodes).
Proof.
  intros Hp Ha. apply clos_rt_rtn1 in Hp.
  destruct Hp as [|y z (node & _ & _ & Hh) _]; [assumption|].
  now apply has_In_keys.
Qed.

Lemma visitFiltered_spec fuel :
  forall (id : string) (filtered : JsMap.t (DAGNode TData))
         (visited : JsSet.t) (gray : list string),
    length (unvisited nodes visited) < fuel ->
    FilterInv nodes gray filtered visited ->
    exists filtered' visited',
      visitFiltered fuel nodes id (filtered, visited)
      = Some (filtered', visited') /\
      In id visited' /\ incl visited visited' /\
      FilterInv nodes gray filtered' visited' /\
      forall v, In v visited' -> In v (keys nodes) ->
                In v visited \/
                clos_refl_trans string (dependsOn nodes) id v.
Proof.
  induction fuel as [|fuel IH]; intros id filtered visited gray Hfuel I;
    [lia|].
  cbn [visitFiltered].
  destruct (JsSet.has visited id) eqn:Ev.
  { apply has_In in Ev. exists filtered, visited.
    split; [reflexivity|]. split; [assumption|]. split; [apply incl_refl|].
    split; [assumption|]. auto. }
  apply has_false in Ev.
  assert (Hsub1 : incl visited (JsSet.add visited id)).
  { intros a Ha. apply In_add. now left. }
  assert (Hn1 : In id (JsSet.add visited id)) by (apply In_add; now right).
  destruct (get nodes id) as [node|] eqn:En.
  2:{ assert (Hid : ~ In id (keys nodes)) by now apply get_None_keys.
      exists filtered, (JsSet.add visited id).
      split; [reflexivity|]. split; [assumption|]. split; [assumption|].
      split.
      - constructor.
        + apply I.
        + intros k. rewrite (f_keys _ _ _ _ I), In_add.
          split; [tauto|]. intros [[?| ->] ?]; tauto.
        + apply I.
        + intros v c Hv Hg Hs. apply In_add in Hv. destruct Hv as [Hv| ->].
          * apply Hsub1. now apply (f_closed _ _ _ _ I v c).
          * destruct Hs as (node & Hg' & _). congruence.
      - intros v Hv Hk. apply In_add in Hv. destruct Hv as [?| ->]; tauto. }
  assert (Hid : In id (keys nodes)) by (apply get_In_keys; congruence).
  assert (Hfuel1 : length (unvisited nodes (JsSet.add visited id)) < fuel).
  { pose proof (proj2 (unvisited_add visited id) Hid Ev). lia. }
  match goal with |- context [fold_left ?f _ _] => set (body := f) end.
  assert (Hfold : forall (deps : list string) f1 (v1 : JsSet.t),
             incl deps (dependencies node) ->
             length (unvisited nodes v1) < fuel ->
             FilterInv nodes (id :: gray) f1 v1 ->
             exists f' v',
               fold_left body deps (Some (f1, v1)) = Some (f', v') /\
               incl v1 v' /\
               FilterInv nodes (id :: gray) f' v' /\
               (forall dep, In dep deps -> In dep v') /\
               forall v, In v v' -> In v (keys nodes) ->
                         In v v1 \/
                         clos_refl_trans string (dependsOn nodes) id v).
  { induction deps as [|dep deps IHdeps]; intros f1 v1 Hdeps Hfuel' I1.
    - exists f1, v1. simpl. split; [reflexivity|]. split; [apply incl_refl|].
      split; [assumption|]. split; [intros dep []|]. auto.
    - cbn [fold_left]. unfold body at 2. cbv beta iota.
      destruct (IH dep f1 v1 (id :: gray) Hfuel' I1)
        as (f2 & v2 & E2 & Hd2 & Hv2 & I2 & Hr2).
      rewrite E2.
      destruct (IHdeps f2 v2) as (f' & v' & Ef & Hv' & I' & Hdeps' & Hr').
      { intros a Ha. apply Hdeps. now right. }
      { pose proof (unvisited_mono _ _ Hv2). lia. }
      { assumption. }
      exists f', v'. split; [exact Ef|]. split; [eauto using incl_tran|].
      split; [assumption|]. split.
      + intros d [<-|Hd]; [now apply Hv' | now apply Hdeps'].
      + intros v Hv Hk. destruct (Hr' v Hv Hk) as [Hin|Hp]; [|now right].
        destruct (Hr2 v Hin Hk) as [Hin'|Hp]; [now left|]. right.
        apply rt_trans with (y := dep); [|assumption].
        apply rt_step. exists node. split; [assumption|].
        split; [apply Hdeps; now left|].
        apply has_In_keys. now apply (reach_key_l dep v). }
  destruct (Hfold (dependencies node) (set filtered id node)
              (JsSet.add visited id))
    as (f' & v' & Ef & Hv' & I' & Hdeps' & Hr'); [apply incl_refl|assumption| |].
  { destruct (keys_set filtered id node) as [Hks Hnd]. constructor.
    - apply Hnd, I.
    - intros k. rewrite Hks, (f_keys _ _ _ _ I), In_add.
      split; [intros [[? ?]| ->]; tauto|]. tauto.
    - intros k n. rewrite get_set.
      destruct (String.eqb_spec id k) as [->|Hne]; [congruence | apply I].
    - intros v c Hv Hg Hs. apply In_add in Hv. destruct Hv as [Hv| ->].
      + apply Hsub1. apply (f_closed _ _ _ _ I v c); auto.
        intros Hin. apply Hg. now right.
      + exfalso. apply Hg. now left. }
  exists f', v'. split; [exact Ef|]. split; [now apply Hv'|].
  split; [eauto using incl_tran|]. split.
  - constructor; try apply I'.
    intros v c Hv Hg Hs.
    destruct (string_dec v id) as [->|Hne].
    + destruct Hs as (node' & Hg' & Hin & _).
      rewrite En in Hg'. injection Hg' as <-. now apply Hdeps'.
    + apply (f_closed _ _ _ _ I' v c); auto.
      intros [?|?]; [congruence | tauto].
  - intros v Hv Hk. destruct (Hr' v Hv Hk) as [Hin|Hp]; [|now right].
    apply In_add in Hin. destruct Hin as [?| ->]; [now left|].
    right. apply rt_refl.
Qed.

Lemma closed_reach_rt (visited : list string) :
  (forall v c, In v visited -> dependsOn nodes v c -> In c visited) ->
  forall v x, clos_refl_trans string (dependsOn nodes) v x ->
              In v visited -> In x visited.
Proof.
  intros Hcl v x Hp. apply clos_rt_rt1n in Hp.
  induction Hp as [|v y x Hs _ IH]; [auto|].
  intros Hv. apply IH. now apply (Hcl v).
Qed.

Lemma unvisited_le (visited : JsSet.t) :
  length (unvisited nodes visited) <= size nodes.
Proof.
  unfold unvisited, size. rewrite <- (length_map fst nodes).
  apply filter_length_le.
Qed.

Lemma filterDAGFromRoot_inv (rootId : string) :
  exists filtered visited,
    filterDAGFromRoot nodes rootId = Some filtered /\
    In rootId visited /\
    FilterInv nodes [] filtered visited /\
    forall v, In v visited -> In v (keys nodes) ->
              clos_refl_trans string (dependsOn nodes) rootId v.
Proof.
  destruct (visitFiltered_spec (S (S (size nodes))) rootId [] JsSet.empty [])
    as (f & v & E & Hroot & _ & I & Hr).
  { pose proof (unvisited_le JsSet.empty). lia. }
  { constructor.
    - constructor.
    - intros k. simpl. tauto.
    - intros k n. discriminate.
    - intros v c []. }
  exists f, v. split.
  { unfold filterDAGFromRoot.
    match goal with
    | |- context [option_map fst ?t] =>
        replace t with (Some (f, v)) by (symmetry; exact E)
    end.
    reflexivity. }
  split; [assumption|]. split; [assumption|].
  intros x Hx Hk. destruct (Hr x Hx Hk) as [[]|Hp]. exact Hp.
Qed.

Lemma filtered_keys rootId filtered visited :
  In rootId visited ->
  FilterInv nodes [] filtered visited ->
  (forall v, In v visited -> In v (keys nodes) ->
             clos_refl_trans string (dependsOn nodes) rootId v) ->
  forall k,
    In k (keys filtered) <->
    In rootId (keys nodes) /\
    clos_refl_trans string (dependsOn nodes) rootId k.
Proof.
  intros Hroot I Hr k. rewrite (f_keys _ _ _ _ I). split.
  - intros [Hv Hk].
    split; [apply (reach_key_l rootId k) |]; auto.
  - intros [Hk Hp]. split; [|now apply (reach_key_r rootId k)].
    apply (closed_reach_rt visited) with (v := rootId); auto.
    intros v0 c Hv0 Hs. apply (f_closed _ _ _ _ I v0 c); auto.
Qed.

(** X9.  [filterDAGFromRoot] returns the part of the map that the root
    reaches: its entries are entries of the input map, unchanged; its keys
    are exactly the root, when it is a key, and the keys the root reaches
    through in-map dependencies; a root that is not a key gives the empty
    map. *)
Theorem filter_keeps_reachable (rootId : string) :
  exists filtered,
    filterDAGFromRoot nodes rootId = Some filtered /\
    NoDup (keys filtered) /\
    (forall k n, get filtered k = Some n -> get nodes k = Some n) /\
    (forall k,
        In k (keys filtered) <->
        In rootId (keys nodes) /\
        clos_refl_trans string (dependsOn nodes) rootId k) /\
    (~ In rootId (keys nodes) -> filtered = []).
Proof.
  destruct (filterDAGFromRoot_inv rootId) as (f & v & E & Hroot & I & Hr).
  pose proof (filtered_keys rootId f v Hroot I Hr) as Hkeys.
  exists f. split; [assumption|]. split; [apply I|]. split; [apply I|].
  split; [exact Hkeys|].
  intros Hno. destruct f as [|[k n] f]; [reflexivity|]. exfalso.
  apply Hno. apply (Hkeys k). now left.
Qed.

Lemma filtered_edges filtered visited :
  FilterInv nodes [] filtered visited ->
  (forall a b, dependsOn filtered a b -> dependsOn nodes a b) /\
  (forall k node,
      get filtered k = Some node ->
      Traversal.depsInDag filtered node = Traversal.depsInDag nodes node).
Proof.
  intros I. split.
  - intros a b (node & Hg & Hin & Hh). exists node.
    split; [now apply (f_values _ _ _ _ I)|]. split; [assumption|].
    apply has_In_keys. apply has_In_keys in Hh.
    now apply (f_keys _ _ _ _ I) in Hh.
  - intros k node Hg. unfold Traversal.depsInDag.
    apply filter_ext_in. intros d Hd.
    apply eq_true_iff_eq. rewrite !has_In_keys, (f_keys _ _ _ _ I).
    split; [tauto|]. intros Hk. split; [|assumption].
    apply (f_closed _ _ _ _ I k d).
    + apply (f_keys _ _ _ _ I). apply get_In_keys. congruence.
    + intros [].
    + exists node. split; [now apply (f_values _ _ _ _ I)|].
      split; [assumption | now apply has_In_keys].
Qed.

End Filter.

End FilterFacts.

(** ** buildNodeMap *)

Module NodeMapFacts.
Import JsMap JsMapFacts Builder.

Section NodeMap.
Context {TData : Type}.
Local Abbreviation Node := (DAGNode TData).

Lemma NoDup_keys_set {V} (m : JsMap.t V) k v :
  NoDup (keys m) -> NoDup (keys (set m k v)).
Proof.
  intros Hnd. destruct (in_dec string_dec k (keys m)) as [Hin|Hin].
  - now rewrite keys_set_present.
  - rewrite set_absent by assumption. unfold keys. rewrite map_app.
    apply NoDup_app; [assumption | repeat constructor; simpl; tauto|].
    intros a Ha [<-|[]]. now apply Hin.
Qed.

Lemma find_last {A} (f : A -> bool) (l : list A) a :
  find f (l ++ [a])
  = match find f l with
    | Some b => Some b
    | None => if f a then Some a else None
    end.
Proof.
  induction l as [|b l IH]; simpl; [reflexivity|]. now destruct (f b).
Qed.

Lemma buildNodeMap_fold (ns : list Node) :
  forall m : JsMap.t Node,
    (NoDup (keys m) ->
     NoDup (keys (fold_left (fun m n => set m (id n) n) ns m))) /\
    forall k,
      get (fold_left (fun m n => set m (id n) n) ns m) k
      = match find (fun n => String.eqb (id n) k) (rev ns) with
        | Some n => Some n
        | None => get m k
        end.
Proof.
  induction ns as [|n ns IH]; intros m; simpl.
  - split; [auto | reflexivity].
  - destruct (IH (set m (id n) n)) as [Hnd Hget]. split.
    + intros H. now apply Hnd, NoDup_keys_set.
    + intros k. rewrite Hget, find_last.
      destruct (find _ (rev ns)); [reflexivity|].
      rewrite get_set. now destruct (String.eqb (id n) k).
Qed.

Lemma buildNodeMap_entry (ns : list Node) k n :
  get (buildNodeMap ns) k = Some n -> id n = k /\ In n ns.
Proof.
  unfold buildNodeMap. destruct (buildNodeMap_fold ns []) as [_ Hget].
  rewrite Hget.
  destruct (find _ (rev ns)) as [n'|] eqn:E; [|discriminate].
  intros [= <-]. apply find_some in E. destruct E as [Hin Heq].
  split; [now apply String.eqb_eq | now apply in_rev].
Qed.

Lemma buildNodeMap_nodup (ns : list Node) : NoDup (keys (buildNodeMap ns)).
Proof.
  unfold buildNodeMap. destruct (buildNodeMap_fold ns []) as [Hnd _].
  apply Hnd. constructor.
Qed.

(** X10.  The map built by [buildNodeMap] has pairwise distinct keys, namely
    the identifiers of the listed items; a lookup returns the last listed
    item with that identifier, so every item is stored under its own
    identifier. *)
Theorem buildNodeMap_lookup (ns : list Node) :
  NoDup (keys (buildNodeMap ns)) /\
  (forall k,
      get (buildNodeMap ns) k
      = find (fun n => String.eqb (id n) k) (rev ns)) /\
  (forall k, In k (keys (buildNodeMap ns)) <-> In k (map id ns)) /\
  (forall k n, get (buildNodeMap ns) k = Some n -> id n = k /\ In n ns).
Proof.
  unfold buildNodeMap.
  destruct (buildNodeMap_fold ns []) as [Hnd Hget].
  assert (Hfind : forall k n,
             find (fun n => String.eqb (id n) k) (rev ns) = Some n ->
             id n = k /\ In n ns).
  { intros k n H. apply find_some in H. destruct H as [Hin Heq].
    split; [now apply String.eqb_eq | now apply in_rev]. }
  assert (Hg : forall k,
             get (fold_left (fun m n => set m (id n) n) ns []) k
             = find (fun n => String.eqb (id n) k) (rev ns)).
  { intros k. rewrite Hget. now destruct (find _ (rev ns)). }
  split; [apply Hnd; constructor|]. split; [exact Hg|]. split.
  - intros k. rewrite <- get_In_keys, Hg. split.
    + destruct (find _ (rev ns)) as [n|] eqn:E; [|congruence].
      intros _. destruct (Hfind k n E) as [<- Hin]. now apply in_map.
    + intros Hin H. apply in_map_iff in Hin. destruct Hin as (n & <- & Hin).
      pose proof (find_none _ _ H n (proj1 (in_rev ns n) Hin)) as Hf.
      simpl in Hf. rewrite String.eqb_refl in Hf. discriminate.
  - intros k n. rewrite Hg. apply Hfind.
Qed.

Lemma buildNodeMap_append (ns : list Node) :
  forall m : JsMap.t Node,
    NoDup (keys m ++ map id ns) ->
    fold_left (fun m n => set m (id n) n) ns m
    = m ++ map (fun n => (id n, n)) ns.
Proof.
  induction ns as [|n ns IH]; intros m Hnd; simpl.
  - now rewrite app_nil_r.
  - simpl in Hnd.
    assert (Hfresh : ~ In (id n) (keys m)).
    { intros Hin. apply NoDup_remove_2 in Hnd. apply Hnd.
      apply in_or_app. now left. }
    rewrite (set_absent m) by assumption. rewrite IH.
    + now rewrite <- app_assoc.
    + unfold keys in *. rewrite map_app, <- app_assoc. exact Hnd.
Qed.

(** X11.  For items with pairwise distinct identifiers [buildNodeMap] keeps
    every item, in the listed order: the map has one entry per item. *)
Theorem buildNodeMap_distinct (ns : list Node) :
  NoDup (map id ns) ->
  buildNodeMap ns = map (fun n => (id n, n)) ns /\
  keys (buildNodeMap ns) = map id ns /\
  size (buildNodeMap ns) = length ns.
Proof.
  intros Hnd.
  assert (E : buildNodeMap ns = map (fun n => (id n, n)) ns)
    by now apply (buildNodeMap_append ns []).
  rewrite E. split; [reflexivity|]. split.
  - unfold keys. rewrite map_map. reflexivity.
  - unfold size. apply length_map.
Qed.

End NodeMap.

(** Two items with the identifiers [a] and [b] give a map of size two. *)
Lemma buildNodeMap_distinct_witness :
  NoDup (map id [Examples.item "a" []; Examples.item "b" ["a"%string]]) /\
  size (buildNodeMap [Examples.item "a" []; Examples.item "b" ["a"%string]])
  = 2.
Proof.
  assert (Hnd : NoDup (map id [Examples.item "a" [];
                               Examples.item "b" ["a"%string]]))
    by TraversalFacts.distinct_keys.
  split; [exact Hnd|].
  exact (proj2 (proj2 (buildNodeMap_distinct _ Hnd))).
Defined.

End NodeMapFacts.

(** ** The graph utilities together *)

Module CompositionFacts.
Import JsMap JsMapFacts JsSetFacts Traversal Builder Graph KahnSpec.
Import FilterSpec TraversalFacts BuilderFacts LevelFacts ClosureFacts.
Import FilterFacts NodeMapFacts.

Section Compose.
Context {TData : Type}.
Variable nodes : JsMap.t (DAGNode TData).

Lemma reach_split a b :
  clos_refl_trans string (dependsOn nodes) a b <->
  a = b \/ clos_trans string (dependsOn nodes) a b.
Proof.
  split.
  - intros H. apply clos_rt_rt1n in H.
    induction H as [|x y z Hs _ IH]; [now left|]. right.
    destruct IH as [<-|IH]; [now apply t_step|].
    eapply t_trans; [apply t_step; eassumption | assumption].
  - intros [<-|H]; [apply rt_refl|].
    induction H; [now apply rt_step | eapply rt_trans; eassumption].
Qed.

(** X12.  The keys of [filterDAGFromRoot(nodes, root)] are the root together
    with [getAncestors(nodes, root)], when the root is a key of the map. *)
Theorem filter_is_root_and_ancestors (rootId : string) :
  exists filtered ancestors,
    filterDAGFromRoot nodes rootId = Some filtered /\
    getAncestors nodes rootId = Some ancestors /\
    forall k,
      In k (keys filtered) <->
      In rootId (keys nodes) /\ (k = rootId \/ In k ancestors).
Proof.
  destruct (filterDAGFromRoot_inv nodes rootId)
    as (f & v & E & Hroot & I & Hr).
  destruct (getAncestors_spec nodes rootId) as (s & Hs & Hsound).
  destruct (getAncestors_complete nodes rootId s Hs) as [_ Hcomplete].
  exists f, s. split; [assumption|]. split; [assumption|].
  intros k. rewrite (filtered_keys nodes rootId f v Hroot I Hr), reach_split.
  split; intros [Hk [Heq|H]]; (split; [assumption|]); auto.
Qed.

Hypothesis nodes_nodup : NoDup (keys nodes).

(** X13.  For a key [x] of the map, [x] is among the ancestors of [y]
    exactly when [y] is among the descendants of [x]. *)
Theorem ancestors_descendants_dual (x y : string) :
  In x (keys nodes) ->
  exists ancestors descendants,
    getAncestors nodes y = Some ancestors /\
    getDescendants nodes x = Some descendants /\
    (In x ancestors <-> In y descendants).
Proof.
  intros Hx.
  destruct (getAncestors_spec nodes y) as (anc & Ha & Hsa).
  destruct (getDescendants_spec nodes x) as (desc & Hd & Hsd).
  exists anc, desc. split; [assumption|]. split; [assumption|].
  split; intros H.
  - apply (getDescendants_complete nodes x desc Hd). apply Hsa in H.
    clear -H. induction H as [a b (node & Hg & Hin & _)|a b c _ IH1 _ IH2].
    + apply t_step. exists node. split; [now apply get_Some_In | assumption].
    + eapply t_trans; eassumption.
  - apply (getAncestors_complete nodes y anc Ha). apply Hsd in H.
    destruct (hasDependent_trans nodes nodes_nodup x y H) as [_ Hp]. auto.
Qed.

(** X14.  When [buildLeveledDAG] accepts a map it accepts the part that
    [filterDAGFromRoot] keeps for any root, and every kept item comes out
    with the level it has in the whole map. *)
Theorem filtered_levels_agree (rootId : string) (dag : DependencyDAG TData) :
  buildLeveledDAG nodes = Some (Return dag) ->
  exists filtered dag',
    filterDAGFromRoot nodes rootId = Some filtered /\
    buildLeveledDAG filtered = Some (Return dag') /\
    forall k n,
      get (Types.nodes dag') k = Some n -> get (Types.nodes dag) k = Some n.
Proof.
  intros Hrun.
  destruct (filterDAGFromRoot_inv nodes rootId)
    as (f & v & E & Hroot & I & Hr).
  destruct (returned_sound nodes nodes_nodup dag Hrun) as [Hacyc Hdist].
  destruct (filtered_edges nodes f v I) as [Hsub Hdeps].
  assert (Hnd : NoDup (keys f)) by apply I.
  assert (Hacyc' : acyclic f).
  { assert (Hmono : forall a b,
               clos_trans string (dependsOn f) a b ->
               clos_trans string (dependsOn nodes) a b).
    { induction 1; [apply t_step; auto | eapply t_trans; eassumption]. }
    intros k Hc. apply (Hacyc k), Hmono, Hc. }
  assert (Hdist' : distinctDeps f).
  { intros k node Hk. rewrite (Hdeps k node Hk).
    apply (Hdist k). now apply (f_values _ _ _ _ I). }
  destruct (acyclic_levels f Hnd Hacyc' Hdist') as (dag' & Hrun' & Hlev').
  destruct (acyclic_levels nodes nodes_nodup Hacyc Hdist)
    as (dag0 & Hrun0 & Hlev).
  rewrite Hrun in Hrun0. injection Hrun0 as <-.
  destruct (returned_entries nodes nodes_nodup dag Hrun) as [HkM HeM].
  destruct (returned_entries f Hnd dag' Hrun') as [HkM' HeM'].
  exists f, dag'. split; [assumption|]. split; [assumption|].
  assert (Hind : forall l k n n',
             get (Types.nodes dag) k = Some n -> level n = Some l ->
             get (Types.nodes dag') k = Some n' -> n' = n).
  { induction l as [l IH] using lt_wf_ind. intros k n n' Hn Hl Hn'.
    pose proof (Hlev k n Hn) as Hex. pose proof (Hlev' k n' Hn') as Hex'.
    destruct (HeM k n Hn) as (n0 & i & Hn0 & ->).
    destruct (HeM' k n' Hn') as (n0' & i' & Hn0' & ->).
    pose proof (Hdeps k n0' Hn0') as Hd.
    apply (f_values _ _ _ _ I) in Hn0'.
    rewrite Hn0 in Hn0'. injection Hn0' as <-.
    simpl in Hl, Hex, Hex'. injection Hl as ->.
    injection Hex as Hex. injection Hex' as Hex'.
    set (D := depsInDag nodes n0) in *.
    assert (HexM : l = match D with
                       | [] => 0
                       | _ :: _ =>
                           S (list_max (map (levelOf (Types.nodes dag)) D))
                       end).
    { etransitivity; [exact Hex|]. unfold expectedLevel.
      rewrite (depsInDag_same_keys (Types.nodes dag) nodes
                 (set_level n0 l) n0 HkM eq_refl).
      fold D. now destruct D. }
    assert (HexM' : i' = match D with
                         | [] => 0
                         | _ :: _ =>
                             S (list_max (map (levelOf (Types.nodes dag')) D))
                         end).
    { etransitivity; [exact Hex'|]. unfold expectedLevel.
      rewrite (depsInDag_same_keys (Types.nodes dag') f
                 (set_level n0 i') n0 HkM' eq_refl).
      rewrite Hd. now destruct D. }
    clear Hex Hex'.
    assert (Hlt : forall d, In d D -> levelOf (Types.nodes dag) d < l).
    { intros d Hin. rewrite HexM.
      destruct D as [|d0 ds]; [destruct Hin|].
      apply Nat.lt_succ_r. apply list_max_In. now apply in_map. }
    assert (Hsame : map (levelOf (Types.nodes dag')) D
                    = map (levelOf (Types.nodes dag)) D).
    { apply map_ext_in. intros d Hin.
      pose proof (Hlt d Hin) as Hld.
      assert (HdF : In d (keys f)).
      { rewrite <- Hd in Hin. apply filter_In in Hin.
        now apply has_In_keys. }
      assert (HdN : In d (keys nodes)) by now apply (f_keys _ _ _ _ I) in HdF.
      rewrite <- HkM in HdN. rewrite <- HkM' in HdF.
      apply get_In_keys in HdN, HdF.
      destruct (get (Types.nodes dag) d) as [nd|] eqn:End; [|congruence].
      destruct (get (Types.nodes dag') d) as [nd'|] eqn:End'; [|congruence].
      destruct (HeM d nd End) as (m0 & ld & _ & ->).
      assert (Hlev_d : levelOf (Types.nodes dag) d = ld)
        by (unfold levelOf; now rewrite End).
      rewrite Hlev_d in Hld |- *.
      rewrite (IH ld Hld d (set_level m0 ld) nd' End eq_refl End') in End'.
      unfold levelOf. now rewrite End'. }
    assert (Heq : i' = l) by (rewrite HexM', HexM, Hsame; reflexivity).
    now rewrite Heq. }
  intros k n' Hn'.
  assert (Hk : In k (keys (Types.nodes dag))).
  { rewrite HkM. apply (f_keys _ _ _ _ I). rewrite <- HkM'.
    apply get_In_keys. congruence. }
  apply get_In_keys in Hk.
  destruct (get (Types.nodes dag) k) as [n|] eqn:En; [|congruence].
  destruct (HeM k n En) as (n0 & l & _ & ->).
  now rewrite (Hind l k (set_level n0 l) n' En eq_refl Hn').
Qed.

End Compose.

(** X15.  The graph that [buildLeveledDAG] returns for a map made by
    [buildNodeMap] holds every item under its own identifier, and the
    identifiers along its flattened levels are the keys of the map, each
    once. *)
Theorem leveled_node_map_ids {TData : Type} (ns : list (DAGNode TData))
  (dag : DependencyDAG TData) :
  buildLeveledDAG (buildNodeMap ns) = Some (Return dag) ->
  (forall k n, get (Types.nodes dag) k = Some n -> id n = k) /\
  Permutation (map id (getTopologicalOrder dag)) (keys (buildNodeMap ns)) /\
  ExecSpec.distinctIds dag.
Proof.
  intros Hrun.
  pose proof (buildNodeMap_nodup ns) as Hnd.
  destruct (returned_final (buildNodeMap ns) Hnd dag Hrun)
    as (st & _ & I & Hc & Hk & ->).
  unfold ExecSpec.distinctIds, getTopologicalOrder. simpl.
  assert (Hid : forall k n, get (l_nodes st) k = Some n -> id n = k).
  { intros k n Hn.
    assert (Hin : In k (keys (buildNodeMap ns))).
    { rewrite <- Hk. apply get_In_keys. congruence. }
    destruct (final_entry (buildNodeMap ns) st k I Hc Hin)
      as (n0 & l & Hn0 & _ & Hg).
    rewrite Hg in Hn. injection Hn as <-. simpl.
    now apply (buildNodeMap_entry ns k n0). }
  assert (Hflat : map id (concat (l_levels st)) = keys (l_nodeLevel st)).
  { rewrite (final_flat (buildNodeMap ns) st I), map_map.
    rewrite <- (map_id (keys (l_nodeLevel st))) at 2.
    apply map_ext_in. intros k Hin.
    apply (final_incl (buildNodeMap ns) st I) in Hin.
    rewrite <- Hk in Hin. apply get_In_keys in Hin. unfold nodeAt.
    destruct (get (l_nodes st) k) as [n|] eqn:En; [|congruence].
    now apply Hid. }
  assert (Hperm : Permutation (keys (l_nodeLevel st))
                              (keys (buildNodeMap ns))).
  { apply NoDup_Permutation_bis.
    - now apply (final_nodup (buildNodeMap ns) st).
    - rewrite (inv_count _ _ _ I) in Hc. unfold keys, size in *.
      rewrite !length_map. lia.
    - now apply (final_incl (buildNodeMap ns) st). }
  split; [exact Hid|]. rewrite Hflat. split; [exact Hperm|].
  eapply Permutation_NoDup; [symmetry; exact Hperm | exact Hnd].
Qed.

(** In the diamond [a] is an ancestor of [d] and [d] a descendant of
    [a]. *)
Lemma ancestors_descendants_dual_witness :
  NoDup (keys Examples.diamond) /\
  In "a"%string (keys Examples.diamond) /\
  exists ancestors descendants,
    getAncestors Examples.diamond "d" = Some ancestors /\
    getDescendants Examples.diamond "a" = Some descendants /\
    (In "a"%string ancestors <-> In "d"%string descendants).
Proof.
  assert (Hnd : NoDup (keys Examples.diamond)) by distinct_keys.
  assert (Hin : In "a"%string (keys Examples.diamond)) by (simpl; auto).
  split; [exact Hnd|]. split; [exact Hin|].
  exact (ancestors_descendants_dual Examples.diamond Hnd "a" "d" Hin).
Defined.

(** The part of the diamond below [b] is accepted with the levels of the
    whole diamond. *)
Lemma filtered_levels_agree_witness :
  NoDup (keys Examples.diamond) /\
  buildLeveledDAG Examples.diamond
  = Some (Return (Examples.leveledDAG Examples.diamond)) /\
  exists filtered dag',
    filterDAGFromRoot Examples.diamond "b" = Some filtered /\
    buildLeveledDAG filtered = Some (Return dag') /\
    forall k n,
      get (Types.nodes dag') k = Some n ->
      get (Types.nodes (Examples.leveledDAG Examples.diamond)) k = Some n.
Proof.
  assert (Hnd : NoDup (keys Examples.diamond)) by distinct_keys.
  assert (Hrun : buildLeveledDAG Examples.diamond
                 = Some (Return (Examples.leveledDAG Examples.diamond)))
    by (vm_compute; reflexivity).
  split; [exact Hnd|]. split; [exact Hrun|].
  exact (filtered_levels_agree Examples.diamond Hnd "b" _ Hrun).
Defined.

(** The leveled chain holds [a], [b] and [c] once each. *)
Lemma leveled_node_map_ids_witness :
  buildLeveledDAG
    (buildNodeMap [Examples.item "a" []; Examples.item "b" ["a"%string];
                   Examples.item "c" ["b"%string]])
  = Some (Return (Examples.leveledDAG Examples.chain)) /\
  ExecSpec.distinctIds (Examples.leveledDAG Examples.chain).
Proof.
  assert (Hrun : buildLeveledDAG
                   (buildNodeMap [Examples.item "a" [];
                                  Examples.item "b" ["a"%string];
                                  Examples.item "c" ["b"%string]])
                 = Some (Return (Examples.leveledDAG Examples.chain)))
    by (vm_compute; reflexivity).
  split; [exact Hrun|].
  exact (proj2 (proj2 (leveled_node_map_ids _ _ Hrun))).
Defined.

End CompositionFacts.

(** ** Schedules of the executor *)

Module ScheduleFacts.
Import JsMap JsMapFacts Executor ExecSpec ScheduleSpec ExecutorFacts.

Section Moves.
Context {TData TOutput : Type}.
Variable processor : DAGNode TData -> @Outcome TData TOutput.
Variable options : @DAGExecutionOptions TData TOutput.
Variable dag : DependencyDAG TData.

Local Abbreviation Inv := (ExecInv processor options dag).
Local Abbreviation start := (@initial TData TOutput dag).
Local Abbreviation fresh := (fun n : DAGNode TData => mkTask n false None).
Local Abbreviation work := (arrowOutcome processor options).

Lemma dispatch_dispatched items :
  forall executing trace items' executing' trace' a,
    dispatch options false items executing trace
    = (items', executing', trace', a) ->
    exists sent,
      dispatched items executing sent items' a /\
      executing' = executing ++ map fresh sent /\
      trace' = trace ++ flat_map (startCalls options) sent.
Proof.
  induction items as [|item rest IH];
    intros executing trace items' executing' trace' a Hd;
    cbn [dispatch startTask] in Hd.
  - injection Hd as <- <- <- <-. exists []. simpl. rewrite !app_nil_r.
    split; [|auto]. split; [reflexivity|]. left. now rewrite app_nil_r.
  - destruct (sizeAtLeast (length (executing ++ [fresh item]))
                          (limitOf options)).
    + injection Hd as <- <- <- <-. exists [item]. cbn [map flat_map].
      rewrite app_nil_r.
      split; [|auto]. split; [reflexivity|]. right.
      split; [discriminate | reflexivity].
    + apply IH in Hd. destruct Hd as (sent & (Hitems & Ha) & -> & ->).
      exists (item :: sent). cbn [map flat_map]. rewrite <- !app_assoc.
      cbn [app].
      split; [|auto]. split; [now rewrite Hitems|].
      destruct Ha as [[-> ->]|[Hne ->]]; [left | right];
        rewrite <- app_assoc; cbn [app]; auto.
      split; [discriminate | reflexivity].
Qed.

Lemma completeLevel_recorded (st : @State TData TOutput) :
  completeLevel options st = nextLevel options (recorded options st).
Proof.
  unfold completeLevel. now rewrite recordResult_fold.
Qed.

Lemma nextLevel_Transition (st : @State TData TOutput) :
  s_status st = Suspended (All None) ->
  s_executing st = [] -> s_items st = [] ->
  Transition processor options st (completeLevel options st).
Proof.
  intros Hst He Hi. rewrite completeLevel_recorded. unfold nextLevel.
  destruct (s_levels (recorded options st)) as [|level rest] eqn:Hlv.
  { apply T_return; auto. }
  destruct (s_shouldStop (recorded options st)) eqn:Hstop.
  { apply T_return; auto. }
  destruct (dispatch options false level [] (s_trace (recorded options st)))
    as [[[items' executing'] trace'] a] eqn:Hd.
  destruct (dispatch_dispatched _ _ _ _ _ _ _ Hd) as (sent & Hdis & -> & ->).
  pose proof (T_level processor options st level rest sent items' a
                Hst He Hi Hlv Hstop Hdis) as T.
  rewrite Hstop in T. exact T.
Qed.

Lemma start_Transition :
  Transition processor options start (executeDAG options dag).
Proof.
  replace (executeDAG options dag)
    with (completeLevel options start).
  - now apply nextLevel_Transition.
  - reflexivity.
Qed.

Lemma step_Transition st e st' :
  Inv st -> step processor options st e = Some st' ->
  Transition processor options st st'.
Proof.
  intros I Hs. unfold step in Hs.
  destruct (s_status st) as [a|c] eqn:Hst.
  2:{ destruct e; discriminate. }
  destruct (running_quiet processor options dag st I) as [Hstop _];
    [rewrite Hst; discriminate|].
  destruct e as [i|].
  - assert (Hs' : settle processor options i a st = Some st')
      by (destruct a as [[| |?]|[?|]]; exact Hs).
    clear Hs. unfold settle in Hs'.
    destruct (nth_error (s_executing st) i) as [task|] eqn:Hn; [|discriminate].
    destruct (t_rejected task) eqn:Hrej; [discriminate|].
    assert (Hskip : t_skipped task = false).
    { pose proof (e_tasks _ _ _ _ I) as HF. rewrite Forall_forall in HF.
      apply HF. eapply nth_error_In. eassumption. }
    unfold taskOutcome in Hs'. rewrite Hskip in Hs'.
    destruct (work (t_node task)) as [result|reason] eqn:Hp;
      injection Hs' as <-.
    + destruct (settle_fulfilled processor options task result Hskip Hp)
        as [-> _].
      now apply (T_fulfil processor options st a i task result).
    + now apply (T_reject processor options st a i task reason).
  - destruct a as [[| |reason]|[reason|]]; try discriminate.
    + injection Hs as <-. unfold resumeLoop. rewrite Hstop.
      destruct (dispatch options false (s_items st) (s_executing st)
                  (s_trace st))
        as [[[items' executing'] trace'] a] eqn:Hd.
      destruct (dispatch_dispatched _ _ _ _ _ _ _ Hd)
        as (sent & Hdis & -> & ->).
      pose proof (T_resume processor options st sent items' a Hst Hdis) as T.
      rewrite Hstop in T. exact T.
    + injection Hs as <-. apply T_throw. now left.
    + injection Hs as <-. apply T_throw. now right.
    + destruct (s_executing st) eqn:He; [|discriminate].
      injection Hs as <-. apply nextLevel_Transition; auto.
      now apply (e_all _ _ _ _ I None).
Qed.

Lemma initial_inv : Inv start.
Proof.
  constructor; simpl; auto; try discriminate.
  - exists []. auto.
  - intros r [].
  - exists []. auto.
  - split; [left; lia | discriminate].
  - intros _ H. now destruct H.
Qed.

(** Induction over the states a call reaches. *)
Lemma reachable_ind (P : @State TData TOutput -> Prop) :
  P start ->
  (forall st st',
      Inv st -> Inv st' -> P st -> Transition processor options st st' ->
      P st') ->
  forall st, reachable processor options dag st -> P st.
Proof.
  intros Hinit Hstep st (events & Hr).
  assert (Hstart : P (executeDAG options dag)).
  { apply (Hstep start); auto using initial_inv, start_Transition.
    apply executeDAG_inv. }
  pose proof (executeDAG_inv processor options dag) as I.
  revert Hr Hstart I. generalize (@executeDAG TData TOutput options dag).
  induction events as [|e events IH]; intros st0 Hr H0 I0; simpl in Hr.
  - now injection Hr as <-.
  - destruct (step processor options st0 e) as [st1|] eqn:Hs; [|discriminate].
    assert (I1 : Inv st1) by (eapply step_inv; eassumption).
    apply (IH st1); auto.
    apply (Hstep st0); auto. eapply step_Transition; eassumption.
Qed.

(** *** Levels are barriers *)

Lemma underWay_reachable st :
  reachable processor options dag st -> underWay processor options dag st.
Proof.
  apply reachable_ind.
  { exists [], [], [], []. simpl. repeat split; auto; constructor. }
  clear st.
  intros st st' I I'
         (done & cur & sent & stored & Hl & Hlen & Hcur & Hinv & Hcom
          & Hpd & Hps & Hex) T.
  destruct T as [a i task result Hst Hn Hrej Hskip Hp
                |a i task reason Hst Hn Hrej Hskip Hp
                |sent2 items' a Hst (Hitems & Ha)
                |reason Hst
                |Hst He Hi Hstop
                |level rest sent2 items' a Hst He Hi Hlv Hstop (Hitems & Ha)];
    unfold underWay; simpl.
  - destruct (removeNth_perm (fun t => work (t_node t)) _ _ _ Hn)
      as (Hperm & _ & HF).
    destruct (settle_fulfilled processor options task result Hskip Hp)
      as [_ Hdel].
    exists done, cur, sent, stored.
    split; [assumption|]. split; [assumption|]. split; [assumption|].
    split; [now rewrite started_app, app_nil_r|].
    split; [rewrite delivered_app, Hdel, Hcom, <- app_assoc; reflexivity|].
    split; [assumption|]. split; [|now apply HF].
    rewrite Hps, Hperm, Hp, map_app, <- app_assoc. reflexivity.
  - destruct (rejectNth_spec reason (s_executing st) i) as (Hnodes & _ & _).
    destruct (settle_rejected processor options task reason Hskip Hp)
      as (Hs0 & _ & _ & Hd0 & _).
    exists done, cur, sent, stored.
    split; [assumption|]. split; [assumption|]. split; [assumption|].
    split; [now rewrite started_app, Hs0, app_nil_r|].
    split; [now rewrite delivered_app, Hd0, app_nil_r|].
    split; [assumption|].
    split.
    + now rewrite <- (map_map t_node work), Hnodes, map_map.
    + apply (Forall_map_eq t_node (fun n => In n sent) (s_executing st));
        [now symmetry | assumption].
  - exists done, cur, (sent ++ sent2), stored.
    split; [assumption|]. split; [assumption|].
    split; [rewrite Hcur, Hitems, app_assoc; reflexivity|].
    split; [rewrite started_app, started_calls, Hinv, app_assoc; reflexivity|].
    split; [rewrite delivered_app, delivered_calls, app_nil_r; assumption|].
    split; [assumption|]. split.
    + rewrite !map_app, map_map. simpl. rewrite app_assoc.
      now apply Permutation_app_tail.
    + apply Forall_app. split.
      * eapply Forall_impl; [|exact Hex]. intros t Ht.
        apply in_or_app. now left.
      * apply Forall_forall. intros t Ht. apply in_map_iff in Ht.
        destruct Ht as (n & <- & Hn). apply in_or_app. now right.
  - exists done, cur, sent, stored. auto 10.
  - rewrite Hi, app_nil_r in Hcur. rewrite He in Hps. simpl in Hps.
    rewrite app_nil_r in Hps.
    exists (done ++ cur), [], [], (stored ++ s_levelResults st).
    split; [rewrite <- app_assoc; assumption|]. split; [simpl; lia|].
    split; [now rewrite Hi|].
    split; [rewrite concat_app, Hcur, app_nil_r; assumption|].
    split; [now rewrite app_nil_r|].
    split; [|rewrite He; split; constructor].
    rewrite concat_app, !map_app, Hcur. now apply Permutation_app.
  - rewrite Hi, app_nil_r in Hcur. rewrite He in Hps. simpl in Hps.
    rewrite app_nil_r in Hps.
    exists (done ++ cur), [level], sent2, (stored ++ s_levelResults st).
    split; [rewrite Hl, Hlv, <- app_assoc; reflexivity|].
    split; [simpl; lia|].
    split; [simpl; rewrite app_nil_r; assumption|].
    split.
    { rewrite started_app, started_calls, concat_app, Hcur, Hinv.
      reflexivity. }
    split; [rewrite delivered_app, delivered_calls, !app_nil_r; assumption|].
    split; [rewrite concat_app, !map_app, Hcur; now apply Permutation_app|].
    split; [rewrite map_map; reflexivity|].
    apply Forall_forall. intros t Ht. apply in_map_iff in Ht.
    now destruct Ht as (n & <- & Hn).
Qed.

(** The promise of the arrow function fulfilled for every node of a list:
    so did the promise of the work function, with the same results. *)
Lemma fulfilled_work (l : list (DAGNode TData)) rs n :
  Permutation (map work l) (map Fulfilled rs) -> In n l ->
  exists r, processor n = Fulfilled r /\ In r rs.
Proof.
  intros Hp Hn.
  assert (H : In (work n) (map Fulfilled rs)).
  { eapply Permutation_in; [exact Hp | now apply in_map]. }
  apply in_map_iff in H. destruct H as (r & Hr & Hin).
  exists r. split; [|assumption].
  symmetry in Hr. now apply arrow_Fulfilled in Hr.
Qed.

(** X16.  Levels are barriers.  In every state that [executeDAG] reaches
    the levels fall into those that are complete, at most one level under
    way and those not started: every task in flight and every item still to
    dispatch belongs to the level under way, and the work function has
    settled with a result, handed to [onNodeComplete], for every item of
    every complete level. *)
Theorem earlier_levels_complete st :
  reachable processor options dag st ->
  exists done current,
    levels dag = done ++ current ++ s_levels st /\
    length current <= 1 /\
    Forall (fun t => In (t_node t) (concat current)) (s_executing st) /\
    incl (s_items st) (concat current) /\
    forall n,
      In n (concat done) ->
      exists r, processor n = Fulfilled r /\ In r (completed (s_trace st)).
Proof.
  intros Hr.
  destruct (underWay_reachable st Hr)
    as (done & cur & sent & stored & Hl & Hlen & Hcur & Hinv & Hcom
        & Hpd & Hps & Hex).
  exists done, cur. split; [assumption|]. split; [assumption|].
  split; [|split].
  - eapply Forall_impl; [|exact Hex]. intros t Ht. rewrite Hcur.
    apply in_or_app. now left.
  - intros n Hn. rewrite Hcur. apply in_or_app. now right.
  - intros n Hn.
    destruct (fulfilled_work _ _ n Hpd Hn) as (r & Hp & Hin).
    exists r. split; [assumption|].
    apply (delivered_completed options). rewrite Hcom.
    apply in_or_app. now left.
Qed.

(** X17.  When [executeWithConcurrency] returns - the final [Promise.all]
    has settled with nothing rejected - its result list holds exactly one
    result for each item of the level, the one the work function produced
    for it. *)
Theorem level_results_cover_level st :
  reachable processor options dag st ->
  s_status st = Suspended (All None) -> s_executing st = [] ->
  exists done current,
    levels dag = done ++ current ++ s_levels st /\
    length current <= 1 /\
    Permutation (map processor (concat current))
                (map Fulfilled (s_levelResults st)).
Proof.
  intros Hr Hst He.
  pose proof (reachable_inv processor options dag st Hr) as I.
  pose proof (e_all _ _ _ _ I None Hst) as Hi.
  destruct (underWay_reachable st Hr)
    as (done & cur & sent & stored & Hl & Hlen & Hcur & _ & _ & _ & Hps & _).
  exists done, cur. split; [assumption|]. split; [assumption|].
  rewrite He in Hps. simpl in Hps. rewrite app_nil_r in Hps.
  rewrite Hcur, Hi, app_nil_r.
  rewrite <- (arrow_map processor options _ _ Hps). exact Hps.
Qed.

(** *** When every level runs *)

Lemma stopsOnFailure_reachable st :
  reachable processor options dag st -> stopsOnFailure options st.
Proof.
  apply reachable_ind.
  { split; simpl; intros; discriminate. }
  clear st. intros st st' I I' [Hstop Hdone] T.
  destruct T as [a i task result Hst Hn Hrej Hskip Hp
                |a i task reason Hst Hn Hrej Hskip Hp
                |sent2 items' a Hst (Hitems & Ha)
                |reason Hst
                |Hst He Hi Hlast
                |level rest sent2 items' a Hst He Hi Hlv Hgo (Hitems & Ha)];
    split; simpl; try discriminate; try assumption.
  - intros Hs. unfold recorded in Hlast. simpl in Hlast.
    destruct (failFastOf options) eqn:Hff; simpl in *.
    + destruct (existsb _ (s_levelResults st)) eqn:Hex.
      * split; [reflexivity|]. intros Hnil.
        apply app_eq_nil in Hnil. destruct Hnil as [_ Hnil].
        unfold failedIds in Hnil. apply map_eq_nil in Hnil.
        apply existsb_exists in Hex. destruct Hex as (r & Hin & Hr).
        assert (Hf : In r (filter (fun r => negb (success r))
                                  (s_levelResults st)))
          by (apply filter_In; auto).
        rewrite Hnil in Hf. destruct Hf.
      * destruct (Hstop Hs) as [_ Hne]. split; [reflexivity|].
        intros Hnil. apply app_eq_nil in Hnil. tauto.
    + destruct (Hstop Hs). discriminate.
  - intros r _. exact Hlast.
  - intros Hs. unfold recorded in Hgo. simpl in Hgo. congruence.
Qed.

Lemma returned_all st result :
  answersForNode processor -> distinctIds dag ->
  reachable processor options dag st ->
  s_status st = Done (Return result) ->
  s_shouldStop st = false ->
  s_levels st = [] /\
  invoked (s_trace st) = concat (levels dag) /\
  failedNodes result = failedIds (completed (s_trace st)) /\
  forall n,
    In n (concat (levels dag)) ->
    exists r,
      processor n = Fulfilled r /\ In r (completed (s_trace st)) /\
      get (results result) (id n) = Some r.
Proof.
  intros Hans Hdist Hr Hst Hstop.
  pose proof (reachable_inv processor options dag st Hr) as I.
  destruct (stopsOnFailure_reachable st Hr) as [_ Hdone].
  destruct (Hdone result Hst) as [Hlv|Hs]; [|congruence].
  destruct (e_done _ _ _ _ I result Hst) as (Hitems & He & Hlr & ->). simpl.
  destruct (rest_levels processor options dag st I Hitems He)
    as (done & Hd & Hinv).
  rewrite Hlv, app_nil_r in Hd. subst done.
  split; [assumption|]. split; [assumption|].
  split; [now apply (rest_failed processor options dag st I He Hlr)|].
  intros n Hn. rewrite <- Hinv in Hn.
  destruct (rest_entry processor options dag st I Hitems He Hlr Hdist Hans
              n Hn) as (r & Hp & Hg).
  exists r. split; [assumption|]. split; [|assumption].
  assert (H : In (Fulfilled r) (map Fulfilled (completed (s_trace st)))).
  { eapply Permutation_in;
      [apply (rest_outcomes processor options dag st I He)|].
    rewrite <- Hp. now apply in_map. }
  apply in_map_iff in H. destruct H as (r' & [= ->] & Hin). exact Hin.
Qed.

(** X18.  A call that returns with [success] true has run every level:
    every item of the graph has an entry in the results map, the result the
    work function produced for it, and that result is successful. *)
Theorem success_covers_every_item st result :
  answersForNode processor -> distinctIds dag ->
  reachable processor options dag st ->
  s_status st = Done (Return result) ->
  dag_success result = true ->
  s_levels st = [] /\
  forall n,
    In n (concat (levels dag)) ->
    exists r,
      processor n = Fulfilled r /\ success r = true /\
      get (results result) (id n) = Some r.
Proof.
  intros Hans Hdist Hr Hst Hok.
  pose proof (reachable_inv processor options dag st Hr) as I.
  destruct (stopsOnFailure_reachable st Hr) as [Hstop _].
  assert (Hnil : s_failedNodes st = []).
  { destruct (e_done _ _ _ _ I result Hst) as (_ & _ & _ & ->).
    simpl in Hok. apply Nat.eqb_eq in Hok.
    now apply length_zero_iff_nil. }
  assert (Hgo : s_shouldStop st = false).
  { destruct (s_shouldStop st); [|reflexivity].
    destruct Hstop as [_ Hne]; [reflexivity | contradiction]. }
  destruct (returned_all st result Hans Hdist Hr Hst Hgo)
    as (Hlv & _ & Hf & Hall).
  split; [assumption|]. intros n Hn.
  destruct (Hall n Hn) as (r & Hp & Hin & Hg).
  exists r. split; [assumption|]. split; [|assumption].
  destruct (success r) eqn:Hs; [reflexivity|]. exfalso.
  destruct (e_done _ _ _ _ I result Hst) as (_ & _ & _ & Hres).
  rewrite Hres in Hf. simpl in Hf. rewrite Hnil in Hf.
  symmetry in Hf. unfold failedIds in Hf. apply map_eq_nil in Hf.
  assert (H : In r (filter (fun r => negb (success r))
                           (completed (s_trace st)))).
  { apply filter_In. split; [assumption|]. now rewrite Hs. }
  rewrite Hf in H. destruct H.
Qed.

Lemma NoDup_map_eq {A B} (f : A -> B) (l : list A) a b :
  NoDup (map f l) -> In a l -> In b l -> f a = f b -> a = b.
Proof.
  induction l as [|x l IH]; simpl; [tauto|].
  intros Hnd Ha Hb Heq. inversion Hnd as [|? ? Hx Hnd']; subst.
  destruct Ha as [->|Ha], Hb as [->|Hb]; auto.
  - exfalso. apply Hx. rewrite Heq. now apply in_map.
  - exfalso. apply Hx. rewrite <- Heq. now apply in_map.
Qed.

(** X19.  With [failFast] off every level runs: a call that returns has
    called the work function on every item, in level order; every item has
    its result in the results map; and the failed list names exactly the
    items whose result is unsuccessful. *)
Theorem continue_on_error_runs_all st result :
  failFastOf options = false ->
  answersForNode processor -> distinctIds dag ->
  reachable processor options dag st ->
  s_status st = Done (Return result) ->
  s_levels st = [] /\
  invoked (s_trace st) = concat (levels dag) /\
  forall n,
    In n (concat (levels dag)) ->
    exists r,
      processor n = Fulfilled r /\
      get (results result) (id n) = Some r /\
      (In (id n) (failedNodes result) <-> success r = false).
Proof.
  intros Hff Hans Hdist Hr Hst.
  pose proof (reachable_inv processor options dag st Hr) as I.
  destruct (stopsOnFailure_reachable st Hr) as [Hstop _].
  assert (Hgo : s_shouldStop st = false).
  { destruct (s_shouldStop st); [|reflexivity].
    destruct Hstop as [Hf _]; [reflexivity | congruence]. }
  destruct (returned_all st result Hans Hdist Hr Hst Hgo)
    as (Hlv & Hinv & Hf & Hall).
  split; [assumption|]. split; [assumption|]. intros n Hn.
  destruct (Hall n Hn) as (r & Hp & Hin & Hg).
  exists r. split; [assumption|]. split; [assumption|].
  rewrite Hf. unfold failedIds. rewrite in_map_iff. split.
  - intros (r' & Hid & Hr'). apply filter_In in Hr'.
    destruct Hr' as [Hin' Hs'].
    destruct (e_done _ _ _ _ I result Hst) as (Hitems & He & Hlr & _).
    destruct (rest_completed processor options dag st I He Hans r' Hin')
      as [Hn' Hp'].
    assert (Heq : node r' = n).
    { apply (NoDup_map_eq id (concat (levels dag))); auto.
      now rewrite <- Hinv. }
    rewrite Heq, Hp in Hp'. injection Hp' as ->.
    now apply negb_true_iff.
  - intros Hs. exists r. split; [now rewrite (Hans n r Hp)|].
    apply filter_In. split; [assumption|]. now rewrite Hs.
Qed.

(** *** Rejections *)

Lemma firstRejection_Some (l : list (@Task TData)) reason :
  firstRejection l = Some reason ->
  exists t, In t l /\ t_rejected t = Some reason.
Proof.
  unfold firstRejection.
  destruct (filter _ l) as [|t l'] eqn:E; [discriminate|].
  intros Ht. exists t. split; [|assumption].
  assert (H : In t (t :: l')) by now left.
  rewrite <- E in H. now apply filter_In in H.
Qed.

Lemma firstRejection_None (l : list (@Task TData)) :
  firstRejection l = None -> Forall (fun t => t_rejected t = None) l.
Proof.
  unfold firstRejection. intros H. apply Forall_forall. intros t Ht.
  destruct (t_rejected t) as [reason|] eqn:Et; [|reflexivity]. exfalso.
  assert (Hin : In t (filter (fun t => match t_rejected t with
                                       | Some _ => true
                                       | None => false
                                       end) l)).
  { apply filter_In. split; [assumption|]. now rewrite Et. }
  destruct (filter _ l) as [|t' l'] eqn:E; [destruct Hin|].
  assert (H' : In t' (t' :: l')) by now left.
  rewrite <- E in H'. apply filter_In in H'. destruct H' as [_ H'].
  rewrite H in H'. discriminate.
Qed.

Lemma In_rejectNth reason (l : list (@Task TData)) :
  forall i task t,
    nth_error l i = Some task -> In t (rejectNth i reason l) ->
    In t l \/ t = mkTask (t_node task) (t_skipped task) (Some reason).
Proof.
  induction l as [|x l IH]; intros [|i] task t Hn Hin; simpl in *;
    try discriminate.
  - injection Hn as ->. destruct Hin as [<-|Hin]; auto.
  - destruct Hin as [<-|Hin]; [auto|].
    destruct (IH i task t Hn Hin); auto.
Qed.

Lemma rejectNth_In reason (l : list (@Task TData)) :
  forall i task,
    nth_error l i = Some task ->
    In (mkTask (t_node task) (t_skipped task) (Some reason))
       (rejectNth i reason l).
Proof.
  induction l as [|x l IH]; intros [|i] task Hn; simpl in *;
    try discriminate.
  - injection Hn as ->. now left.
  - right. eauto.
Qed.

Lemma dispatched_blame items executing sent items' a reason :
  dispatched items executing sent items' a ->
  a = Race (Lost reason) \/ a = All (Some reason) ->
  exists t, In t (executing ++ map fresh sent) /\
            t_rejected t = Some reason.
Proof.
  intros (_ & [[_ ->]|[_ ->]]) [H|H]; try discriminate;
    apply firstRejection_Some.
  - congruence.
  - unfold raceOf in H. destruct (firstRejection _); congruence.
Qed.

Lemma cause_app (t1 t2 : list (@Observation TData TOutput)) reason :
  cause processor options t1 reason ->
  cause processor options (t1 ++ t2) reason.
Proof.
  unfold cause. rewrite invoked_app, started_app, completed_app.
  intros [(n & Hn & H)|[(n & Hn & H)|(r & Hr & H)]];
    [left; exists n | right; left; exists n | right; right; exists r];
    (split; [apply in_or_app; now left | assumption]).
Qed.

(** A task that rejects has its cause in the trace once it has settled. *)
Lemma rejection_cause (trace : list (@Observation TData TOutput))
  (t : @Task TData) reason :
  t_skipped t = false ->
  In (t_node t) (started trace) ->
  invoked trace = filter (startReturns options) (started trace) ->
  work (t_node t) = Rejected reason ->
  cause processor options (trace ++ completionCalls processor options t)
        reason.
Proof.
  intros Hs Hin Hinv Hw. unfold cause.
  rewrite invoked_app, started_app, completed_app.
  unfold arrowOutcome in Hw. unfold completionCalls. rewrite Hs.
  destruct (callStart options (t_node t)) as [reason'|] eqn:Hc.
  - injection Hw as ->. right. left. exists (t_node t).
    split; [apply in_or_app; now left | assumption].
  - assert (Hcalled : In (t_node t) (invoked trace)).
    { rewrite Hinv. apply filter_In. split; [assumption|].
      unfold startReturns. now rewrite Hc. }
    destruct (processor (t_node t)) as [r|reason'] eqn:Hp.
    + destruct (callComplete options r) as [reason'|] eqn:Hcc;
        [|discriminate].
      injection Hw as ->. right. right. exists r.
      split; [|assumption]. apply in_or_app. right. simpl. now left.
    + injection Hw as ->. left. exists (t_node t).
      split; [apply in_or_app; now left | assumption].
Qed.

Lemma rejectionsTraced_reachable st :
  reachable processor options dag st -> rejectionsTraced processor options st.
Proof.
  apply reachable_ind.
  { split; simpl; [intros t reason []|].
    intros reason [H|[H|H]]; discriminate. }
  clear st. intros st st' I I' [Htasks Hblame] T.
  assert (Hnew : forall more,
             s_trace st' = s_trace st ++ more ->
             (forall t reason,
                 In t (s_executing st') ->
                 t_rejected t = Some reason ->
                 cause processor options (s_trace st') reason) ->
             (forall reason,
                 blames st' reason ->
                 blames st reason \/
                 exists t, In t (s_executing st') /\
                           t_rejected t = Some reason) ->
             rejectionsTraced processor options st').
  { intros more Hmore H1 H2. split; [exact H1|]. intros reason Hb.
    destruct (H2 reason Hb) as [Hold|(t & Ht & Hrej)].
    - rewrite Hmore. apply cause_app. now apply Hblame.
    - now apply (H1 t). }
  destruct T as [a i task result Hst Hn Hrej Hskip Hp
                |a i task reason0 Hst Hn Hrej Hskip Hp
                |sent2 items' a Hst Hdis
                |reason0 Hst
                |Hst He Hi Hlast
                |level rest sent2 items' a Hst He Hi Hlv Hgo Hdis].
  - apply (Hnew [OnNodeComplete result]); simpl; [reflexivity| |].
    + intros t reason Ht Hr. apply cause_app. apply (Htasks t); [|exact Hr].
      destruct (removeNth_perm (fun t => t) _ _ _ Hn) as (Hperm & _).
      rewrite !map_id in Hperm.
      eapply Permutation_in; [symmetry; exact Hperm | now right].
    + intros reason Hb. left. unfold blames in *. simpl in Hb. rewrite Hst.
      destruct a as [[| |?]|[?|]]; intuition congruence.
  - apply (Hnew (completionCalls processor options task)); simpl;
      [reflexivity| |].
    + intros t reason Ht Hr.
      destruct (In_rejectNth _ _ _ _ _ Hn Ht) as [Hin| ->].
      * apply cause_app. now apply (Htasks t).
      * simpl in Hr. injection Hr as <-.
        apply rejection_cause; auto; [|apply I].
        pose proof (e_flight _ _ _ _ I) as HF. rewrite Forall_forall in HF.
        apply HF. eapply nth_error_In. eassumption.
    + intros reason Hb. unfold blames in *. simpl in Hb. rewrite Hst.
      pose proof (rejectNth_In reason0 _ _ _ Hn) as Hin.
      destruct a as [[| |?]|[?|]];
        try (left; intuition congruence);
        right; exists (mkTask (t_node task) (t_skipped task) (Some reason0));
        (split; [exact Hin|]); simpl; intuition congruence.
  - apply (Hnew (flat_map (startCalls options) sent2)); simpl;
      [reflexivity| |].
    + intros t reason Ht Hr. apply in_app_or in Ht.
      destruct Ht as [Ht|Ht]; [apply cause_app; now apply (Htasks t)|].
      apply in_map_iff in Ht. destruct Ht as (n & <- & _). discriminate.
    + intros reason [H|[H|H]]; try discriminate; right; injection H as ->;
        eapply dispatched_blame; eauto.
  - apply (Hnew []); simpl; [now rewrite app_nil_r| |].
    + intros t reason Ht Hr. now apply (Htasks t).
    + intros reason [H|[H|H]]; try discriminate. injection H as <-.
      left. unfold blames. tauto.
  - apply (Hnew []); simpl; [now rewrite app_nil_r| |].
    + intros t reason Ht Hr. now apply (Htasks t).
    + intros reason [H|[H|H]]; discriminate.
  - apply (Hnew (flat_map (startCalls options) sent2)); simpl;
      [reflexivity| |].
    + intros t reason Ht Hr. apply in_map_iff in Ht.
      destruct Ht as (n & <- & _). discriminate.
    + intros reason [H|[H|H]]; try discriminate; right; injection H as ->;
        apply (dispatched_blame level [] sent2 items' _ reason Hdis); auto.
Qed.

(** A task that has rejected is a task whose arrow function rejects. *)
Lemma rejected_tasks st :
  reachable processor options dag st ->
  forall t reason,
    In t (s_executing st) -> t_rejected t = Some reason ->
    work (t_node t) = Rejected reason.
Proof.
  revert st.
  apply (reachable_ind
           (fun st =>
              forall t reason,
                In t (s_executing st) -> t_rejected t = Some reason ->
                work (t_node t) = Rejected reason)).
  { intros t reason []. }
  intros st st' I I' H T.
  destruct T as [a i task result Hst Hn Hrej Hskip Hp
                |a i task reason0 Hst Hn Hrej Hskip Hp
                |sent2 items' a Hst Hdis
                |reason0 Hst
                |Hst He Hi Hlast
                |level rest sent2 items' a Hst He Hi Hlv Hgo Hdis];
    simpl; intros t reason Ht Hr.
  - apply (H t); [|exact Hr].
    destruct (removeNth_perm (fun t => t) _ _ _ Hn) as (Hperm & _).
    rewrite !map_id in Hperm.
    eapply Permutation_in; [symmetry; exact Hperm | now right].
  - destruct (In_rejectNth _ _ _ _ _ Hn Ht) as [Hin| ->];
      [now apply (H t)|].
    simpl in *. now injection Hr as <-.
  - apply in_app_or in Ht. destruct Ht as [Ht|Ht]; [now apply (H t)|].
    apply in_map_iff in Ht. destruct Ht as (n & <- & _). discriminate.
  - now apply (H t).
  - now apply (H t).
  - apply in_map_iff in Ht. destruct Ht as (n & <- & _). discriminate.
Qed.

(** When no callback throws, every task in flight is at work: its promise
    is pending or was rejected by the work function. *)
Lemma working_all st :
  reachable processor options dag st ->
  (forall n, callStart options n = None) ->
  (forall r, callComplete options r = None) ->
  filter (working processor options) (s_executing st) = s_executing st.
Proof.
  intros Hr Hs Hc. apply filter_all. intros t Ht.
  unfold working, startReturns. rewrite Hs. simpl.
  destruct (t_rejected t) as [reason|] eqn:E;
    [|now destruct (processor (t_node t))].
  pose proof (rejected_tasks st Hr t reason Ht E) as Hw.
  unfold arrowOutcome in Hw. rewrite Hs in Hw.
  destruct (processor (t_node t)); [|reflexivity].
  rewrite Hc in Hw. discriminate.
Qed.

(** X20.  [executeDAG] has no rejection of its own: it rejects only with a
    reason that the work function rejected with on an item it was called
    on, or that [onNodeStart] threw on an item that was dispatched, or that
    [onNodeComplete] threw on a result of the work function. *)
Theorem rejects_only_with_a_cause st reason :
  reachable processor options dag st ->
  s_status st = Done (ThrowError reason) ->
  (exists n,
      In n (invoked (s_trace st)) /\ processor n = Rejected reason) \/
  (exists n,
      In n (started (s_trace st)) /\ callStart options n = Some reason) \/
  (exists r,
      In r (completed (s_trace st)) /\
      callComplete options r = Some reason).
Proof.
  intros Hr Hst.
  destruct (rejectionsTraced_reachable st Hr) as [_ Hblame].
  apply Hblame. unfold blames. auto.
Qed.

(** *** No await hangs *)

Lemma awaitsPending_reachable st :
  reachable processor options dag st -> awaitsPending st.
Proof.
  apply reachable_ind.
  { unfold awaitsPending. simpl. constructor. }
  clear st. intros st st' I I' H T. unfold awaitsPending in *.
  assert (Hdis : forall items executing sent items' a,
             dispatched items executing sent items' a ->
             match a with
             | Race Undecided =>
                 executing ++ map fresh sent <> [] /\
                 Forall (fun t => t_rejected t = None)
                        (executing ++ map fresh sent)
             | All None =>
                 Forall (fun t => t_rejected t = None)
                        (executing ++ map fresh sent)
             | _ => True
             end).
  { intros items executing sent items' a (_ & [[_ ->]|[Hne ->]]).
    - destruct (firstRejection _) eqn:E; [exact Logic.I|].
      now apply firstRejection_None.
    - unfold raceOf. destruct (firstRejection _) eqn:E; [exact Logic.I|].
      split; [|now apply firstRejection_None].
      destruct sent; [congruence|]. intros Hnil.
      apply app_eq_nil in Hnil. destruct Hnil. discriminate. }
  destruct T as [a i task result Hst Hn Hrej Hskip Hp
                |a i task reason0 Hst Hn Hrej Hskip Hp
                |sent2 items' a Hst Hd
                |reason0 Hst
                |Hst He Hi Hlast
                |level rest sent2 items' a Hst He Hi Hlv Hgo Hd];
    simpl; try exact Logic.I.
  - rewrite Hst in H.
    destruct a as [[| |?]|[?|]]; try exact Logic.I.
    destruct (removeNth_perm (fun t => t) _ _ _ Hn) as (_ & _ & HF).
    now apply HF.
  - destruct a as [[| |?]|[?|]]; exact Logic.I.
  - now apply (Hdis (s_items st) (s_executing st) sent2 items' a).
  - now apply (Hdis level [] sent2 items' a).
Qed.

(** X21.  No await hangs: whenever [executeDAG] is suspended, the promise
    of some task in flight can still settle or the awaited promise has
    settled and the code can run on; so every state that is not a return or
    a rejection has a next step. *)
Theorem suspended_can_step st :
  reachable processor options dag st ->
  (exists c, s_status st = Done c) \/
  (exists e st', step processor options st e = Some st').
Proof.
  intros Hr. pose proof (awaitsPending_reachable st Hr) as H.
  pose proof (reachable_inv processor options dag st Hr) as I.
  unfold awaitsPending in H.
  destruct (s_status st) as [a|c] eqn:Hst; [right | left; eauto].
  assert (Hsettle : forall t l,
             s_executing st = t :: l -> t_rejected t = None ->
             exists st', step processor options st (Settle 0) = Some st').
  { intros t l He Hrej. unfold step. rewrite Hst.
    assert (Hs : exists st', settle processor options 0 a st = Some st').
    { unfold settle. rewrite He. simpl. rewrite Hrej.
      destruct (taskOutcome processor options t); eauto. }
    destruct Hs as (st' & Hs). exists st'.
    destruct a as [[| |?]|[?|]]; exact Hs. }
  destruct a as [[| |reason]|[reason|]].
  - destruct H as [Hne HF].
    destruct (s_executing st) as [|t l] eqn:He; [congruence|].
    exists (Settle 0). apply (Hsettle t l eq_refl).
    now inversion HF.
  - exists Wake. unfold step. rewrite Hst. eauto.
  - exists Wake. unfold step. rewrite Hst. eauto.
  - exists Wake. unfold step. rewrite Hst. eauto.
  - destruct (s_executing st) as [|t l] eqn:He.
    + exists Wake. unfold step. rewrite Hst, He. eauto.
    + exists (Settle 0). apply (Hsettle t l eq_refl). now inversion H.
Qed.

(** *** Every schedule ends *)

Lemma pending_app (l1 l2 : list (@Task TData)) :
  pending (l1 ++ l2) = pending l1 + pending l2.
Proof. unfold pending. now rewrite filter_app, length_app. Qed.

Lemma pending_fresh (sent : list (DAGNode TData)) :
  pending (map fresh sent) = length sent.
Proof. unfold pending. induction sent; simpl; auto. Qed.

Lemma pending_removeNth (l : list (@Task TData)) :
  forall i task,
    nth_error l i = Some task -> t_rejected task = None ->
    S (pending (removeNth i l)) = pending l.
Proof.
  unfold pending.
  induction l as [|x l IH]; intros [|i] task Hn Hrej; simpl in *;
    try discriminate.
  - injection Hn as ->. now rewrite Hrej.
  - destruct (t_rejected x); simpl; erewrite <- IH; eauto.
Qed.

Lemma pending_rejectNth reason (l : list (@Task TData)) :
  forall i task,
    nth_error l i = Some task -> t_rejected task = None ->
    S (pending (rejectNth i reason l)) = pending l.
Proof.
  unfold pending.
  induction l as [|x l IH]; intros [|i] task Hn Hrej; simpl in *;
    try discriminate.
  - injection Hn as ->. now rewrite Hrej.
  - destruct (t_rejected x); simpl; erewrite <- IH; eauto.
Qed.

Lemma Transition_decreases st st' :
  Transition processor options st st' -> remaining st' < remaining st.
Proof.
  intros T. unfold remaining.
  destruct T as [a i task result Hst Hn Hrej Hskip Hp
                |a i task reason Hst Hn Hrej Hskip Hp
                |sent items' a Hst (Hitems & Ha)
                |reason Hst
                |Hst He Hi Hlast
                |level rest sent items' a Hst He Hi Hlv Hgo (Hitems & Ha)];
    simpl.
  - rewrite <- (pending_removeNth _ _ _ Hn Hrej), Hst.
    destruct a as [[| |?]|[?|]]; simpl; lia.
  - rewrite <- (pending_rejectNth reason _ _ _ Hn Hrej), Hst.
    destruct a as [[| |?]|[?|]]; simpl; lia.
  - rewrite Hst, Hitems, pending_app, pending_fresh, length_app. simpl.
    destruct Ha as [[-> ->]|[Hne ->]]; simpl; [lia|].
    destruct sent; [congruence | simpl; lia].
  - destruct Hst as [-> | ->]; simpl; lia.
  - rewrite Hst. simpl. lia.
  - rewrite Hst, He, Hi, Hlv, pending_fresh. simpl.
    rewrite Hitems, !length_app.
    destruct a; simpl; lia.
Qed.

Lemma run_decreases events :
  forall st st',
    Inv st -> run processor options st events = Some st' ->
    length events + remaining st' <= remaining st.
Proof.
  induction events as [|e events IH]; intros st st' I Hr; simpl in Hr.
  - injection Hr as <-. simpl. lia.
  - destruct (step processor options st e) as [st1|] eqn:Hs; [|discriminate].
    assert (I1 : Inv st1) by (eapply step_inv; eassumption).
    pose proof (Transition_decreases st st1 (step_Transition st e st1 I Hs)).
    specialize (IH st1 st' I1 Hr). simpl. lia.
Qed.

(** X22.  Every schedule ends.  A run of [executeDAG] makes at most three
    moves per item and two per level - a promise of the work function
    settles, or the code resumes after an [await] - before it returns or
    rejects. *)
Theorem schedules_are_bounded events st :
  run processor options (executeDAG options dag) events = Some st ->
  length events
  <= 3 * length (Traversal.getTopologicalOrder dag)
     + 2 * length (levels dag).
Proof.
  intros Hr.
  pose proof (run_decreases events _ _
                (executeDAG_inv processor options dag) Hr) as Hrun.
  pose proof (Transition_decreases _ _ start_Transition) as Hstart.
  unfold remaining at 2 in Hstart. simpl in Hstart.
  unfold Traversal.getTopologicalOrder. unfold pending in Hstart.
  simpl in Hstart. lia.
Qed.

End Moves.

(** *** One item at a time *)

Section Sequential.
Context {TData TOutput : Type}.
Variable processor : DAGNode TData -> @Outcome TData TOutput.
Variable options : @DAGExecutionOptions TData TOutput.
Variable dag : DependencyDAG TData.
Hypothesis one : atMost options 1.

Local Abbreviation work := (arrowOutcome processor options).
Local Abbreviation fresh := (fun n : DAGNode TData => mkTask n false None).

Lemma working_fresh (sent : list (DAGNode TData)) :
  map (fun t => processor (t_node t))
      (filter (working processor options) (map fresh sent))
  = map processor (filter (startReturns options) sent).
Proof.
  induction sent as [|n sent IH]; [reflexivity|].
  cbn [map filter]. unfold working at 1. cbn [t_node t_rejected].
  rewrite andb_true_r.
  destruct (startReturns options n); cbn [map]; now rewrite IH.
Qed.

Lemma alone (st : @State TData TOutput) i task :
  ExecInv processor options dag st ->
  nth_error (s_executing st) i = Some task ->
  s_executing st = [task] /\ i = 0.
Proof.
  intros I Hn. destruct (e_bound _ _ _ _ I) as [Hb _].
  apply (atMost_one options _ one) in Hb.
  destruct (s_executing st) as [|t [|t' l]]; simpl in Hb; try lia.
  - destruct i; discriminate.
  - destruct i as [|[|i]]; try discriminate. now injection Hn as ->.
Qed.

Lemma inCallOrder_reachable st :
  reachable processor options dag st -> inCallOrder processor options st.
Proof.
  apply reachable_ind.
  { reflexivity. }
  clear st. intros st st' I I' H T. unfold inCallOrder in *.
  destruct T as [a i task result Hst Hn Hrej Hskip Hp
                |a i task reason0 Hst Hn Hrej Hskip Hp
                |sent2 items' a Hst Hd
                |reason0 Hst
                |Hst He Hi Hlast
                |level rest sent2 items' a Hst He Hi Hlv Hgo Hd];
    cbn [s_trace s_executing].
  - destruct (alone st i task I Hn) as [He ->]. rewrite He in *.
    apply arrow_Fulfilled in Hp. destruct Hp as (Hcs & Hp & Hcc).
    cbn [filter removeNth map] in *. unfold working, startReturns in H.
    rewrite Hcs, Hrej in H. simpl in H.
    rewrite invoked_app, completed_app. simpl.
    rewrite !app_nil_r, map_app, H, Hp. reflexivity.
  - destruct (alone st i task I Hn) as [He ->]. rewrite He in *.
    destruct (settle_rejected processor options task reason0 Hskip Hp)
      as (_ & Hi0 & _ & _ & Hc0).
    rewrite invoked_app, completed_app, Hi0, app_nil_r.
    cbn [filter rejectNth map] in *.
    unfold working in *. cbn [t_node t_rejected] in *. rewrite Hrej in H.
    unfold completionCalls in *. rewrite Hskip in *.
    unfold startReturns in *.
    destruct (callStart options (t_node task)) eqn:Hcs.
    + simpl in *. rewrite !app_nil_r. rewrite app_nil_r in H. exact H.
    + destruct (processor (t_node task)) as [r|reason'] eqn:Hpr.
      * simpl in *. rewrite H, Hpr, map_app, app_nil_r. reflexivity.
      * simpl in *. rewrite !app_nil_r. exact H.
  - rewrite invoked_app, completed_app, invoked_calls, completed_calls,
      app_nil_r, filter_app, !map_app, working_fresh, H.
    now rewrite app_assoc.
  - assumption.
  - assumption.
  - rewrite He in H. cbn [filter map] in H.
    rewrite invoked_app, completed_app, invoked_calls, completed_calls,
      app_nil_r, map_app, working_fresh, H.
    now rewrite app_nil_r.
Qed.

Lemma callsFollowStarts_reachable st :
  reachable processor options dag st -> callsFollowStarts options st.
Proof.
  apply reachable_ind.
  { now left. }
  clear st. intros st st' I I' H T. unfold callsFollowStarts in *.
  assert (Hsent : forall (trace : list (@Observation TData TOutput)) sent a,
             started trace = invoked trace ->
             length sent <= 1 ->
             a <> Race Won ->
             started (trace ++ flat_map (startCalls options) sent)
             = invoked (trace ++ flat_map (startCalls options) sent) \/
             exists n t,
               started (trace ++ flat_map (startCalls options) sent)
               = invoked (trace ++ flat_map (startCalls options) sent)
                 ++ [n] /\
               map fresh sent = [t] /\ t_node t = n /\
               startReturns options n = false /\
               @Suspended TData TOutput a <> Suspended (Race Won)).
  { intros trace sent a Heq Hlen Ha.
    rewrite started_app, invoked_app, started_calls, invoked_calls, Heq.
    destruct sent as [|n [|n' sent]]; simpl in Hlen; try lia.
    - now left.
    - cbn [filter map]. destruct (startReturns options n) eqn:Hsr.
      + now left.
      + right. exists n, (fresh n). rewrite app_nil_r.
        repeat split; auto. congruence. }
  assert (Hrace : forall (items : list (DAGNode TData)) executing sent
                         items' (a : @Await),
             dispatched items executing sent items' a -> a <> Race Won).
  { intros items executing sent items' a (_ & [[_ ->]|[_ ->]]);
      [discriminate|].
    unfold raceOf. destruct (firstRejection _); discriminate. }
  destruct T as [a i task result Hst Hn Hrej Hskip Hp
                |a i task reason0 Hst Hn Hrej Hskip Hp
                |sent2 items' a Hst Hd
                |reason0 Hst
                |Hst He Hi Hlast
                |level rest sent2 items' a Hst He Hi Hlv Hgo Hd];
    cbn [s_trace s_executing s_status].
  - destruct H as [H|(n & t & H & He & Ht & Hsr & _)].
    + left. rewrite started_app, invoked_app. cbn [started invoked flat_map].
      now rewrite !app_nil_r.
    + exfalso. rewrite He in Hn. destruct i as [|[|i]]; try discriminate.
      injection Hn as <-. apply arrow_startReturns in Hp. congruence.
  - destruct (settle_rejected processor options task reason0 Hskip Hp)
      as (Hs0 & Hi0 & _).
    rewrite started_app, invoked_app, Hs0, Hi0, !app_nil_r.
    destruct H as [H|(n & t & H & He & Ht & Hsr & Hwon)]; [now left|].
    right. rewrite He in Hn. destruct i as [|[|i]]; try discriminate.
    injection Hn as <-. rewrite He. cbn [rejectNth].
    exists n, (mkTask (t_node t) (t_skipped t) (Some reason0)).
    repeat split; auto. rewrite Hst in Hwon.
    destruct a as [[| |?]|[?|]]; congruence.
  - destruct (e_bound _ _ _ _ I) as [_ Hroom].
    apply (atMost_room options _ one) in Hroom; [|assumption].
    destruct (e_bound _ _ _ _ I') as [Hb' _]. cbn [s_executing] in Hb'.
    apply (atMost_one options _ one) in Hb'.
    apply length_zero_iff_nil in Hroom. rewrite Hroom in *.
    cbn [app] in *. rewrite length_map in Hb'.
    destruct H as [H|(n & t & _ & He & _)]; [|discriminate].
    destruct (Hsent (s_trace st) sent2 a H Hb' (Hrace _ _ _ _ _ Hd))
      as [Hl|(n & t & Hr1 & Hr2 & Hr3 & Hr4 & Hr5)]; [now left|].
    right. exists n, t. auto.
  - destruct H as [H|(n & t & H & He & Ht & Hsr & Hwon)]; [now left|].
    right. exists n, t. repeat split; auto. discriminate.
  - rewrite He in H. destruct H as [H|(n & t & _ & He' & _)];
      [now left | discriminate].
  - destruct (e_bound _ _ _ _ I') as [Hb' _]. cbn [s_executing] in Hb'.
    apply (atMost_one options _ one) in Hb'. rewrite length_map in Hb'.
    rewrite He in H. destruct H as [H|(n & t & _ & He' & _)];
      [|discriminate].
    destruct (Hsent (s_trace st) sent2 a H Hb' (Hrace _ _ _ _ _ Hd))
      as [Hl|(n & t & Hr1 & Hr2 & Hr3 & Hr4 & Hr5)]; [now left|].
    right. exists n, t. auto.
Qed.

Lemma one_at_a_time st :
  reachable processor options dag st ->
  inFlight st <= 1 /\
  map processor (invoked (s_trace st))
  = map Fulfilled (completed (s_trace st))
    ++ map (fun t => processor (t_node t))
           (filter (working processor options) (s_executing st)) /\
  ((forall n, callStart options n = None) ->
   (forall r, callComplete options r = None) ->
   filter (working processor options) (s_executing st) = s_executing st) /\
  exists rest,
    Traversal.getTopologicalOrder dag = invoked (s_trace st) ++ rest.
Proof.
  intros Hr.
  pose proof (reachable_inv processor options dag st Hr) as I.
  split; [|split; [|split]].
  - destruct (e_bound _ _ _ _ I) as [Hb _].
    now apply (atMost_one options _ one) in Hb.
  - now apply inCallOrder_reachable.
  - now apply (working_all processor options dag).
  - destruct (e_levels _ _ _ _ I) as (done & Hd & Hi).
    unfold Traversal.getTopologicalOrder. rewrite Hd, concat_app, <- Hi.
    destruct (callsFollowStarts_reachable st Hr)
      as [->|(n & t & -> & _)].
    + exists (s_items st ++ concat (s_levels st)).
      now rewrite app_assoc.
    + exists ([n] ++ s_items st ++ concat (s_levels st)).
      now rewrite <- !app_assoc.
Qed.

End Sequential.

(** X23.  [executeDAGSequential] works through the flattened levels one
    item at a time: at most one task is in flight, the work function is
    called on a prefix of the topological order, and the results arrive in
    the order of the calls - the outcomes of the calls made so far are the
    results handed to [onNodeComplete], in that order, followed by the
    outcome of the task in flight if its call has been made and its result
    has not arrived, which is the case for every task in flight when no
    callback throws. *)
Theorem sequential_in_order {TData TOutput : Type}
  (processor : DAGNode TData -> @Outcome TData TOutput)
  (options : @DAGExecutionOptions TData TOutput)
  (dag : DependencyDAG TData) events st :
  run processor (sequentialOptions options)
      (executeDAGSequential options dag) events = Some st ->
  inFlight st <= 1 /\
  map processor (invoked (s_trace st))
  = map Fulfilled (completed (s_trace st))
    ++ map (fun t => processor (t_node t))
           (filter (working processor (sequentialOptions options))
                   (s_executing st)) /\
  ((forall n, callStart options n = None) ->
   (forall r, callComplete options r = None) ->
   filter (working processor (sequentialOptions options)) (s_executing st)
   = s_executing st) /\
  exists rest,
    Traversal.getTopologicalOrder dag = invoked (s_trace st) ++ rest.
Proof.
  intros Hrun.
  apply (one_at_a_time processor (sequentialOptions options) dag).
  - reflexivity.
  - exists events. exact Hrun.
Qed.

(** X24.  A concurrency of zero or less does not stop the executor and does
    not lift the limit: it runs the items one at a time, in level order,
    like a concurrency of one; the results arrive in the order of the
    calls, as for [executeDAGSequential]. *)
Theorem nonpositive_limit_runs_one_at_a_time {TData TOutput : Type}
  (processor : DAGNode TData -> @Outcome TData TOutput)
  (options : @DAGExecutionOptions TData TOutput)
  (dag : DependencyDAG TData) st :
  atMost options 0 ->
  reachable processor options dag st ->
  inFlight st <= 1 /\
  map processor (invoked (s_trace st))
  = map Fulfilled (completed (s_trace st))
    ++ map (fun t => processor (t_node t))
           (filter (working processor options) (s_executing st)) /\
  ((forall n, callStart options n = None) ->
   (forall r, callComplete options r = None) ->
   filter (working processor options) (s_executing st) = s_executing st) /\
  exists rest,
    Traversal.getTopologicalOrder dag = invoked (s_trace st) ++ rest.
Proof.
  intros Hle Hr. apply (one_at_a_time processor options dag); [|assumption].
  apply (sizeAtLeast_mono _ 0 1); [lia | exact Hle].
Qed.

(** *** createProcessor as the work function *)

Section Wrapped.
Context {TData TOutput Value : Type}.
Variable String_ : Value -> Completion string.
Variable fn : DAGNode TData -> @FnOutcome Value.
Variable startTime endTime : DAGNode TData -> Z.

Local Abbreviation wrapped :=
  (fun n : DAGNode TData =>
     @createProcessor TData TOutput Value String_ fn
                      (startTime n) (endTime n) n).

(** X25.  With a work function made by [createProcessor] every result
    refers to the node it was produced for, and [executeDAG] rejects only
    when [String] throws on a value that is not an [Error] and that [fn]
    threw on an item it was called on, or when a callback throws; so it
    never rejects when no callback is given and [String] converts every
    value that [fn] throws. *)
Theorem wrapped_work_rejections
  (options : @DAGExecutionOptions TData TOutput)
  (dag : DependencyDAG TData) st :
  reachable wrapped options dag st ->
  answersForNode wrapped /\
  (forall reason,
      s_status st = Done (ThrowError reason) ->
      (exists n v,
          In n (invoked (s_trace st)) /\ fn n = Throws (OtherValue v) /\
          String_ v = ThrowError reason) \/
      (exists n,
          In n (started (s_trace st)) /\
          callStart options n = Some reason) \/
      (exists r,
          In r (completed (s_trace st)) /\
          callComplete options r = Some reason)) /\
  (onNodeStart options = None -> onNodeComplete options = None ->
   (forall n v reason,
       fn n = Throws (OtherValue v) -> String_ v <> ThrowError reason) ->
   forall reason, s_status st <> Done (ThrowError reason)).
Proof.
  intros Hr.
  assert (Hcause : forall reason,
             s_status st = Done (ThrowError reason) ->
             (exists n v,
                 In n (invoked (s_trace st)) /\
                 fn n = Throws (OtherValue v) /\
                 String_ v = ThrowError reason) \/
             (exists n,
                 In n (started (s_trace st)) /\
                 callStart options n = Some reason) \/
             (exists r,
                 In r (completed (s_trace st)) /\
                 callComplete options r = Some reason)).
  { intros reason Hst.
    destruct (rejectionsTraced_reachable wrapped options dag st Hr)
      as [_ Hblame].
    destruct (Hblame reason) as [(n & Hn & Hp)|[H|H]];
      [unfold blames; auto| |auto|auto].
    left. unfold createProcessor in Hp.
    destruct (fn n) as [|[message|v]] eqn:Hfn; simpl in Hp;
      try discriminate.
    exists n, v. split; [assumption|]. split; [assumption|].
    destruct (String_ v); congruence. }
  split; [|split].
  - intros n r. unfold createProcessor.
    destruct (fn n) as [|e]; [intros [= <-]; reflexivity|].
    destruct (messageOf String_ e); [intros [= <-]; reflexivity|discriminate].
  - exact Hcause.
  - intros Hs Hc Hstr reason Hst.
    destruct (Hcause reason Hst)
      as [(n & v & _ & Hfn & Hv)|[(n & _ & H)|(r & _ & H)]].
    + exact (Hstr n v reason Hfn Hv).
    + unfold callStart in H. rewrite Hs in H. discriminate.
    + unfold callComplete in H. rewrite Hc in H. discriminate.
Qed.

End Wrapped.

(** *** Sample schedules *)

(** The diamond with limit 2, once level 0 is complete and level 1 is
    dispatched. *)
Lemma earlier_levels_complete_witness :
  exists st,
    run (Examples.failOn "b") (Examples.withLimit 2)
        (executeDAG (Examples.withLimit 2)
                    (Examples.leveledDAG Examples.diamond))
        [Settle 0; Wake] = Some st /\
    exists done current,
      levels (Examples.leveledDAG Examples.diamond)
      = done ++ current ++ s_levels st /\
      length current <= 1 /\
      Forall (fun t => In (t_node t) (concat current)) (s_executing st).
Proof.
  eexists. split; [vm_compute; reflexivity|].
  match goal with
  | |- exists done current, _ = _ ++ _ ++ s_levels ?st /\ _ =>
      destruct (earlier_levels_complete (Examples.failOn "b")
                  (Examples.withLimit 2)
                  (Examples.leveledDAG Examples.diamond) st)
        as (done & current & H1 & H2 & H3 & _)
  end.
  - exists [Settle 0; Wake]. vm_compute. reflexivity.
  - exists done, current. auto.
Defined.

(** The chain: when the task of [a] has settled, the results of level 0 are
    the result of [a]. *)
Lemma level_results_cover_level_witness :
  exists st,
    run (Examples.failOn "b") Examples.defaults
        (executeDAG Examples.defaults (Examples.leveledDAG Examples.chain))
        [Settle 0] = Some st /\
    exists done current,
      levels (Examples.leveledDAG Examples.chain)
      = done ++ current ++ s_levels st /\
      length current <= 1 /\
      Permutation (map (Examples.failOn "b") (concat current))
                  (map Fulfilled (s_levelResults st)).
Proof.
  eexists. split; [vm_compute; reflexivity|].
  match goal with
  | |- exists done current, _ = _ ++ _ ++ s_levels ?st /\ _ =>
      apply (level_results_cover_level (Examples.failOn "b")
               Examples.defaults
               (Examples.leveledDAG Examples.chain) st)
  end.
  - exists [Settle 0]. vm_compute. reflexivity.
  - reflexivity.
  - reflexivity.
Defined.

(** The chain with a work function that never fails: the call returns with
    every level run. *)
Lemma success_covers_every_item_witness :
  exists st result,
    run (Examples.failOn "none") Examples.defaults
        (executeDAG Examples.defaults (Examples.leveledDAG Examples.chain))
        [Settle 0; Wake; Settle 0; Wake; Settle 0; Wake] = Some st /\
    s_status st = Done (Return result) /\
    dag_success result = true /\
    s_levels st = [].
Proof.
  eexists. eexists. split; [vm_compute; reflexivity|].
  match goal with
  | |- s_status ?st = Done (Return ?res) /\ _ =>
      assert (Hst : s_status st = Done (Return res)) by reflexivity
  end.
  match type of Hst with
  | s_status ?st = Done (Return ?res) =>
      split; [exact Hst|]; split; [reflexivity|];
      refine (proj1 (success_covers_every_item (Examples.failOn "none")
                       Examples.defaults
                       (Examples.leveledDAG Examples.chain) st res
                       (failOn_answers "none") chain_distinct _ Hst
                       eq_refl))
  end.
  exists [Settle 0; Wake; Settle 0; Wake; Settle 0; Wake].
  vm_compute. reflexivity.
Defined.

(** The chain with [b] failing and [failFast] off: [c] still runs. *)
Lemma continue_on_error_runs_all_witness :
  exists st result,
    run (Examples.failOn "b") Examples.continueOnError
        (executeDAG Examples.continueOnError
                    (Examples.leveledDAG Examples.chain))
        [Settle 0; Wake; Settle 0; Wake; Settle 0; Wake] = Some st /\
    s_status st = Done (Return result) /\
    s_levels st = [] /\
    invoked (s_trace st) = concat (levels (Examples.leveledDAG Examples.chain)).
Proof.
  eexists. eexists. split; [vm_compute; reflexivity|].
  match goal with
  | |- s_status ?st = Done (Return ?res) /\ _ =>
      assert (Hst : s_status st = Done (Return res)) by reflexivity
  end.
  match type of Hst with
  | s_status ?st = Done (Return ?res) =>
      split; [exact Hst|];
      destruct (continue_on_error_runs_all (Examples.failOn "b")
                  Examples.continueOnError
                  (Examples.leveledDAG Examples.chain) st res
                  eq_refl (failOn_answers "b") chain_distinct)
        as (H1 & H2 & _); [| exact Hst | auto]
  end.
  exists [Settle 0; Wake; Settle 0; Wake; Settle 0; Wake].
  vm_compute. reflexivity.
Defined.

(** The pair with limit 1 and an [onNodeStart] that throws on [a]: the call
    rejects with what the callback threw, and the work function was never
    called. *)
Lemma rejects_only_with_a_cause_witness :
  exists st,
    run (Examples.failOn "none") (Examples.startThrowsOn "a")
        (executeDAG (Examples.startThrowsOn "a")
                    (Examples.leveledDAG Examples.pair))
        [Settle 0; Wake] = Some st /\
    s_status st = Done (ThrowError "onNodeStart threw") /\
    invoked (s_trace st) = [] /\
    ((exists n,
         In n (invoked (s_trace st)) /\
         Examples.failOn "none" n = Rejected "onNodeStart threw") \/
     (exists n,
         In n (started (s_trace st)) /\
         callStart (Examples.startThrowsOn "a") n
         = Some "onNodeStart threw"%string) \/
     (exists r,
         In r (completed (s_trace st)) /\
         callComplete (Examples.startThrowsOn "a") r
         = Some "onNodeStart threw"%string)).
Proof.
  eexists. split; [vm_compute; reflexivity|]. split; [reflexivity|].
  split; [reflexivity|].
  match goal with
  | |- (exists n, In n (invoked (s_trace ?st)) /\ _) \/ _ =>
      apply (rejects_only_with_a_cause (Examples.failOn "none")
               (Examples.startThrowsOn "a")
               (Examples.leveledDAG Examples.pair) st)
  end.
  - exists [Settle 0; Wake]. vm_compute. reflexivity.
  - reflexivity.
Defined.

(** Right after the call on the diamond a task can settle. *)
Lemma suspended_can_step_witness :
  (exists c,
      s_status (@executeDAG unit unit (Examples.withLimit 2)
                  (Examples.leveledDAG Examples.diamond)) = Done c) \/
  (exists e st',
      step (Examples.failOn "b") (Examples.withLimit 2)
           (executeDAG (Examples.withLimit 2)
                       (Examples.leveledDAG Examples.diamond)) e
      = Some st').
Proof.
  apply (suspended_can_step (Examples.failOn "b") (Examples.withLimit 2)
           (Examples.leveledDAG Examples.diamond)).
  exists []. reflexivity.
Defined.

(** The diamond, sequentially: after [a] the task of [b] alone is in
    flight. *)
Lemma sequential_in_order_witness :
  exists st,
    run (Examples.failOn "none") (sequentialOptions Examples.defaults)
        (executeDAGSequential Examples.defaults
                              (Examples.leveledDAG Examples.diamond))
        [Settle 0; Wake; Wake] = Some st /\
    inFlight st <= 1.
Proof.
  eexists. split; [vm_compute; reflexivity|].
  match goal with
  | |- inFlight ?st <= 1 =>
      refine (proj1 (sequential_in_order (Examples.failOn "none")
                       Examples.defaults
                       (Examples.leveledDAG Examples.diamond)
                       [Settle 0; Wake; Wake] st _))
  end.
  vm_compute. reflexivity.
Defined.

(** The pair with limit 0: one task in flight. *)
Lemma nonpositive_limit_runs_one_at_a_time_witness :
  atMost (Examples.withLimit 0) 0 /\
  inFlight (@executeDAG unit unit (Examples.withLimit 0)
              (Examples.leveledDAG Examples.pair)) <= 1.
Proof.
  assert (Hle : atMost (Examples.withLimit 0) 0) by reflexivity.
  split; [exact Hle|].
  refine (proj1 (nonpositive_limit_runs_one_at_a_time
                   (Examples.failOn "none") (Examples.withLimit 0)
                   (Examples.leveledDAG Examples.pair) _ Hle _)).
  exists []. reflexivity.
Defined.

(** The full run of the chain takes six moves, within the bound 15. *)
Lemma schedules_are_bounded_witness :
  exists st,
    run (Examples.failOn "none") Examples.defaults
        (executeDAG Examples.defaults (Examples.leveledDAG Examples.chain))
        [Settle 0; Wake; Settle 0; Wake; Settle 0; Wake] = Some st /\
    length [Settle 0; Wake; Settle 0; Wake; Settle 0; Wake]
    <= 3 * length (Traversal.getTopologicalOrder
                     (Examples.leveledDAG Examples.chain))
       + 2 * length (levels (Examples.leveledDAG Examples.chain)).
Proof.
  eexists. split; [vm_compute; reflexivity|].
  refine (schedules_are_bounded (Examples.failOn "none")
            Examples.defaults (Examples.leveledDAG Examples.chain)
            [Settle 0; Wake; Settle 0; Wake; Settle 0; Wake] _ _).
  vm_compute. reflexivity.
Defined.

(** The chain with [createProcessor] around a function that throws the
    string [boom] on [b], no callbacks: the call returns. *)
Lemma wrapped_work_rejections_witness :
  exists st,
    run (Examples.wrappedThrowOn "b" (Examples.Text "boom"))
        Examples.defaults
        (executeDAG Examples.defaults (Examples.leveledDAG Examples.chain))
        [Settle 0; Wake; Settle 0; Wake] = Some st /\
    forall reason, s_status st <> Done (ThrowError reason).
Proof.
  eexists. split; [vm_compute; reflexivity|].
  match goal with
  | |- forall reason, s_status ?st <> _ =>
      refine (proj2 (proj2 (wrapped_work_rejections Examples.sampleString
                              (Examples.throwOn "b" (Examples.Text "boom"))
                              (fun _ => 0%Z) (fun _ => 5%Z)
                              Examples.defaults
                              (Examples.leveledDAG Examples.chain) st _))
                eq_refl eq_refl _)
  end.
  - exists [Settle 0; Wake; Settle 0; Wake]. vm_compute. reflexivity.
  - intros n v reason. unfold Examples.throwOn.
    destruct (String.eqb (id n) "b"); [|discriminate].
    intros [= <-]. discriminate.
Defined.

(** The same chain when the function throws [Object.create(null)] on [b]:
    the processor rejects and so does the call. *)
Example wrapped_work_can_reject :
  exists st,
    run (Examples.wrappedThrowOn "b" Examples.NullPrototypeObject)
        Examples.defaults
        (executeDAG Examples.defaults (Examples.leveledDAG Examples.chain))
        [Settle 0; Wake; Settle 0; Wake] = Some st /\
    s_status st
    = Done (ThrowError "Cannot convert object to primitive value").
Proof. eexists. split; [vm_compute; reflexivity | reflexivity]. Qed.

End ScheduleFacts.

(** ** From the item map to the run *)

Module PipelineFacts.
Import JsMap JsMapFacts Traversal Executor ExecSpec ScheduleSpec.
Import TraversalFacts LevelFacts ExecutorFacts ScheduleFacts.

(** X26.  Dependencies finish first.  When the graph comes from
    [buildLeveledDAG] and the work function has been called on an item, the
    work function has already settled, with a result handed to
    [onNodeComplete], for every dependency of the item that is in the
    map. *)
Theorem dependencies_complete_before_start {TData TOutput : Type}
  (nodes : JsMap.t (DAGNode TData)) (dag : DependencyDAG TData)
  (processor : DAGNode TData -> @Outcome TData TOutput)
  (options : @DAGExecutionOptions TData TOutput) st n dep m :
  NoDup (keys nodes) ->
  buildLeveledDAG nodes = Some (Return dag) ->
  reachable processor options dag st ->
  In n (invoked (s_trace st)) ->
  In dep (dependencies n) ->
  get (Types.nodes dag) dep = Some m ->
  exists r, processor m = Fulfilled r /\ In r (completed (s_trace st)).
Proof.
  intros Hnd Hrun Hr Hn Hdep Hm.
  pose proof (reachable_inv processor options dag st Hr) as I.
  destruct (underWay_reachable processor options dag st Hr)
    as (done & cur & sent & stored & Hl & Hlen & Hcur & Hinv & Hcom
        & Hpd & _ & _).
  rewrite (e_invoked _ _ _ _ I) in Hn. apply filter_In in Hn.
  destruct Hn as [Hn _].
  assert (Hbelow : exists i, i < length done /\
                             In m (nth i (levels dag) [])).
  { rewrite Hinv in Hn. apply in_app_or in Hn. destruct Hn as [Hn|Hn].
    - apply In_levels in Hn. destruct Hn as (j & Hj).
      assert (Hjd : j < length done).
      { destruct (Nat.lt_ge_cases j (length done)) as [?|Hge]; [assumption|].
        rewrite nth_overflow in Hj by assumption. destruct Hj. }
      destruct (dependency_below nodes Hnd dag j n dep m Hrun) as (i & Hi & Hin);
        auto.
      { rewrite Hl, app_nth1 by assumption. exact Hj. }
      exists i. split; [lia | assumption].
    - destruct cur as [|lvl [|lvl' cur]]; simpl in Hlen, Hcur; try lia.
      { symmetry in Hcur. apply app_eq_nil in Hcur.
        destruct Hcur as [-> _]. contradiction. }
      rewrite app_nil_r in Hcur.
      destruct (dependency_below nodes Hnd dag (length done) n dep m Hrun)
        as (i & Hi & Hin); auto.
      { rewrite Hl, app_nth2, Nat.sub_diag by lia. simpl.
        rewrite Hcur. apply in_or_app. now left. }
      exists i. auto. }
  destruct Hbelow as (i & Hi & Hin).
  rewrite Hl, app_nth1 in Hin by assumption.
  assert (Hdone : In m (concat done)) by (apply In_levels; eauto).
  destruct (fulfilled_work processor options _ _ m Hpd Hdone)
    as (r & Hp & Hin').
  exists r. split; [assumption|].
  apply (delivered_completed options). rewrite Hcom.
  apply in_or_app. now left.
Qed.

(** The chain: when [b] has been started, [a] has completed. *)
Lemma dependencies_complete_before_start_witness :
  NoDup (keys Examples.chain) /\
  exists st,
    run (Examples.failOn "none") Examples.defaults
        (executeDAG Examples.defaults (Examples.leveledDAG Examples.chain))
        [Settle 0; Wake] = Some st /\
    In (set_level (Examples.item "b" ["a"%string]) 1)
       (invoked (s_trace st)) /\
    exists r,
      Examples.failOn "none" (set_level (Examples.item "a" []) 0)
      = Fulfilled r /\
      In r (completed (s_trace st)).
Proof.
  assert (Hnd : NoDup (keys Examples.chain)) by distinct_keys.
  split; [exact Hnd|].
  eexists. split; [vm_compute; reflexivity|].
  assert (Hin : In (set_level (Examples.item "b" ["a"%string]) 1)
                   (invoked
                      [OnNodeStart (set_level (Examples.item "a" []) 0);
                       Invoke (set_level (Examples.item "a" []) 0);
                       @OnNodeComplete unit unit
                         (Examples.successResult
                            (set_level (Examples.item "a" []) 0));
                       OnNodeStart
                         (set_level (Examples.item "b" ["a"%string]) 1);
                       Invoke
                         (set_level (Examples.item "b" ["a"%string]) 1)]))
    by (simpl; auto).
  split; [exact Hin|].
  match goal with
  | |- exists r, _ /\ In r (completed (s_trace ?st)) =>
      apply (dependencies_complete_before_start Examples.chain
               (Examples.leveledDAG Examples.chain)
               (Examples.failOn "none") Examples.defaults st
               (set_level (Examples.item "b" ["a"%string]) 1) "a"
               (set_level (Examples.item "a" []) 0) Hnd)
  end.
  - vm_compute. reflexivity.
  - exists [Settle 0; Wake]. vm_compute. reflexivity.
  - exact Hin.
  - simpl. auto.
  - vm_compute. reflexivity.
Defined.

End PipelineFacts.
